(** * Project cost analyzer: project model, scheduler and risk statistics

    A shallow embedding of the scheduling and statistics core of the
    analyzer ([src/project.py], [src/calculator.py], [src/utils.py],
    [src/risk_simulator.py]) together with the properties its
    specification states about it.

    Conventions of the embedding.
    - Python numbers are exact rationals ([Q]); [==] on numbers is
      [Qeq_bool]. The module [Binary64] repeats the numeric part of the
      program on binary64 floating point numbers, with the rounding of
      every operation; it is used where rounding decides the result.
    - Python [str] is [string], one character per code below 256;
      [lower()], [strip()] and slicing act on the ASCII characters, as
      Python does on a string for which [isascii()] holds. The statements
      on the derivation of task ids, the lookup by name and the validation
      of risk levels are made for such strings.
    - A Python [dict] is an association list kept in insertion order
      (assignment to a present key updates in place, a new key goes last).
    - A Python [set] of strings is a list used through membership only.
    - A raised exception is a value of [exn]; loops whose termination is
      not evident take a fuel argument and answer [OutOfFuel] when it is
      exhausted. *)

From Stdlib Require Import List String Ascii Bool Arith ZArith QArith Qminmax Qround.
From Stdlib Require Import Sorted Permutation Lia Lqa.
From Stdlib Require Import Floats Uint63.
Import ListNotations.

(* A decimal literal of a binary64 number denotes the nearest one, as in
   Python. *)
Set Warnings "-inexact-float".

Local Open Scope string_scope.
Local Open Scope Q_scope.

(** ** Python strings *)

Module PyStr.

Definition lower_ascii (c : ascii) : ascii :=
  let n := nat_of_ascii c in
  if ((65 <=? n) && (n <=? 90))%nat then ascii_of_nat (n + 32) else c.

(** [str.lower()] *)
Fixpoint lower (s : string) : string :=
  match s with
  | EmptyString => EmptyString
  | String c r => String (lower_ascii c) (lower r)
  end.

(** [str.replace(" ", "_")] *)
Fixpoint replace_space (s : string) : string :=
  match s with
  | EmptyString => EmptyString
  | String c r =>
      String (if Ascii.eqb c " "%char then "_"%char else c) (replace_space r)
  end.

(** [s[:n]] *)
Definition slice_to (n : nat) (s : string) : string := substring 0 n s.

(** [x in xs] for a list or a set of strings *)
Definition mem (x : string) (xs : list string) : bool :=
  existsb (String.eqb x) xs.

End PyStr.

(** ** Exceptions and outcomes *)

Inductive exn : Type :=
| ValueError (msg : string)
| KeyError (key : string)
| AttributeError (msg : string)
| IndexError
| ZeroDivisionError
| OverflowError (msg : string).

Inductive outcome (A : Type) : Type :=
| Done (a : A)
| Raised (e : exn)
| OutOfFuel.
Arguments Done {A} a.
Arguments Raised {A} e.
Arguments OutOfFuel {A}.

Definition bind {A B} (m : outcome A) (k : A -> outcome B) : outcome B :=
  match m with
  | Done a => k a
  | Raised e => Raised e
  | OutOfFuel => OutOfFuel
  end.

Notation "x <- m ;; k" := (bind m (fun x => k))
  (at level 61, m at next level, right associativity).

Fixpoint mapM {A B : Type} (f : A -> outcome B) (l : list A)
  : outcome (list B) :=
  match l with
  | [] => Done []
  | x :: r => y <- f x ;; ys <- mapM f r ;; Done (y :: ys)
  end.

Fixpoint foldM {S A : Type} (f : S -> A -> outcome S) (l : list A) (s : S)
  : outcome S :=
  match l with
  | [] => Done s
  | x :: r => s' <- f s x ;; foldM f r s'
  end.

Fixpoint filterM {A : Type} (f : A -> outcome bool) (l : list A)
  : outcome (list A) :=
  match l with
  | [] => Done []
  | x :: r =>
      b <- f x ;; ys <- filterM f r ;; Done (if b then x :: ys else ys)
  end.

(** [o.field] where [o] may be [None] *)
Definition attr {A B : Type} (o : option A) (field : A -> B) : outcome B :=
  match o with
  | Some a => Done (field a)
  | None => Raised (AttributeError "'NoneType' object has no such attribute")
  end.

(** ** Python dictionaries keyed by strings *)

Module PyDict.

Definition t (V : Type) := list (string * V).

Section Ops.
Context {V : Type}.

Fixpoint get (d : t V) (k : string) : option V :=
  match d with
  | [] => None
  | (k', v) :: r => if String.eqb k k' then Some v else get r k
  end.

(** [d[k] = v] *)
Fixpoint set (d : t V) (k : string) (v : V) : t V :=
  match d with
  | [] => [(k, v)]
  | (k', v') :: r =>
      if String.eqb k k' then (k', v) :: r else (k', v') :: set r k v
  end.

(** [k in d] *)
Definition contains (d : t V) (k : string) : bool :=
  match get d k with Some _ => true | None => false end.

(** [d.get(k, dflt)] *)
Definition get_default (d : t V) (k : string) (dflt : V) : V :=
  match get d k with Some v => v | None => dflt end.

(** [d[k]], raising [KeyError] *)
Definition lookup (d : t V) (k : string) : outcome V :=
  match get d k with Some v => Done v | None => Raised (KeyError k) end.

Definition keys (d : t V) : list string := map fst d.
Definition values (d : t V) : list V := map snd d.

(** [{key(x): val(x) for x in xs}] *)
Definition comprehension {X : Type} (key : X -> string) (val : X -> V)
           (xs : list X) : t V :=
  fold_left (fun d x => set d (key x) (val x)) xs [].

End Ops.

End PyDict.

(** ** Task and Project ([src/project.py]) *)

Record Task : Type := mkTask {
  name : string;
  estimated_days : Q;
  cost_per_day : Q;
  dependencies : list string;
  task_id : string
}.

(** [Task(name, estimated_days, cost_per_day, dependencies, task_id)]:
    the dataclass constructor followed by [__post_init__]. *)
Definition Task_init (nm : string) (days cost : Q) (deps : list string)
           (tid : option string) : Task :=
  {| name := nm;
     estimated_days := days;
     cost_per_day := cost;
     dependencies := deps;
     task_id := match tid with
                | Some i => i
                | None => PyStr.slice_to 20 (PyStr.replace_space (PyStr.lower nm))
                end |}.

Definition base_cost (t : Task) : Q := estimated_days t * cost_per_day t.

Definition has_dependencies (t : Task) : bool :=
  (0 <? List.length (dependencies t))%nat.

Record Project : Type := mkProject {
  project_name : string;
  tasks : list Task;
  team_size : Z;
  risk_level : string;
  description : string
}.

Definition valid_risk_levels : list string := ["low"; "medium"; "high"].

(** [Project(name, tasks, team_size, risk_level, description)]:
    the dataclass constructor followed by [__post_init__]. *)
Definition Project_init (nm : string) (ts : list Task) (size : Z)
           (risk : string) (descr : string) : outcome Project :=
  if (size <=? 0)%Z then
    Raised (ValueError "Team size must be at least 1")
  else
    match ts with
    | [] => Raised (ValueError "Project must have at least one task")
    | _ :: _ =>
        if negb (PyStr.mem (PyStr.lower risk) valid_risk_levels) then
          Raised (ValueError
                    "Risk level must be one of ['low', 'medium', 'high']")
        else
          Done {| project_name := nm;
                  tasks := ts;
                  team_size := size;
                  risk_level := PyStr.lower risk;
                  description := descr |}
    end.

(** [sum(xs)]: accumulation from [0], left to right *)
Definition py_sum (xs : list Q) : Q := fold_left Qplus xs 0.

Definition total_base_cost (p : Project) : Q :=
  py_sum (map base_cost (tasks p)).

Definition total_estimated_days (p : Project) : Q :=
  py_sum (map estimated_days (tasks p)).

Definition task_count (p : Project) : Z := Z.of_nat (List.length (tasks p)).

Fixpoint find_task (ts : list Task) (tid : string) : option Task :=
  match ts with
  | [] => None
  | t :: r => if String.eqb (task_id t) tid then Some t else find_task r tid
  end.

Definition get_task_by_id (p : Project) (tid : string) : option Task :=
  find_task (tasks p) tid.


(** ** Numbers and sequences as Python has them *)

Definition Qlt_bool (x y : Q) : bool := negb (Qle_bool y x).

(** [int(x)]: truncation toward zero *)
Definition py_int (x : Q) : Z := Z.quot (Qnum x) (Zpos (Qden x)).

(** [xs[i]] with Python's negative indices *)
Definition py_index {A : Type} (xs : list A) (i : Z) : outcome A :=
  let n := Z.of_nat (List.length xs) in
  let j := if (i <? 0)%Z then (n + i)%Z else i in
  if ((j <? 0) || (n <=? j))%Z then Raised IndexError
  else match nth_error xs (Z.to_nat j) with
       | Some x => Done x
       | None => Raised IndexError
       end.

(** [sorted(xs)] is a stable sort; [lt] is the comparison [<] on the keys. *)
Fixpoint insert_sorted {A : Type} (lt : A -> A -> bool) (x : A) (l : list A)
  : list A :=
  match l with
  | [] => [x]
  | y :: r => if lt y x then y :: insert_sorted lt x r else x :: y :: r
  end.

Fixpoint sorted_by {A : Type} (lt : A -> A -> bool) (l : list A) : list A :=
  match l with
  | [] => []
  | x :: r => insert_sorted lt x (sorted_by lt r)
  end.

(** [max(xs)] and [min(xs)] of a non-empty sequence of numbers: the first
    extremal element is kept ([Qmax x y] is [y] exactly when [x < y]). *)
Definition py_max (x : Q) (xs : list Q) : Q := fold_left Qmax xs x.
Definition py_min (x : Q) (xs : list Q) : Q := fold_left Qmin xs x.

(** [max(xs) if xs else 0.0] *)
Definition max_or_zero (xs : list Q) : Q :=
  match xs with
  | [] => 0
  | x :: r => py_max x r
  end.

(** [max(xs, key=key)]: the first element whose key is maximal *)
Definition py_max_by {A : Type} (key : A -> Q) (x : A) (xs : list A) : A :=
  fold_left (fun best y => if Qlt_bool (key best) (key y) then y else best) xs x.

(** ** Utilities ([src/utils.py]) *)

Definition get_risk_multiplier (risk : string) : Q :=
  let r := PyStr.lower risk in
  if String.eqb r "low" then 11 # 10
  else if String.eqb r "medium" then 13 # 10
  else if String.eqb r "high" then 16 # 10
  else 13 # 10.

Definition calculate_percentile (values : list Q) (percentile : Q)
  : outcome Q :=
  match values with
  | [] => Done 0
  | _ :: _ =>
      let sorted_values := sorted_by Qlt_bool values in
      let n := Z.of_nat (List.length sorted_values) in
      let index := py_int (inject_Z n * (percentile / 100)) in
      let index := Z.min index (n - 1) in
      py_index sorted_values index
  end.

(** ** Simulation results ([src/risk_simulator.py]) *)

Record SimulationResult : Type := mkSimulationResult {
  costs : list Q;
  timelines : list Q;
  iterations : Z
}.

Definition mean_of (xs : list Q) : Q :=
  match xs with
  | [] => 0
  | _ :: _ => py_sum xs / inject_Z (Z.of_nat (List.length xs))
  end.

Section Statistics.

(** [x ** 0.5], which has no rational counterpart, is a parameter. *)
Variable pow_half : Q -> Q.


Definition cost_mean (r : SimulationResult) : Q := mean_of (costs r).
Definition timeline_mean (r : SimulationResult) : Q := mean_of (timelines r).

End Statistics.

Definition get_cost_percentile (r : SimulationResult) (percentile : Q)
  : outcome Q := calculate_percentile (costs r) percentile.

Definition get_timeline_percentile (r : SimulationResult) (percentile : Q)
  : outcome Q := calculate_percentile (timelines r) percentile.

(** ** Dependency validation ([Project.validate_dependencies]) *)

(** Python sets of strings *)
Definition set_add (x : string) (s : list string) : list string :=
  if PyStr.mem x s then s else x :: s.

(** [s.remove(x)], raising [KeyError] when [x] is absent *)
Definition set_remove (x : string) (s : list string) : outcome (list string) :=
  if PyStr.mem x s then Done (filter (fun y => negb (String.eqb x y)) s)
  else Raised (KeyError x).

(** [graph = {task.task_id: task.dependencies for task in self.tasks}] *)
Definition dependency_graph (p : Project) : PyDict.t (list string) :=
  PyDict.comprehension task_id dependencies (tasks p).

Record dfs_state : Type := mkDfs {
  visited : list string;
  rec_stack : list string
}.

(** The loop [for neighbor in graph.get(node, [])] of [has_cycle]; [visit]
    is the recursive call. *)
Fixpoint for_neighbors (visit : string -> dfs_state -> outcome (bool * dfs_state))
         (neighbors : list string) (st : dfs_state)
  : outcome (bool * dfs_state) :=
  match neighbors with
  | [] => Done (false, st)
  | neighbor :: rest =>
      if negb (PyStr.mem neighbor (visited st)) then
        r <- visit neighbor st ;;
        if fst r then Done (true, snd r)
        else for_neighbors visit rest (snd r)
      else if PyStr.mem neighbor (rec_stack st) then Done (true, st)
      else for_neighbors visit rest st
  end.

(** The nested function [has_cycle(node)]; [fuel] bounds the depth of the
    recursion. *)
Fixpoint has_cycle (fuel : nat) (graph : PyDict.t (list string))
         (node : string) (st : dfs_state) : outcome (bool * dfs_state) :=
  match fuel with
  | O => OutOfFuel
  | S f =>
      let st1 := {| visited := set_add node (visited st);
                    rec_stack := set_add node (rec_stack st) |} in
      r <- for_neighbors (has_cycle f graph)
             (PyDict.get_default graph node []) st1 ;;
      if fst r then Done (true, snd r)
      else
        rs <- set_remove node (rec_stack (snd r)) ;;
        Done (false, {| visited := visited (snd r); rec_stack := rs |})
  end.

(** The loop [for task in self.tasks] of [_has_circular_dependency] *)
Fixpoint for_roots (fuel : nat) (graph : PyDict.t (list string))
         (ts : list Task) (st : dfs_state) : outcome bool :=
  match ts with
  | [] => Done false
  | task :: rest =>
      if negb (PyStr.mem (task_id task) (visited st)) then
        r <- has_cycle fuel graph (task_id task) st ;;
        if fst r then Done true else for_roots fuel graph rest (snd r)
      else for_roots fuel graph rest st
  end.

Definition has_circular_dependency (fuel : nat) (p : Project) : outcome bool :=
  for_roots fuel (dependency_graph p) (tasks p)
            {| visited := []; rec_stack := [] |}.

Definition missing_dependency_message (task : Task) (dep_id : string) : string :=
  "Task '" ++ name task ++ "' depends on non-existent task '" ++ dep_id ++ "'".

Definition circular_message : string := "Project has circular dependencies".

(** The two nested loops that collect the missing references *)
Definition missing_reference_errors (p : Project) : list string :=
  let task_ids := map task_id (tasks p) in
  fold_left
    (fun errors task =>
       fold_left
         (fun errors dep_id =>
            if negb (PyStr.mem dep_id task_ids)
            then (errors ++ [missing_dependency_message task dep_id])%list
            else errors)
         (dependencies task) errors)
    (tasks p) [].

(** [validate_dependencies(self)]: the method reads [self] and assigns to no
    attribute of it; the first component is [self] as the call leaves it. *)
Definition validate_dependencies (fuel : nat) (self : Project)
  : Project * outcome (list string) :=
  let errors := missing_reference_errors self in
  (self,
   circular <- has_circular_dependency fuel self ;;
   Done (if circular then (errors ++ [circular_message])%list else errors)).

(** ** Critical path ([Project.get_critical_path]) *)

Record kahn_state : Type := mkKahn {
  in_degree : PyDict.t Z;
  earliest_start : PyDict.t Q;
  queue : list string
}.

(** The body of [for task in self.tasks] inside the queue loop *)
Definition relax (current_id : string) (current_task : option Task)
           (st : kahn_state) (task : Task) : outcome kahn_state :=
  if PyStr.mem current_id (dependencies task) then
    es_task <- PyDict.lookup (earliest_start st) (task_id task) ;;
    es_cur <- PyDict.lookup (earliest_start st) current_id ;;
    days <- attr current_task estimated_days ;;
    let es' := PyDict.set (earliest_start st) (task_id task)
                          (Qmax es_task (es_cur + days)) in
    deg <- PyDict.lookup (in_degree st) (task_id task) ;;
    let deg' := (deg - 1)%Z in
    Done {| in_degree := PyDict.set (in_degree st) (task_id task) deg';
            earliest_start := es';
            queue := if (deg' =? 0)%Z then (queue st ++ [task_id task])%list
                     else queue st |}
  else Done st.

(** [while queue: ...] *)
Fixpoint kahn_loop (fuel : nat) (p : Project) (st : kahn_state)
  : outcome kahn_state :=
  match queue st with
  | [] => Done st
  | current_id :: rest =>
      match fuel with
      | O => OutOfFuel
      | S f =>
          let current_task := get_task_by_id p current_id in
          st' <- foldM (relax current_id current_task) (tasks p)
                   {| in_degree := in_degree st;
                      earliest_start := earliest_start st;
                      queue := rest |} ;;
          kahn_loop f p st'
      end
  end.

Definition kahn_init (p : Project) : outcome kahn_state :=
  let in_deg := PyDict.comprehension task_id
                  (fun t => Z.of_nat (List.length (dependencies t))) (tasks p) in
  ready <- filterM (fun t => deg <- PyDict.lookup in_deg (task_id t) ;;
                             Done (deg =? 0)%Z) (tasks p) ;;
  Done {| in_degree := in_deg;
          earliest_start := PyDict.comprehension task_id (fun _ => 0) (tasks p);
          queue := map task_id ready |}.

(** [earliest_start[tid] + self.get_task_by_id(tid).estimated_days] *)
Definition finish_key (p : Project) (es : PyDict.t Q) (tid : string)
  : outcome Q :=
  s <- PyDict.lookup es tid ;;
  d <- attr (get_task_by_id p tid) estimated_days ;;
  Done (s + d).

(** The loop [for dep_id in current_task.dependencies] of the backtracking *)
Fixpoint find_predecessor (p : Project) (es : PyDict.t Q) (current_task : Task)
         (deps : list string) : outcome (option string) :=
  match deps with
  | [] => Done None
  | dep_id :: rest =>
      let dep_task := get_task_by_id p dep_id in
      es_dep <- PyDict.lookup es dep_id ;;
      days <- attr dep_task estimated_days ;;
      es_cur <- PyDict.lookup es (task_id current_task) ;;
      if Qeq_bool (es_dep + days) es_cur then Done (Some dep_id)
      else find_predecessor p es current_task rest
  end.

(** Truth value of [current_id] in [while current_id:] *)
Definition truthy (current_id : option string) : bool :=
  match current_id with
  | None => false
  | Some s => negb (String.eqb s "")
  end.

Fixpoint backtrack (fuel : nat) (p : Project) (es : PyDict.t Q)
         (current_id : option string) (critical_path : list Task)
  : outcome (list Task) :=
  match current_id with
  | None => Done critical_path
  | Some cid =>
      if String.eqb cid "" then Done critical_path
      else
        match fuel with
        | O => OutOfFuel
        | S f =>
            current_task <- attr (get_task_by_id p cid) (fun t => t) ;;
            let critical_path := current_task :: critical_path in
            match dependencies current_task with
            | [] => Done critical_path
            | deps =>
                next <- find_predecessor p es current_task deps ;;
                backtrack f p es next critical_path
            end
        end
  end.

Definition get_critical_path (fuel : nat) (p : Project) : outcome (list Task) :=
  st0 <- kahn_init p ;;
  st <- kahn_loop fuel p st0 ;;
  let es := earliest_start st in
  keyed <- mapM (fun tid => k <- finish_key p es tid ;; Done (tid, k))
             (PyDict.keys es) ;;
  match keyed with
  | [] => Raised (ValueError "max() arg is an empty sequence")
  | first :: others =>
      let end_task_id := fst (py_max_by snd first others) in
      backtrack fuel p es (Some end_task_id) []
  end.

Definition get_independent_tasks (p : Project) : list Task :=
  filter (fun t => negb (has_dependencies t)) (tasks p).

(** ** Calculator and scheduler ([src/calculator.py]) *)

(** [ProjectCalculator(project).risk_multiplier] *)
Definition risk_multiplier (p : Project) : Q :=
  get_risk_multiplier (risk_level p).

Definition calculate_base_cost (p : Project) : Q := total_base_cost p.


Definition calculate_sequential_timeline (p : Project) : Q :=
  total_estimated_days p * risk_multiplier p.

(** The first loop of the scheduler: start and finish times by one pass over
    the tasks in insertion order. *)
Definition dependency_start (finishes : PyDict.t Q) (deps : list string) : Q :=
  fold_left
    (fun earliest dep_id =>
       match PyDict.get finishes dep_id with
       | Some f => Qmax earliest f
       | None => earliest
       end)
    deps 0.

(** The body of [for task in self.project.tasks] *)
Definition forward_step (acc : PyDict.t Q * PyDict.t Q) (task : Task)
  : PyDict.t Q * PyDict.t Q :=
  let '(task_start_times, task_finish_times) := acc in
  let earliest := dependency_start task_finish_times (dependencies task) in
  (PyDict.set task_start_times (task_id task) earliest,
   PyDict.set task_finish_times (task_id task)
              (earliest + estimated_days task)).

Definition forward_pass (ts : list Task) : PyDict.t Q * PyDict.t Q :=
  fold_left forward_step ts ([], []).

(** Equality of dataclass instances, as [list.remove] uses it *)
Definition Task_eqb (a b : Task) : bool :=
  String.eqb (name a) (name b)
  && Qeq_bool (estimated_days a) (estimated_days b)
  && Qeq_bool (cost_per_day a) (cost_per_day b)
  && (if list_eq_dec string_dec (dependencies a) (dependencies b)
      then true else false)
  && String.eqb (task_id a) (task_id b).

(** [l.remove(x)] *)
Fixpoint list_remove (x : Task) (l : list Task) : outcome (list Task) :=
  match l with
  | [] => Raised (ValueError "list.remove(x): x not in list")
  | y :: r =>
      if Task_eqb y x then Done r
      else r' <- list_remove x r ;; Done (y :: r')
  end.

(** [<] on the sort keys [(start, -duration)] *)
Definition key_lt (a b : Q * Q) : bool :=
  Qlt_bool (fst a) (fst b)
  || (Qeq_bool (fst a) (fst b) && Qlt_bool (snd a) (snd b)).

Definition sort_tasks (starts : PyDict.t Q) (ts : list Task)
  : outcome (list Task) :=
  keyed <- mapM (fun t => s <- PyDict.lookup starts (task_id t) ;;
                          Done ((s, - estimated_days t), t)) ts ;;
  Done (map snd (sorted_by (fun a b => key_lt (fst a) (fst b)) keyed)).

Record sched_state : Type := mkSched {
  scheduled_start : PyDict.t Q;
  scheduled_finish : PyDict.t Q;
  active_tasks : list Task;
  current_time : Q;
  remaining_tasks : list Task
}.

(** How one iteration of the simulation loop moves the clock *)
Inductive clock_move : Type :=
| NextCompletion
| JumpToDependencies
| FixedIncrement
| Break.

Definition deps_complete (finish : PyDict.t Q) (now : Q) (task : Task) : bool :=
  forallb
    (fun dep_id =>
       match PyDict.get finish dep_id with
       | Some f => Qle_bool f now
       | None => false
       end)
    (dependencies task).

(** The body of [for task in can_start] *)
Definition start_task (st : sched_state) (task : Task) : outcome sched_state :=
  remaining <- list_remove task (remaining_tasks st) ;;
  Done {| scheduled_start :=
            PyDict.set (scheduled_start st) (task_id task) (current_time st);
          scheduled_finish :=
            PyDict.set (scheduled_finish st) (task_id task)
                       (current_time st + estimated_days task);
          active_tasks := (active_tasks st ++ [task])%list;
          current_time := current_time st;
          remaining_tasks := remaining |}.

(** One iteration of [while remaining_tasks or active_tasks] *)
Definition sched_iteration (size : Z) (st : sched_state)
  : outcome (clock_move * sched_state) :=
  active <- filterM
              (fun t => f <- PyDict.lookup (scheduled_finish st) (task_id t) ;;
                        Done (Qlt_bool (current_time st) f))
              (active_tasks st) ;;
  let can_start :=
    filter (fun task =>
              deps_complete (scheduled_finish st) (current_time st) task
              && (Z.of_nat (List.length active) <? size)%Z)
           (remaining_tasks st) in
  st1 <- foldM start_task can_start
           {| scheduled_start := scheduled_start st;
              scheduled_finish := scheduled_finish st;
              active_tasks := active;
              current_time := current_time st;
              remaining_tasks := remaining_tasks st |} ;;
  let retime (now : Q) :=
    {| scheduled_start := scheduled_start st1;
       scheduled_finish := scheduled_finish st1;
       active_tasks := active_tasks st1;
       current_time := now;
       remaining_tasks := remaining_tasks st1 |} in
  match active_tasks st1 with
  | _ :: _ =>
      finishes <- mapM (fun t => PyDict.lookup (scheduled_finish st1) (task_id t))
                    (active_tasks st1) ;;
      match finishes with
      | f :: fs => Done (NextCompletion, retime (py_min f fs))
      | [] => Raised (ValueError "min() arg is an empty sequence")
      end
  | [] =>
      match remaining_tasks st1 with
      | next_task :: _ =>
          match map (fun dep_id => PyDict.get_default (scheduled_finish st1) dep_id 0)
                    (dependencies next_task) with
          | f :: fs => Done (JumpToDependencies, retime (py_max f fs))
          | [] => Done (FixedIncrement, retime (current_time st1 + (1 # 10)))
          end
      | [] => Done (Break, st1)
      end
  end.

Definition loop_condition (st : sched_state) : bool :=
  match remaining_tasks st, active_tasks st with
  | [], [] => false
  | _, _ => true
  end.

(** The simulation loop; the second component lists the clock moves made. *)
Fixpoint sched_loop (fuel : nat) (size : Z) (st : sched_state)
         (moves : list clock_move) : outcome (sched_state * list clock_move) :=
  if loop_condition st then
    match fuel with
    | O => OutOfFuel
    | S f =>
        r <- sched_iteration size st ;;
        match fst r with
        | Break => Done (snd r, moves)
        | m => sched_loop f size (snd r) (moves ++ [m])%list
        end
    end
  else Done (st, moves).

(** [_simulate_resource_constrained_schedule], with the clock moves of the
    simulation loop (none when the loop is not entered). *)
Definition schedule_trace (fuel : nat) (p : Project)
  : outcome (Q * list clock_move) :=
  let '(task_start_times, task_finish_times) := forward_pass (tasks p) in
  if (task_count p <=? team_size p)%Z then
    Done (max_or_zero (PyDict.values task_finish_times), [])
  else
    sorted_tasks <- sort_tasks task_start_times (tasks p) ;;
    r <- sched_loop fuel (team_size p)
           {| scheduled_start := [];
              scheduled_finish := [];
              active_tasks := [];
              current_time := 0;
              remaining_tasks := sorted_tasks |} [] ;;
    Done (max_or_zero (PyDict.values (scheduled_finish (fst r))), snd r).

Definition simulate_resource_constrained_schedule (fuel : nat) (p : Project)
  : outcome Q :=
  r <- schedule_trace fuel p ;; Done (fst r).

Definition calculate_parallel_timeline (fuel : nat) (p : Project) : outcome Q :=
  match tasks p with
  | [] => Done 0
  | _ :: _ =>
      critical_path <- get_critical_path fuel p ;;
      let critical_path_duration := py_sum (map estimated_days critical_path) in
      timeline <- simulate_resource_constrained_schedule fuel p ;;
      let adjusted_timeline := timeline * risk_multiplier p in
      let min_timeline := critical_path_duration * risk_multiplier p in
      Done (Qmax adjusted_timeline min_timeline)
  end.

(** ** Monte Carlo simulator ([RiskSimulator]) *)

Section RiskSimulator.

(** The ambient random generator: its state and the two draws the simulator
    makes, [random.uniform(a, b)] and [random.gauss(mu, sigma)]. *)
Variable rng : Type.
Variable uniform : Q -> Q -> rng -> Q * rng.
Variable gauss : Q -> Q -> rng -> Q * rng.

Record RiskSimulator : Type := mkRiskSimulator {
  sim_project : Project;
  sim_iterations : Z
}.

(** [RiskSimulator(project, iterations)] *)
Definition RiskSimulator_init (p : Project) (n : Z) : RiskSimulator :=
  {| sim_project := p; sim_iterations := Z.max 100 n |}.

Definition get_variation_range (p : Project) : Q :=
  let r := risk_level p in
  if String.eqb r "low" then 15 # 100
  else if String.eqb r "medium" then 30 # 100
  else if String.eqb r "high" then 50 # 100
  else 30 # 100.

Definition get_risk_factor (p : Project) (g : rng) : Q * rng :=
  let r := risk_level p in
  let base_multiplier :=
    if String.eqb r "low" then 105 # 100
    else if String.eqb r "medium" then 115 # 100
    else if String.eqb r "high" then 130 # 100
    else 115 # 100 in
  let '(variation, g) := gauss 0 (1 # 10) g in
  (Qmax 1 (base_multiplier + variation), g).

(** [x / y] on numbers *)
Definition py_div (x y : Q) : outcome Q :=
  if Qeq_bool y 0 then Raised ZeroDivisionError else Done (x / y).

Definition calculate_scenario_timeline (p : Project)
           (task_durations : PyDict.t Q) (g : rng) : outcome (Q * rng) :=
  task_finish_times <-
    foldM (fun finishes task =>
             let earliest := dependency_start finishes (dependencies task) in
             d <- PyDict.lookup task_durations (task_id task) ;;
             Done (PyDict.set finishes (task_id task) (earliest + d)))
          (tasks p) [] ;;
  if (team_size p <? task_count p)%Z then
    ratio <- py_div (inject_Z (task_count p)) (inject_Z (team_size p)) ;;
    let contention_factor := 1 + (1 # 10) * (ratio - 1) in
    let '(jitter, g) := uniform (8 # 10) (12 # 10) g in
    let contention_factor := contention_factor * jitter in
    Done (match PyDict.values task_finish_times with
          | [] => 0
          | f :: fs => py_max f fs * contention_factor
          end, g)
  else Done (max_or_zero (PyDict.values task_finish_times), g).

(** The body of [for task in self.project.tasks] of one scenario *)
Definition simulate_task (p : Project) (acc : Q * PyDict.t Q * rng)
           (task : Task) : Q * PyDict.t Q * rng :=
  let '(total_cost, task_durations, g) := acc in
  let variation_range := get_variation_range p in
  let '(cost_multiplier, g) :=
    uniform (1 - variation_range * (1 # 2)) (1 + variation_range) g in
  let total_cost := total_cost + base_cost task * cost_multiplier in
  let '(time_multiplier, g) :=
    uniform (1 - variation_range * (3 # 10)) (1 + variation_range * (12 # 10)) g in
  let task_duration := estimated_days task * time_multiplier in
  (total_cost, PyDict.set task_durations (task_id task) task_duration, g).

Definition simulate_single_scenario (p : Project) (g : rng)
  : outcome (Q * Q * rng) :=
  let '(total_cost, task_durations, g) :=
    fold_left (simulate_task p) (tasks p) (0, [], g) in
  r <- calculate_scenario_timeline p task_durations g ;;
  let '(total_timeline, g) := r in
  let '(risk_factor, g) := get_risk_factor p g in
  Done (total_cost * risk_factor, total_timeline * risk_factor, g).

(** [for _ in range(self.iterations)] with the two appends *)
Fixpoint simulation_loop (n : nat) (p : Project) (cs ts : list Q) (g : rng)
  : outcome (list Q * list Q * rng) :=
  match n with
  | O => Done (cs, ts, g)
  | S k =>
      r <- simulate_single_scenario p g ;;
      let '(scenario_cost, scenario_timeline, g) := r in
      simulation_loop k p (cs ++ [scenario_cost])%list
                      (ts ++ [scenario_timeline])%list g
  end.

Definition run_simulation (sim : RiskSimulator) (g : rng)
  : outcome (SimulationResult * rng) :=
  r <- simulation_loop (Z.to_nat (sim_iterations sim)) (sim_project sim)
         [] [] g ;;
  let '(cs, ts, g) := r in
  Done ({| costs := cs; timelines := ts; iterations := sim_iterations sim |}, g).

End RiskSimulator.

(** ** Lookup by name, breakdowns and analyses *)

(** [Project.get_task_by_name]: the first task whose name equals the
    requested one up to the case of the letters. *)
Fixpoint find_task_by_name (ts : list Task) (nm : string) : option Task :=
  match ts with
  | [] => None
  | t :: r =>
      if String.eqb (PyStr.lower (name t)) (PyStr.lower nm) then Some t
      else find_task_by_name r nm
  end.

Definition get_task_by_name (p : Project) (nm : string) : option Task :=
  find_task_by_name (tasks p) nm.



(** One row of [calculate_task_costs], a dictionary with fixed keys *)
Module CostRow.

Record t : Type := mk {
  task_name : string;
  task_id : string;
  base_cost : Q;
  adjusted_cost : Q;
  days : Q;
  cost_per_day : Q
}.

End CostRow.

Definition calculate_task_costs (p : Project) : list CostRow.t :=
  map (fun task =>
         let base := base_cost task in
         let adjusted := base * risk_multiplier p in
         {| CostRow.task_name := name task;
            CostRow.task_id := task_id task;
            CostRow.base_cost := base;
            CostRow.adjusted_cost := adjusted;
            CostRow.days := estimated_days task;
            CostRow.cost_per_day := cost_per_day task |})
      (tasks p).

Definition calculate_timeline_breakdown (fuel : nat) (p : Project)
  : outcome (PyDict.t Q) :=
  let sequential := calculate_sequential_timeline p in
  critical_path <- get_critical_path fuel p ;;
  let parallel_optimistic := py_sum (map estimated_days critical_path) in
  parallel_realistic <- calculate_parallel_timeline fuel p ;;
  Done [("sequential", sequential);
        ("parallel_optimistic", parallel_optimistic);
        ("parallel_realistic", parallel_realistic)].

(** The dictionary of [get_critical_path_analysis]; the keys [task_count],
    [adjusted_duration] and [adjusted_cost] are present only when a path
    exists. *)
Module PathAnalysis.

Record t : Type := mk {
  path_exists : bool;
  tasks : list string;
  task_count : option Z;
  duration : Q;
  adjusted_duration : option Q;
  cost : Q;
  adjusted_cost : option Q
}.

End PathAnalysis.

Definition get_critical_path_analysis (fuel : nat) (p : Project)
  : outcome PathAnalysis.t :=
  critical_path <- get_critical_path fuel p ;;
  match critical_path with
  | [] =>
      Done {| PathAnalysis.path_exists := false;
              PathAnalysis.tasks := [];
              PathAnalysis.task_count := None;
              PathAnalysis.duration := 0;
              PathAnalysis.adjusted_duration := None;
              PathAnalysis.cost := 0;
              PathAnalysis.adjusted_cost := None |}
  | _ :: _ =>
      let duration := py_sum (map estimated_days critical_path) in
      let cost := py_sum (map base_cost critical_path) in
      Done {| PathAnalysis.path_exists := true;
              PathAnalysis.tasks := map name critical_path;
              PathAnalysis.task_count :=
                Some (Z.of_nat (List.length critical_path));
              PathAnalysis.duration := duration;
              PathAnalysis.adjusted_duration :=
                Some (duration * risk_multiplier p);
              PathAnalysis.cost := cost;
              PathAnalysis.adjusted_cost := Some (cost * risk_multiplier p) |}
  end.

(** ** Risk level input ([validate_risk_level]) *)

(** [str.strip()]: leading and trailing whitespace removed, the ASCII
    whitespace characters being tab to carriage return, the four
    separators and the space. *)
Definition is_space (c : ascii) : bool :=
  let n := nat_of_ascii c in
  (((9 <=? n) && (n <=? 13)) || ((28 <=? n) && (n <=? 32)))%nat.

Fixpoint lstrip (s : string) : string :=
  match s with
  | EmptyString => EmptyString
  | String c r => if is_space c then lstrip r else s
  end.

Fixpoint rstrip (s : string) : string :=
  match s with
  | EmptyString => EmptyString
  | String c r =>
      match rstrip r with
      | EmptyString => if is_space c then EmptyString else String c EmptyString
      | String c' r' => String c (String c' r')
      end
  end.

Definition strip (s : string) : string := rstrip (lstrip s).

Definition validate_risk_level (risk_level : string) : outcome string :=
  let risk_level := strip (PyStr.lower risk_level) in
  let valid_levels := ["low"; "medium"; "high"] in
  if negb (PyStr.mem risk_level valid_levels) then
    Raised (ValueError
              ("Risk level must be one of ['low', 'medium', 'high']. Got: "
               ++ risk_level))
  else Done risk_level.

(** ** Scenarios and risk drivers ([src/risk_simulator.py]) *)

(** One entry of [get_scenarios], a dictionary with fixed keys *)
Module Scenario.

Record t : Type := mk {
  cost : Q;
  timeline : Q;
  probability : string
}.

End Scenario.

(** [SimulationResult.get_scenarios]: the entries of the literal are
    evaluated in order. *)
Definition get_scenarios (r : SimulationResult) : outcome (PyDict.t Scenario.t) :=
  best_cost <- get_cost_percentile r 10 ;;
  best_timeline <- get_timeline_percentile r 10 ;;
  let expected_cost := cost_mean r in
  let expected_timeline := timeline_mean r in
  worst_cost <- get_cost_percentile r 90 ;;
  worst_timeline <- get_timeline_percentile r 90 ;;
  p50_cost <- get_cost_percentile r 50 ;;
  p50_timeline <- get_timeline_percentile r 50 ;;
  p75_cost <- get_cost_percentile r 75 ;;
  p75_timeline <- get_timeline_percentile r 75 ;;
  Done [("best_case",
         {| Scenario.cost := best_cost;
            Scenario.timeline := best_timeline;
            Scenario.probability := "10% chance of being this good or better" |});
        ("expected",
         {| Scenario.cost := expected_cost;
            Scenario.timeline := expected_timeline;
            Scenario.probability := "Most likely outcome (mean)" |});
        ("worst_case",
         {| Scenario.cost := worst_cost;
            Scenario.timeline := worst_timeline;
            Scenario.probability := "10% chance of being this bad or worse" |});
        ("p50",
         {| Scenario.cost := p50_cost;
            Scenario.timeline := p50_timeline;
            Scenario.probability := "50% confidence level (median)" |});
        ("p75",
         {| Scenario.cost := p75_cost;
            Scenario.timeline := p75_timeline;
            Scenario.probability := "25% chance of exceeding this" |})].

(** The dictionary of [analyze_risk_drivers] *)
Module RiskDrivers.

Record t : Type := mk {
  cost_variability : Q;
  timeline_variability : Q;
  primary_drivers : list string;
  risk_level : string;
  confidence_80_percent : PyDict.t (Q * Q)
}.

End RiskDrivers.

Section RiskDriverAnalysis.

Variable pow_half : Q -> Q.



End RiskDriverAnalysis.

(** ** The program on binary64 numbers *)

(** Python's [float] is the IEEE 754 binary64 format with rounding to
    nearest, which the primitive type [float] implements. The definitions
    of this module repeat those of the timeline estimates
    ([src/project.py], [src/calculator.py]) and of [calculate_percentile]
    ([src/utils.py]) with the numbers and their operations replaced: [+],
    [*], [/], [<], [<=] and [==] are the operations and comparisons of
    binary64, [max] and [min] keep the first extremal element, [sum] adds
    from the left starting at zero, and [int] truncates toward zero. They
    serve to evaluate the program where rounding decides the result. *)

Module Binary64.

Local Open Scope float_scope.

(** [max(a, b)] and [min(a, b)]: [b] is taken only when it compares
    strictly greater, respectively smaller *)
Definition max2 (a b : float) : float := if PrimFloat.ltb a b then b else a.
Definition min2 (a b : float) : float := if PrimFloat.ltb b a then b else a.

Definition py_sum (xs : list float) : float := fold_left PrimFloat.add xs 0.
Definition py_max (x : float) (xs : list float) : float := fold_left max2 xs x.
Definition py_min (x : float) (xs : list float) : float := fold_left min2 xs x.

Definition max_or_zero (xs : list float) : float :=
  match xs with
  | [] => 0
  | x :: r => py_max x r
  end.

Definition py_max_by {A : Type} (key : A -> float) (x : A) (xs : list A) : A :=
  fold_left (fun best y => if PrimFloat.ltb (key best) (key y) then y else best)
            xs x.

(** [float(n)] for an integer [n] *)
Definition of_Z (n : Z) : float :=
  if (n <? 0)%Z then - PrimFloat.of_uint63 (Uint63.of_Z (- n))
  else PrimFloat.of_uint63 (Uint63.of_Z n).

(** [int(x)]: truncation toward zero *)
Definition py_int (x : float) : outcome Z :=
  match Prim2SF x with
  | S754_zero _ => Done 0%Z
  | S754_finite s m e =>
      let a := Z.shiftl (Zpos m) e in
      Done (if s then (- a)%Z else a)
  | S754_infinity _ =>
      Raised (OverflowError "cannot convert float infinity to integer")
  | S754_nan => Raised (ValueError "cannot convert float NaN to integer")
  end.

(** [Task] and [Project] with their constructors *)
Record Task : Type := mkTask {
  name : string;
  estimated_days : float;
  cost_per_day : float;
  dependencies : list string;
  task_id : string
}.

Definition Task_init (nm : string) (days cost : float) (deps : list string)
           (tid : option string) : Task :=
  {| name := nm;
     estimated_days := days;
     cost_per_day := cost;
     dependencies := deps;
     task_id := match tid with
                | Some i => i
                | None => PyStr.slice_to 20 (PyStr.replace_space (PyStr.lower nm))
                end |}.

Record Project : Type := mkProject {
  project_name : string;
  tasks : list Task;
  team_size : Z;
  risk_level : string;
  description : string
}.

Definition Project_init (nm : string) (ts : list Task) (size : Z)
           (risk : string) (descr : string) : outcome Project :=
  if (size <=? 0)%Z then
    Raised (ValueError "Team size must be at least 1")
  else
    match ts with
    | [] => Raised (ValueError "Project must have at least one task")
    | _ :: _ =>
        if negb (PyStr.mem (PyStr.lower risk) valid_risk_levels) then
          Raised (ValueError
                    "Risk level must be one of ['low', 'medium', 'high']")
        else
          Done {| project_name := nm;
                  tasks := ts;
                  team_size := size;
                  risk_level := PyStr.lower risk;
                  description := descr |}
    end.

Definition total_estimated_days (p : Project) : float :=
  py_sum (map estimated_days (tasks p)).

Definition task_count (p : Project) : Z := Z.of_nat (List.length (tasks p)).

Fixpoint find_task (ts : list Task) (tid : string) : option Task :=
  match ts with
  | [] => None
  | t :: r => if String.eqb (task_id t) tid then Some t else find_task r tid
  end.

Definition get_task_by_id (p : Project) (tid : string) : option Task :=
  find_task (tasks p) tid.

Definition get_risk_multiplier (risk : string) : float :=
  let r := PyStr.lower risk in
  if String.eqb r "low" then 1.1
  else if String.eqb r "medium" then 1.3
  else if String.eqb r "high" then 1.6
  else 1.3.

(** [calculate_percentile]; [len(sorted_values)] is converted to a float by
    the multiplication *)
Definition calculate_percentile (values : list float) (percentile : float)
  : outcome float :=
  match values with
  | [] => Done 0
  | _ :: _ =>
      let sorted_values := sorted_by PrimFloat.ltb values in
      let n := Z.of_nat (List.length sorted_values) in
      index <- py_int (of_Z n * (percentile / 100)) ;;
      let index := Z.min index (n - 1) in
      py_index sorted_values index
  end.

(** *** Critical path ([Project.get_critical_path]) *)

Record kahn_state : Type := mkKahn {
  in_degree : PyDict.t Z;
  earliest_start : PyDict.t float;
  queue : list string
}.

Definition relax (current_id : string) (current_task : option Task)
           (st : kahn_state) (task : Task) : outcome kahn_state :=
  if PyStr.mem current_id (dependencies task) then
    es_task <- PyDict.lookup (earliest_start st) (task_id task) ;;
    es_cur <- PyDict.lookup (earliest_start st) current_id ;;
    days <- attr current_task estimated_days ;;
    let es' := PyDict.set (earliest_start st) (task_id task)
                          (max2 es_task (es_cur + days)) in
    deg <- PyDict.lookup (in_degree st) (task_id task) ;;
    let deg' := (deg - 1)%Z in
    Done {| in_degree := PyDict.set (in_degree st) (task_id task) deg';
            earliest_start := es';
            queue := if (deg' =? 0)%Z then (queue st ++ [task_id task])%list
                     else queue st |}
  else Done st.

Fixpoint kahn_loop (fuel : nat) (p : Project) (st : kahn_state)
  : outcome kahn_state :=
  match queue st with
  | [] => Done st
  | current_id :: rest =>
      match fuel with
      | O => OutOfFuel
      | S f =>
          let current_task := get_task_by_id p current_id in
          st' <- foldM (relax current_id current_task) (tasks p)
                   {| in_degree := in_degree st;
                      earliest_start := earliest_start st;
                      queue := rest |} ;;
          kahn_loop f p st'
      end
  end.

Definition kahn_init (p : Project) : outcome kahn_state :=
  let in_deg := PyDict.comprehension task_id
                  (fun t => Z.of_nat (List.length (dependencies t))) (tasks p) in
  ready <- filterM (fun t => deg <- PyDict.lookup in_deg (task_id t) ;;
                             Done (deg =? 0)%Z) (tasks p) ;;
  Done {| in_degree := in_deg;
          earliest_start := PyDict.comprehension task_id (fun _ => 0) (tasks p);
          queue := map task_id ready |}.

Definition finish_key (p : Project) (es : PyDict.t float) (tid : string)
  : outcome float :=
  s <- PyDict.lookup es tid ;;
  d <- attr (get_task_by_id p tid) estimated_days ;;
  Done (s + d).

Fixpoint find_predecessor (p : Project) (es : PyDict.t float)
         (current_task : Task) (deps : list string) : outcome (option string) :=
  match deps with
  | [] => Done None
  | dep_id :: rest =>
      let dep_task := get_task_by_id p dep_id in
      es_dep <- PyDict.lookup es dep_id ;;
      days <- attr dep_task estimated_days ;;
      es_cur <- PyDict.lookup es (task_id current_task) ;;
      if PrimFloat.eqb (es_dep + days) es_cur then Done (Some dep_id)
      else find_predecessor p es current_task rest
  end.

Fixpoint backtrack (fuel : nat) (p : Project) (es : PyDict.t float)
         (current_id : option string) (critical_path : list Task)
  : outcome (list Task) :=
  match current_id with
  | None => Done critical_path
  | Some cid =>
      if String.eqb cid "" then Done critical_path
      else
        match fuel with
        | O => OutOfFuel
        | S f =>
            current_task <- attr (get_task_by_id p cid) (fun t => t) ;;
            let critical_path := current_task :: critical_path in
            match dependencies current_task with
            | [] => Done critical_path
            | deps =>
                next <- find_predecessor p es current_task deps ;;
                backtrack f p es next critical_path
            end
        end
  end.

Definition get_critical_path (fuel : nat) (p : Project) : outcome (list Task) :=
  st0 <- kahn_init p ;;
  st <- kahn_loop fuel p st0 ;;
  let es := earliest_start st in
  keyed <- mapM (fun tid => k <- finish_key p es tid ;; Done (tid, k))
             (PyDict.keys es) ;;
  match keyed with
  | [] => Raised (ValueError "max() arg is an empty sequence")
  | first :: others =>
      let end_task_id := fst (py_max_by snd first others) in
      backtrack fuel p es (Some end_task_id) []
  end.

(** *** Calculator and scheduler ([src/calculator.py]) *)

Definition risk_multiplier (p : Project) : float :=
  get_risk_multiplier (risk_level p).

Definition calculate_sequential_timeline (p : Project) : float :=
  total_estimated_days p * risk_multiplier p.

Definition dependency_start (finishes : PyDict.t float) (deps : list string)
  : float :=
  fold_left
    (fun earliest dep_id =>
       match PyDict.get finishes dep_id with
       | Some f => max2 earliest f
       | None => earliest
       end)
    deps 0.

Definition forward_step (acc : PyDict.t float * PyDict.t float) (task : Task)
  : PyDict.t float * PyDict.t float :=
  let '(task_start_times, task_finish_times) := acc in
  let earliest := dependency_start task_finish_times (dependencies task) in
  (PyDict.set task_start_times (task_id task) earliest,
   PyDict.set task_finish_times (task_id task)
              (earliest + estimated_days task)).

Definition forward_pass (ts : list Task) : PyDict.t float * PyDict.t float :=
  fold_left forward_step ts ([], []).

Definition Task_eqb (a b : Task) : bool :=
  String.eqb (name a) (name b)
  && PrimFloat.eqb (estimated_days a) (estimated_days b)
  && PrimFloat.eqb (cost_per_day a) (cost_per_day b)
  && (if list_eq_dec string_dec (dependencies a) (dependencies b)
      then true else false)
  && String.eqb (task_id a) (task_id b).

Fixpoint list_remove (x : Task) (l : list Task) : outcome (list Task) :=
  match l with
  | [] => Raised (ValueError "list.remove(x): x not in list")
  | y :: r =>
      if Task_eqb y x then Done r
      else r' <- list_remove x r ;; Done (y :: r')
  end.

Definition key_lt (a b : float * float) : bool :=
  PrimFloat.ltb (fst a) (fst b)
  || (PrimFloat.eqb (fst a) (fst b) && PrimFloat.ltb (snd a) (snd b)).

Definition sort_tasks (starts : PyDict.t float) (ts : list Task)
  : outcome (list Task) :=
  keyed <- mapM (fun t => s <- PyDict.lookup starts (task_id t) ;;
                          Done ((s, - estimated_days t), t)) ts ;;
  Done (map snd (sorted_by (fun a b => key_lt (fst a) (fst b)) keyed)).

Record sched_state : Type := mkSched {
  scheduled_start : PyDict.t float;
  scheduled_finish : PyDict.t float;
  active_tasks : list Task;
  current_time : float;
  remaining_tasks : list Task
}.

Definition deps_complete (finish : PyDict.t float) (now : float) (task : Task)
  : bool :=
  forallb
    (fun dep_id =>
       match PyDict.get finish dep_id with
       | Some f => PrimFloat.leb f now
       | None => false
       end)
    (dependencies task).

Definition start_task (st : sched_state) (task : Task) : outcome sched_state :=
  remaining <- list_remove task (remaining_tasks st) ;;
  Done {| scheduled_start :=
            PyDict.set (scheduled_start st) (task_id task) (current_time st);
          scheduled_finish :=
            PyDict.set (scheduled_finish st) (task_id task)
                       (current_time st + estimated_days task);
          active_tasks := (active_tasks st ++ [task])%list;
          current_time := current_time st;
          remaining_tasks := remaining |}.

Definition sched_iteration (size : Z) (st : sched_state)
  : outcome (clock_move * sched_state) :=
  active <- filterM
              (fun t => f <- PyDict.lookup (scheduled_finish st) (task_id t) ;;
                        Done (PrimFloat.ltb (current_time st) f))
              (active_tasks st) ;;
  let can_start :=
    filter (fun task =>
              deps_complete (scheduled_finish st) (current_time st) task
              && (Z.of_nat (List.length active) <? size)%Z)
           (remaining_tasks st) in
  st1 <- foldM start_task can_start
           {| scheduled_start := scheduled_start st;
              scheduled_finish := scheduled_finish st;
              active_tasks := active;
              current_time := current_time st;
              remaining_tasks := remaining_tasks st |} ;;
  let retime (now : float) :=
    {| scheduled_start := scheduled_start st1;
       scheduled_finish := scheduled_finish st1;
       active_tasks := active_tasks st1;
       current_time := now;
       remaining_tasks := remaining_tasks st1 |} in
  match active_tasks st1 with
  | _ :: _ =>
      finishes <- mapM (fun t => PyDict.lookup (scheduled_finish st1) (task_id t))
                    (active_tasks st1) ;;
      match finishes with
      | f :: fs => Done (NextCompletion, retime (py_min f fs))
      | [] => Raised (ValueError "min() arg is an empty sequence")
      end
  | [] =>
      match remaining_tasks st1 with
      | next_task :: _ =>
          match map (fun dep_id => PyDict.get_default (scheduled_finish st1) dep_id 0)
                    (dependencies next_task) with
          | f :: fs => Done (JumpToDependencies, retime (py_max f fs))
          | [] => Done (FixedIncrement, retime (current_time st1 + 0.1))
          end
      | [] => Done (Break, st1)
      end
  end.

Definition loop_condition (st : sched_state) : bool :=
  match remaining_tasks st, active_tasks st with
  | [], [] => false
  | _, _ => true
  end.

Fixpoint sched_loop (fuel : nat) (size : Z) (st : sched_state)
  : outcome sched_state :=
  if loop_condition st then
    match fuel with
    | O => OutOfFuel
    | S f =>
        r <- sched_iteration size st ;;
        match fst r with
        | Break => Done (snd r)
        | _ => sched_loop f size (snd r)
        end
    end
  else Done st.

Definition simulate_resource_constrained_schedule (fuel : nat) (p : Project)
  : outcome float :=
  let '(task_start_times, task_finish_times) := forward_pass (tasks p) in
  if (task_count p <=? team_size p)%Z then
    Done (max_or_zero (PyDict.values task_finish_times))
  else
    sorted_tasks <- sort_tasks task_start_times (tasks p) ;;
    st <- sched_loop fuel (team_size p)
            {| scheduled_start := [];
               scheduled_finish := [];
               active_tasks := [];
               current_time := 0;
               remaining_tasks := sorted_tasks |} ;;
    Done (max_or_zero (PyDict.values (scheduled_finish st))).

Definition calculate_parallel_timeline (fuel : nat) (p : Project)
  : outcome float :=
  match tasks p with
  | [] => Done 0
  | _ :: _ =>
      critical_path <- get_critical_path fuel p ;;
      let critical_path_duration := py_sum (map estimated_days critical_path) in
      timeline <- simulate_resource_constrained_schedule fuel p ;;
      let adjusted_timeline := timeline * risk_multiplier p in
      let min_timeline := critical_path_duration * risk_multiplier p in
      Done (max2 adjusted_timeline min_timeline)
  end.

End Binary64.

(** ** Notions used to state the properties *)

(** Characters of a string, for statements about its content *)
Fixpoint chars (s : string) : list ascii :=
  match s with
  | EmptyString => []
  | String c r => c :: chars r
  end.

(** [s.isascii()]: every character has a code below 128 *)
Definition isascii (s : string) : bool :=
  forallb (fun c => (nat_of_ascii c <? 128)%nat) (chars s).

(** Mathematical sum of a sequence *)
Fixpoint Qsum (xs : list Q) : Q :=
  match xs with
  | [] => 0
  | x :: r => x + Qsum r
  end.

(** Nearest-rank index as the specification words it: [floor(n * p / 100)]
    clamped to [[0, n - 1]]. *)
Definition clamp (lo hi x : Z) : Z := Z.max lo (Z.min hi x).

Definition nearest_rank_index (n : nat) (p : Q) : Z :=
  clamp 0 (Z.of_nat n - 1) (Qfloor (inject_Z (Z.of_nat n) * p / 100)).

(** The maximum dependency-respecting finish time as the specification
    words it: a task finishes at the maximum of its dependencies' finish
    times plus its own duration (an unresolved dependency counts as
    finished at zero), and the project at the maximum over its tasks.
    [fuel] bounds the length of the dependency chains followed. *)
Fixpoint spec_finish (fuel : nat) (ts : list Task) (tid : string) : Q :=
  match fuel with
  | O => 0
  | S f =>
      match find_task ts tid with
      | None => 0
      | Some t =>
          fold_left Qmax (map (spec_finish f ts) (dependencies t)) 0
          + estimated_days t
      end
  end.

Definition spec_project_finish (p : Project) : Q :=
  max_or_zero
    (map (fun t => spec_finish (List.length (tasks p)) (tasks p) (task_id t))
         (tasks p)).

(** The six insertion orders of three tasks *)
Definition orders_of_three (a b c : Task) : list (list Task) :=
  [[a; b; c]; [a; c; b]; [b; a; c]; [b; c; a]; [c; a; b]; [c; b; a]].

(** An outcome that did not run out of fuel *)
Definition settled {A : Type} (o : outcome A) : Prop := o <> OutOfFuel.

(** The dependency graph as a relation: [edge g u v] when the graph records
    [v] among the dependencies of [u]; [reach] is a path of at least one
    edge, and the graph contains a cycle when some node reaches itself. *)
Definition edge (g : PyDict.t (list string)) (u v : string) : Prop :=
  In v (PyDict.get_default g u []).

Inductive reach (g : PyDict.t (list string)) : string -> string -> Prop :=
| reach_edge u v : edge g u v -> reach g u v
| reach_step u v w : edge g u v -> reach g v w -> reach g u w.

Definition cyclic (g : PyDict.t (list string)) : Prop :=
  exists u, reach g u u.

(** A project's graph contains a cycle; every dependency id resolves *)
Definition has_cycle_in (p : Project) : Prop := cyclic (dependency_graph p).

Definition all_resolve (p : Project) : Prop :=
  forall t d, In t (tasks p) -> In d (dependencies t) ->
              In d (map task_id (tasks p)).

(** The missing references of a project: the pairs of a task and one of
    its declared dependency ids that no task has, in declaration order. *)
Definition missing_references (p : Project) : list (Task * string) :=
  flat_map
    (fun t =>
       map (fun d => (t, d))
           (filter (fun d => negb (PyStr.mem d (map task_id (tasks p))))
                   (dependencies t)))
    (tasks p).

(** Nodes the traversal has left: visited and no longer on the stack *)
Definition black (st : dfs_state) (x : string) : Prop :=
  In x (visited st) /\ ~ In x (rec_stack st).

(** What the traversal maintains: the stack is visited, the nodes it has
    left are closed under the edges and lie on no cycle. *)
Definition dfs_inv (g : PyDict.t (list string)) (st : dfs_state) : Prop :=
  (forall x, In x (rec_stack st) -> In x (visited st))
  /\ (forall b v, black st b -> edge g b v -> black st v)
  /\ (forall b, black st b -> ~ reach g b b).

(** Number of keys of the graph not yet visited *)
Definition unvisited (g : PyDict.t (list string)) (st : dfs_state) : nat :=
  List.length (filter (fun k => negb (PyStr.mem k (visited st)))
                      (PyDict.keys g)).

(** What a call of the visitor ensures, started on an unvisited node *)
Definition returns_false (g : PyDict.t (list string)) (st st' : dfs_state)
           (node : string) : Prop :=
  (forall x, In x (visited st) -> In x (visited st'))
  /\ In node (visited st')
  /\ (forall x, In x (rec_stack st') <-> In x (rec_stack st))
  /\ dfs_inv g st'.

Definition visit_ok (g : PyDict.t (list string))
           (visit : string -> dfs_state -> outcome (bool * dfs_state))
           (budget : nat) : Prop :=
  forall node st,
    ~ In node (visited st) ->
    dfs_inv g st ->
    (forall x, In x (rec_stack st) -> reach g x node) ->
    (unvisited g st < budget)%nat ->
    match visit node st with
    | Done (false, st') => returns_false g st st' node
    | Done (true, _) => cyclic g
    | _ => False
    end.

(** The data-model invariant on durations, which construction leaves
    unchecked *)
Definition positive_durations (p : Project) : Prop :=
  forall t, In t (tasks p) -> 0 < estimated_days t.

(** Sum of the durations of a list of tasks *)
Definition days_of (ts : list Task) : Q := Qsum (map estimated_days ts).

(** What the simulation loop maintains, for the total [D] of all durations:
    the clock and every recorded finish time are at most the durations of
    the tasks already started. *)
Definition sched_bound (D : Q) (st : sched_state) : Prop :=
  (forall t, In t (remaining_tasks st) -> 0 <= estimated_days t)
  /\ 0 <= D - days_of (remaining_tasks st)
  /\ current_time st <= D - days_of (remaining_tasks st)
  /\ (forall v, In v (PyDict.values (scheduled_finish st)) ->
                v <= D - days_of (remaining_tasks st)).

(** Order of two ids by their earliest start times; a task that
    [get_task_by_id] returns for its own id *)
Definition es_lt (es : PyDict.t Q) (a b : string) : Prop :=
  exists x y, PyDict.get es a = Some x /\ PyDict.get es b = Some y /\ x < y.

Definition found_by_id (ts : list Task) (t : Task) : Prop :=
  find_task ts (task_id t) = Some t.

(** A path of the graph listed by the nodes it enters *)
Inductive chain (g : PyDict.t (list string)) : string -> list string -> Prop :=
| chain_nil u : chain g u []
| chain_cons u v l : edge g u v -> chain g v l -> chain g u (v :: l).

(** A project as the data model wants it: unique task ids, dependencies
    that resolve, no cycle, positive durations, a team of at least one *)
Definition well_formed (p : Project) : Prop :=
  NoDup (map task_id (tasks p))
  /\ all_resolve p
  /\ ~ has_cycle_in p
  /\ positive_durations p
  /\ (1 <= team_size p)%Z.

(** Recorded finish time of a task; the active tasks still running at the
    current time; the measure that every iteration of the simulation loop
    decreases *)
Definition finish_of (st : sched_state) (t : Task) : Q :=
  PyDict.get_default (scheduled_finish st) (task_id t) 0.

Definition running (st : sched_state) : list Task :=
  filter (fun a => Qlt_bool (current_time st) (finish_of st a))
         (active_tasks st).

Definition sched_measure (st : sched_state) : nat :=
  2 * List.length (remaining_tasks st) + List.length (running st).

(** What the simulation loop maintains on a well-formed project: the
    remaining tasks are exactly the tasks without a recorded finish time,
    the active tasks have one, and a started task that is no longer active
    has finished by the current time. *)
Definition sched_wf (p : Project) (st : sched_state) : Prop :=
  NoDup (remaining_tasks st)
  /\ incl (remaining_tasks st) (tasks p)
  /\ incl (active_tasks st) (tasks p)
  /\ (forall t, In t (tasks p) ->
                (In t (remaining_tasks st)
                 <-> PyDict.get (scheduled_finish st) (task_id t) = None))
  /\ (forall t f, In t (tasks p) ->
                  PyDict.get (scheduled_finish st) (task_id t) = Some f ->
                  In t (active_tasks st) \/ f <= current_time st)
  /\ (forall t, In t (active_tasks st) ->
                PyDict.get (scheduled_finish st) (task_id t) <> None).

(** What the queue loop of the critical path maintains, and the potential
    that every iteration of it decreases: queued ids plus in-degree
    entries that are still positive *)
Definition positive_entries (d : PyDict.t Z) : nat :=
  List.length (filter (fun kv => (0 <? snd kv)%Z) d).

Definition kahn_potential (st : kahn_state) : nat :=
  (List.length (queue st) + positive_entries (in_degree st))%nat.

Definition kahn_inv (p : Project) (st : kahn_state) : Prop :=
  (forall t, In t (tasks p) ->
             PyDict.get (in_degree st) (task_id t) <> None)
  /\ (forall t, In t (tasks p) ->
                PyDict.get (earliest_start st) (task_id t) <> None)
  /\ (forall k, In k (PyDict.keys (earliest_start st)) ->
                In k (map task_id (tasks p)))
  /\ (forall k, In k (queue st) -> In k (map task_id (tasks p))).

(** Insertion order that respects the dependencies: every declared
    dependency that resolves to a task is the id of a task inserted
    earlier. *)
Definition inserted_after_dependencies (ts : list Task) : Prop :=
  forall prefix t suffix,
    ts = (prefix ++ t :: suffix)%list ->
    forall d, In d (dependencies t) -> In d (map task_id ts) ->
              In d (map task_id prefix).

(** A list of tasks in which every task declares the id of the one before
    it among its dependencies *)
Fixpoint dependency_chain (l : list Task) : Prop :=
  match l with
  | [] => True
  | a :: r =>
      match r with
      | [] => True
      | b :: _ => In (task_id a) (dependencies b) /\ dependency_chain r
      end
  end.

(** What the simulation loop maintains towards the lower bound of the
    schedule: the clock and the recorded finish times are not negative, the
    remaining tasks are tasks of the project, and every task of the project
    either remains or has a recorded finish time of at least its own
    duration. *)
Definition sched_cover (p : Project) (st : sched_state) : Prop :=
  0 <= current_time st
  /\ (forall v, In v (PyDict.values (scheduled_finish st)) -> 0 <= v)
  /\ incl (remaining_tasks st) (tasks p)
  /\ (forall t, In t (tasks p) ->
                In t (remaining_tasks st)
                \/ exists f, PyDict.get (scheduled_finish st) (task_id t) = Some f
                             /\ estimated_days t <= f).

(** Notions for the earliest start times that the queue loop of
    [get_critical_path] computes. [P] lists the ids already taken from the
    queue. The dependencies of a task that are not in [P] are pending; the
    recorded start of a task is right with respect to [P] when it is not
    negative, covers the finish of every dependency in [P], and is zero or
    the finish of one of them. *)
Definition pending (P : list string) (t : Task) : list string :=
  filter (fun d => negb (PyStr.mem d P)) (dependencies t).

Definition es_ok (p : Project) (P : list string) (es : PyDict.t Q) (t : Task)
  : Prop :=
  exists s,
    PyDict.get es (task_id t) = Some s
    /\ 0 <= s
    /\ (forall d u, In d (dependencies t) -> In d P ->
                    find_task (tasks p) d = Some u ->
                    exists sd, PyDict.get es d = Some sd
                               /\ sd + estimated_days u <= s)
    /\ (s == 0
        \/ exists d u sd,
            In d (dependencies t) /\ In d P
            /\ find_task (tasks p) d = Some u
            /\ PyDict.get es d = Some sd
            /\ s == sd + estimated_days u).

Definition task_ok (p : Project) (P : list string) (st : kahn_state) (t : Task)
  : Prop :=
  PyDict.get (in_degree st) (task_id t)
  = Some (Z.of_nat (List.length (pending P t)))
  /\ es_ok p P (earliest_start st) t.

(** A task is in the queue or processed exactly when nothing is pending *)
Definition queued (P q : list string) (t : Task) : Prop :=
  pending P t = [] <-> In (task_id t) (q ++ P)%list.

(** What the queue loop maintains between two iterations, and inside the
    loop over the tasks while [cur] is being processed and the tasks of
    [rest] are still to be looked at *)
Definition kahn_sem (p : Project) (P : list string) (st : kahn_state) : Prop :=
  NoDup (queue st ++ P)%list
  /\ (forall k, In k (queue st ++ P)%list -> In k (map task_id (tasks p)))
  /\ (forall t, In t (tasks p) -> task_ok p P st t /\ queued P (queue st) t).

Definition relax_sem (p : Project) (cur : string) (P : list string)
           (rest : list Task) (st : kahn_state) : Prop :=
  NoDup (queue st ++ cur :: P)%list
  /\ (forall k, In k (queue st ++ cur :: P)%list ->
                In k (map task_id (tasks p)))
  /\ (forall t, In t (tasks p) ->
        ((In t rest /\ In cur (dependencies t)) ->
         task_ok p P st t /\ ~ In (task_id t) (queue st ++ cur :: P)%list)
        /\ (~ (In t rest /\ In cur (dependencies t)) ->
            task_ok p (cur :: P) st t /\ queued (cur :: P) (queue st) t)).

(** The earliest start times once every task has been processed: each
    start covers the finish of every dependency and is zero or the finish
    of one of them. *)
Definition es_closed (p : Project) (es : PyDict.t Q) : Prop :=
  forall t, In t (tasks p) ->
    exists s,
      PyDict.get es (task_id t) = Some s
      /\ 0 <= s
      /\ (forall d u, In d (dependencies t) ->
                      find_task (tasks p) d = Some u ->
                      exists sd, PyDict.get es d = Some sd
                                 /\ sd + estimated_days u <= s)
      /\ (s == 0
          \/ exists d u sd,
              In d (dependencies t)
              /\ find_task (tasks p) d = Some u
              /\ PyDict.get es d = Some sd
              /\ s == sd + estimated_days u).

(** * Properties *)

(** ** Strings, membership and outcomes *)

Lemma mem_In x xs : PyStr.mem x xs = true <-> In x xs.
Proof.
  unfold PyStr.mem. rewrite existsb_exists. split.
  - intros [y [Hy He]]. apply String.eqb_eq in He. now subst.
  - intros H. exists x. split; [assumption | apply String.eqb_refl].
Qed.

Lemma mem_not_In x xs : PyStr.mem x xs = false <-> ~ In x xs.
Proof.
  rewrite <- mem_In. destruct (PyStr.mem x xs); split; intros; congruence.
Qed.

Lemma slice_to_length n s : (String.length (PyStr.slice_to n s) <= n)%nat.
Proof.
  unfold PyStr.slice_to. revert s.
  induction n as [|n IH]; intros [|c s]; simpl; try lia.
  specialize (IH s). lia.
Qed.

Lemma slice_to_min n s :
  String.length (PyStr.slice_to n s) = Nat.min n (String.length s).
Proof.
  unfold PyStr.slice_to. revert s.
  induction n as [|n IH]; intros [|c s]; simpl; try reflexivity.
  now rewrite IH.
Qed.

Lemma lower_length s : String.length (PyStr.lower s) = String.length s.
Proof. induction s; simpl; congruence. Qed.

Lemma replace_space_length s :
  String.length (PyStr.replace_space s) = String.length s.
Proof. induction s; simpl; congruence. Qed.

Lemma chars_slice_to n s c :
  In c (chars (PyStr.slice_to n s)) -> In c (chars s).
Proof.
  unfold PyStr.slice_to. revert s.
  induction n as [|n IH]; intros [|a s]; simpl; try tauto.
  intros [H | H]; [now left | right; now apply IH].
Qed.

Lemma chars_replace_space s : ~ In " "%char (chars (PyStr.replace_space s)).
Proof.
  induction s as [|a s IH]; simpl; [tauto|].
  intros [H | H]; [|now apply IH].
  destruct (Ascii.eqb a " "%char) eqn:E.
  - discriminate H.
  - subst a. now rewrite Ascii.eqb_refl in E.
Qed.

(** ** Construction of tasks and projects *)

Lemma Project_init_done nm ts size risk d p :
  Project_init nm ts size risk d = Done p ->
  (1 <= size)%Z /\ ts <> [] /\ In (PyStr.lower risk) valid_risk_levels
  /\ p = mkProject nm ts size (PyStr.lower risk) d.
Proof.
  unfold Project_init.
  destruct (size <=? 0)%Z eqn:Hs; [discriminate|].
  destruct ts as [|t ts]; [discriminate|].
  destruct (PyStr.mem (PyStr.lower risk) valid_risk_levels) eqn:Hr;
    simpl; [|discriminate].
  intros H; inversion H; subst; clear H.
  apply Z.leb_gt in Hs. apply mem_In in Hr.
  repeat split; [lia | discriminate | exact Hr].
Qed.

Lemma Project_init_raises nm ts size risk d :
  (exists msg, Project_init nm ts size risk d = Raised (ValueError msg))
  <-> ((size <= 0)%Z \/ ts = []
       \/ ~ In (PyStr.lower risk) valid_risk_levels).
Proof.
  unfold Project_init. split.
  - intros [msg H].
    destruct (size <=? 0)%Z eqn:Hs; [left; now apply Z.leb_le|].
    destruct ts as [|t ts]; [right; now left|].
    destruct (PyStr.mem (PyStr.lower risk) valid_risk_levels) eqn:Hr;
      simpl in H; [discriminate|].
    right; right. now apply mem_not_In.
  - intros H.
    destruct (size <=? 0)%Z eqn:Hs; [eexists; reflexivity|].
    destruct ts as [|t ts]; [eexists; reflexivity|].
    destruct (PyStr.mem (PyStr.lower risk) valid_risk_levels) eqn:Hr;
      simpl; [|eexists; reflexivity].
    apply Z.leb_gt in Hs. apply mem_In in Hr.
    destruct H as [H | [H | H]]; [lia | discriminate | contradiction].
Qed.

(** C1 (as amended). Constructing a Project with a non-positive team size,
    an empty task list, or a risk level whose lowercase form is not one of
    low, medium, high raises ValueError and returns no Project; in every
    other case the Project is returned with team_size >= 1, a non-empty
    task list and the risk level normalised to lowercase within the valid
    set. Constructing a Task never fails and stores estimated_days and
    cost_per_day exactly as given: no range check is applied to them. *)
Theorem construction_errors :
  (forall nm ts size risk d,
      ((exists msg, Project_init nm ts size risk d = Raised (ValueError msg))
       <-> ((size <= 0)%Z \/ ts = []
            \/ ~ In (PyStr.lower risk) valid_risk_levels))
      /\ ((exists p, Project_init nm ts size risk d = Done p)
          <-> ~ ((size <= 0)%Z \/ ts = []
                 \/ ~ In (PyStr.lower risk) valid_risk_levels))
      /\ (forall p, Project_init nm ts size risk d = Done p ->
                    (1 <= team_size p)%Z /\ tasks p = ts /\ tasks p <> []
                    /\ risk_level p = PyStr.lower risk
                    /\ In (risk_level p) valid_risk_levels))
  /\ (forall nm days cost deps tid,
         estimated_days (Task_init nm days cost deps tid) = days
         /\ cost_per_day (Task_init nm days cost deps tid) = cost
         /\ name (Task_init nm days cost deps tid) = nm
         /\ dependencies (Task_init nm days cost deps tid) = deps).
Proof.
  split.
  - intros nm ts size risk d. split; [apply Project_init_raises|]. split.
    + rewrite <- Project_init_raises. split.
      * intros [p Hp] [msg Hm]. rewrite Hp in Hm. discriminate Hm.
      * intros Hn. destruct (Project_init nm ts size risk d) as [p|e|] eqn:E.
        -- now exists p.
        -- exfalso. apply Hn. unfold Project_init in E.
           destruct (size <=? 0)%Z; [inversion E; eauto|].
           destruct ts; [inversion E; eauto|].
           destruct (negb _); inversion E; eauto.
        -- exfalso. unfold Project_init in E.
           destruct (size <=? 0)%Z; [discriminate|].
           destruct ts; [discriminate|].
           destruct (negb _); discriminate.
    + intros p Hp. apply Project_init_done in Hp.
      destruct Hp as (H1 & H2 & H3 & ->). simpl. tauto.
  - intros. repeat split.
Qed.

(** C1, counterexample. A Task with a negative duration and a zero daily
    cost is constructed, so it is not the case that every constructed Task
    has estimated_days > 0 and cost_per_day > 0. *)
Lemma task_constructed_with_nonpositive_numbers :
  exists t : Task,
    t = Task_init "A" (-1) 0 [] None
    /\ ~ (0 < estimated_days t) /\ ~ (0 < cost_per_day t).
Proof.
  eexists. split; [reflexivity|]. simpl. split; intros H; now inversion H.
Qed.

(** C9 (as amended). When no task_id is supplied and the name is a string
    of ASCII characters, the task_id is the name lowercased, with spaces
    replaced by underscores, cut to its first 20 characters: it has
    min(20, length of the name) characters, none of them a space; a
    supplied task_id is kept as given. Project construction does not
    compare task_ids: a task list holding the same task twice is accepted
    unchanged exactly when the team size and the risk level are valid. *)
Theorem task_id_derivation :
  (forall nm days cost deps,
      isascii nm = true ->
      let tid := task_id (Task_init nm days cost deps None) in
      tid = PyStr.slice_to 20 (PyStr.replace_space (PyStr.lower nm))
      /\ String.length tid = Nat.min 20 (String.length nm)
      /\ ~ In " "%char (chars tid))
  /\ (forall nm days cost deps i,
         task_id (Task_init nm days cost deps (Some i)) = i)
  /\ (forall nm t ts size risk d,
         Project_init nm (t :: t :: ts) size risk d
         = Done (mkProject nm (t :: t :: ts) size (PyStr.lower risk) d)
         <-> ((1 <= size)%Z /\ In (PyStr.lower risk) valid_risk_levels)).
Proof.
  split; [|split].
  - intros nm days cost deps _ tid. subst tid. simpl. repeat split.
    + now rewrite slice_to_min, replace_space_length, lower_length.
    + intros H. apply chars_slice_to in H.
      revert H. apply chars_replace_space.
  - reflexivity.
  - intros nm t ts size risk d. split.
    + intros H. apply Project_init_done in H. tauto.
    + intros [Hs Hr]. unfold Project_init.
      destruct (size <=? 0)%Z eqn:E; [apply Z.leb_le in E; lia|].
      apply mem_In in Hr. now rewrite Hr.
Qed.

(** C9, counterexample. Two tasks named "Build" and "build" both get the
    task_id "build", and the Project holding them is constructed. *)
Lemma project_with_duplicate_task_ids :
  exists p : Project,
    Project_init "P" [Task_init "Build" 1 1 [] None;
                      Task_init "build" 2 1 [] None] 1 "low" "" = Done p
    /\ ~ NoDup (map task_id (tasks p)).
Proof.
  eexists. split; [reflexivity|]. simpl.
  intros H. inversion H as [|x l Hn _]; subst. apply Hn. now left.
Qed.

(** ** Sorting and percentiles *)

Lemma Qlt_bool_iff x y : Qlt_bool x y = true <-> x < y.
Proof.
  unfold Qlt_bool. rewrite negb_true_iff. split.
  - intros H. apply Qnot_le_lt. intros Hle.
    apply Qle_bool_iff in Hle. congruence.
  - intros H. destruct (Qle_bool y x) eqn:E; [|reflexivity].
    apply Qle_bool_iff in E. exfalso. now apply (Qlt_not_le x y).
Qed.

Lemma Qlt_bool_false x y : Qlt_bool x y = false <-> y <= x.
Proof.
  unfold Qlt_bool. rewrite negb_false_iff. apply Qle_bool_iff.
Qed.

Section StableSort.

Context {A : Type} (lt : A -> A -> bool).

Lemma insert_sorted_perm x l : Permutation (insert_sorted lt x l) (x :: l).
Proof.
  induction l as [|y r IH]; simpl; [reflexivity|].
  destruct (lt y x); [|reflexivity].
  rewrite IH. apply perm_swap.
Qed.

Lemma sorted_by_perm l : Permutation (sorted_by lt l) l.
Proof.
  induction l as [|x r IH]; simpl; [reflexivity|].
  rewrite insert_sorted_perm. now constructor.
Qed.

Lemma sorted_by_length l : List.length (sorted_by lt l) = List.length l.
Proof. apply Permutation_length, sorted_by_perm. Qed.

End StableSort.

Lemma insert_sorted_Qle x l :
  StronglySorted Qle l -> StronglySorted Qle (insert_sorted Qlt_bool x l).
Proof.
  induction l as [|y r IH]; simpl; intros Hs.
  - repeat constructor.
  - apply StronglySorted_inv in Hs. destruct Hs as [Hr Hy].
    destruct (Qlt_bool y x) eqn:E.
    + constructor; [now apply IH|].
      apply (Permutation_Forall (x := x :: r)).
      * symmetry. apply insert_sorted_perm.
      * constructor; [|assumption].
        apply Qlt_le_weak. now apply Qlt_bool_iff.
    + apply Qlt_bool_false in E.
      constructor; [now constructor|].
      constructor; [assumption|].
      eapply Forall_impl; [|exact Hy].
      intros z Hz. now apply Qle_trans with y.
Qed.

Lemma sorted_by_Qle l : StronglySorted Qle (sorted_by Qlt_bool l).
Proof.
  induction l as [|x r IH]; simpl; [constructor|].
  now apply insert_sorted_Qle.
Qed.

Lemma py_index_in_range {A} (xs : list A) (i : Z) :
  (0 <= i < Z.of_nat (List.length xs))%Z ->
  exists x, py_index xs i = Done x /\ nth_error xs (Z.to_nat i) = Some x.
Proof.
  intros [Hlo Hhi]. unfold py_index.
  destruct (i <? 0)%Z eqn:E1; [apply Z.ltb_lt in E1; lia|].
  rewrite E1. simpl.
  destruct (Z.of_nat (List.length xs) <=? i)%Z eqn:E2;
    [apply Z.leb_le in E2; lia|].
  destruct (nth_error xs (Z.to_nat i)) as [x|] eqn:E3.
  - now exists x.
  - apply nth_error_None in E3. lia.
Qed.

Lemma py_int_nonneg x : 0 <= x -> py_int x = Qfloor x.
Proof.
  destruct x as [n d]. unfold Qle, py_int, Qfloor. simpl. intros H.
  apply Z.quot_div_nonneg; lia.
Qed.



Lemma percentile_index (v : Q) (vs : list Q) (p : Q) :
  0 <= p ->
  let n := List.length (v :: vs) in
  Z.min (py_int (inject_Z (Z.of_nat n) * (p / 100))) (Z.of_nat n - 1)
  = nearest_rank_index n p
  /\ (0 <= nearest_rank_index n p < Z.of_nat n)%Z.
Proof.
  intros Hp n.
  assert (Hn : (1 <= Z.of_nat n)%Z) by (subst n; simpl List.length; lia).
  assert (Hx : 0 <= inject_Z (Z.of_nat n) * (p / 100)).
  { apply Qmult_le_0_compat.
    - change 0 with (inject_Z 0). rewrite <- Zle_Qle. lia.
    - apply Qle_shift_div_l; [reflexivity|]. now rewrite Qmult_0_l. }
  rewrite (py_int_nonneg _ Hx).
  assert (Hf : Qfloor (inject_Z (Z.of_nat n) * (p / 100))
               = Qfloor (inject_Z (Z.of_nat n) * p / 100)).
  { apply Qfloor_comp. field. }
  assert (H0 : (0 <= Qfloor (inject_Z (Z.of_nat n) * (p / 100)))%Z).
  { change 0%Z with (Qfloor 0). now apply Qfloor_resp_le. }
  unfold nearest_rank_index, clamp. rewrite <- Hf. lia.
Qed.



(** Outside the documented range the index is not clamped at 0: a negative
    percentile reaches Python's indexing from the end of the list. *)
Lemma percentile_negative_index :
  calculate_percentile [3; 1; 2; 5; 4] (-50) = Done 4.
Proof. reflexivity. Qed.

(** ** Statistics of an empty series *)


(** ** Dictionaries *)

Section DictFacts.

Context {V : Type}.
Implicit Types (d : PyDict.t V) (k : string) (v : V).

Lemma get_set_same d k v : PyDict.get (PyDict.set d k v) k = Some v.
Proof.
  induction d as [|[k' v'] r IH]; simpl.
  - now rewrite String.eqb_refl.
  - destruct (String.eqb k k') eqn:E; simpl; rewrite E; [reflexivity|exact IH].
Qed.

Lemma get_set_other d k k' v :
  k <> k' -> PyDict.get (PyDict.set d k v) k' = PyDict.get d k'.
Proof.
  intros Hne. induction d as [|[k0 v0] r IH]; simpl.
  - destruct (String.eqb k' k) eqn:E; [|reflexivity].
    apply String.eqb_eq in E. congruence.
  - destruct (String.eqb k k0) eqn:E; simpl.
    + apply String.eqb_eq in E. subst k0.
      destruct (String.eqb k' k) eqn:E'; [|reflexivity].
      apply String.eqb_eq in E'. congruence.
    + now rewrite IH.
Qed.

Lemma get_set d k k' v :
  PyDict.get (PyDict.set d k v) k'
  = if String.eqb k' k then Some v else PyDict.get d k'.
Proof.
  destruct (String.eqb k' k) eqn:E.
  - apply String.eqb_eq in E. subst. apply get_set_same.
  - apply get_set_other. intros ->. now rewrite String.eqb_refl in E.
Qed.

Lemma contains_set d k k' v :
  PyDict.contains (PyDict.set d k v) k'
  = (String.eqb k' k || PyDict.contains d k').
Proof.
  unfold PyDict.contains. rewrite get_set.
  now destruct (String.eqb k' k).
Qed.

Lemma keys_set_In d k v k' :
  In k' (PyDict.keys (PyDict.set d k v)) <-> k' = k \/ In k' (PyDict.keys d).
Proof.
  unfold PyDict.keys. induction d as [|[k0 v0] r IH]; simpl.
  - intuition congruence.
  - destruct (String.eqb k k0) eqn:E; simpl.
    + apply String.eqb_eq in E. subst. intuition congruence.
    + rewrite IH. intuition congruence.
Qed.

Lemma contains_keys d k : PyDict.contains d k = true <-> In k (PyDict.keys d).
Proof.
  unfold PyDict.contains, PyDict.keys.
  induction d as [|[k0 v0] r IH]; simpl; [intuition congruence|].
  destruct (String.eqb k k0) eqn:E.
  - apply String.eqb_eq in E. subst. intuition.
  - rewrite IH. split; [tauto|]. intros [H | H]; [|exact H].
    subst. now rewrite String.eqb_refl in E.
Qed.

End DictFacts.

(** ** Length of the simulated series *)

Section SimulatorFacts.

Variable rng : Type.
Variable uniform : Q -> Q -> rng -> Q * rng.
Variable gauss : Q -> Q -> rng -> Q * rng.

Lemma simulate_task_keys p acc task k :
  PyDict.contains (snd (fst (simulate_task rng uniform p acc task))) k
  = (String.eqb k (task_id task) || PyDict.contains (snd (fst acc)) k).
Proof.
  destruct acc as [[c d] g]. unfold simulate_task.
  destruct (uniform _ _ g) as [cm g1].
  destruct (uniform _ _ g1) as [tm g2]. simpl.
  apply contains_set.
Qed.

Lemma simulate_tasks_keys p ts : forall acc,
  (forall k, PyDict.contains (snd (fst acc)) k = true ->
             PyDict.contains
               (snd (fst (fold_left (simulate_task rng uniform p) ts acc))) k
             = true)
  /\ (forall t, In t ts ->
                PyDict.contains
                  (snd (fst (fold_left (simulate_task rng uniform p) ts acc)))
                  (task_id t) = true).
Proof.
  induction ts as [|t ts IH]; intros acc; simpl.
  - split; [auto | contradiction].
  - destruct (IH (simulate_task rng uniform p acc t)) as [IH1 IH2]. split.
    + intros k Hk. apply IH1. rewrite simulate_task_keys, Hk.
      apply orb_true_r.
    + intros t' [<- | Hin]; [|now apply IH2].
      apply IH1. rewrite simulate_task_keys, String.eqb_refl. reflexivity.
Qed.

Lemma finish_times_done (durations : PyDict.t Q) ts : forall finishes,
  (forall t, In t ts -> PyDict.contains durations (task_id t) = true) ->
  exists fin,
    foldM (fun finishes task =>
             let earliest := dependency_start finishes (dependencies task) in
             d <- PyDict.lookup durations (task_id task) ;;
             Done (PyDict.set finishes (task_id task) (earliest + d)))
          ts finishes = Done fin.
Proof.
  induction ts as [|t ts IH]; intros finishes Hk; simpl.
  - now exists finishes.
  - assert (Ht := Hk t (or_introl eq_refl)).
    unfold PyDict.contains in Ht. unfold PyDict.lookup.
    destruct (PyDict.get durations (task_id t)) as [d|]; [|discriminate].
    simpl. apply IH. intros t' Hin. apply Hk. now right.
Qed.

Lemma scenario_timeline_done p durations g :
  (0 < team_size p)%Z ->
  (forall t, In t (tasks p) -> PyDict.contains durations (task_id t) = true) ->
  exists r, calculate_scenario_timeline rng uniform p durations g = Done r.
Proof.
  intros Hsize Hk. unfold calculate_scenario_timeline.
  destruct (finish_times_done durations (tasks p) [] Hk) as [fin Hfin].
  cbv zeta in Hfin. rewrite Hfin.
  simpl. destruct (team_size p <? task_count p)%Z; [|eauto].
  unfold py_div.
  destruct (Qeq_bool (inject_Z (team_size p)) 0) eqn:E.
  - apply Qeq_bool_iff in E. unfold Qeq in E. simpl in E. lia.
  - simpl. destruct (uniform _ _ g) as [j g']. eauto.
Qed.

Lemma single_scenario_done p g :
  (0 < team_size p)%Z ->
  exists r, simulate_single_scenario rng uniform gauss p g = Done r.
Proof.
  intros Hsize. unfold simulate_single_scenario.
  destruct (simulate_tasks_keys p (tasks p) (0, [], g)) as [_ Hk].
  destruct (fold_left (simulate_task rng uniform p) (tasks p) (0, [], g))
    as [[c d] g1]. simpl in Hk.
  destruct (scenario_timeline_done p d g1 Hsize Hk) as [[tl g2] ->].
  simpl. unfold get_risk_factor.
  destruct (gauss _ _ g2) as [v g3]. eauto.
Qed.

Lemma simulation_loop_lengths p (Hsize : (0 < team_size p)%Z) n :
  forall cs ts g,
  exists cs' ts' g',
    simulation_loop rng uniform gauss n p cs ts g = Done (cs', ts', g')
    /\ List.length cs' = (List.length cs + n)%nat
    /\ List.length ts' = (List.length ts + n)%nat.
Proof.
  induction n as [|n IH]; intros cs ts g; simpl.
  - exists cs, ts, g. repeat split; lia.
  - destruct (single_scenario_done p g Hsize) as [[[c t] g1] ->]. simpl.
    destruct (IH (cs ++ [c])%list (ts ++ [t])%list g1)
      as (cs' & ts' & g' & -> & Hc & Ht).
    exists cs', ts', g'. rewrite Hc, Ht, !length_app. simpl.
    repeat split; lia.
Qed.

(** C8. For every Project (team size at least 1, as construction ensures)
    and every requested iteration count n, the simulation returns a result
    whose costs and timelines both have length max(100, n), one entry of
    each per trial, and whose iteration count is max(100, n): a request
    below 100 is raised to 100, not rejected. *)
Theorem simulation_series_length (p : Project) (n : Z) (g : rng) :
  (0 < team_size p)%Z ->
  exists r g',
    run_simulation rng uniform gauss (RiskSimulator_init p n) g = Done (r, g')
    /\ List.length (costs r) = Z.to_nat (Z.max 100 n)
    /\ List.length (timelines r) = Z.to_nat (Z.max 100 n)
    /\ iterations r = Z.max 100 n
    /\ (n < 100 -> iterations r = 100)%Z.
Proof.
  intros Hsize. unfold run_simulation, RiskSimulator_init. simpl.
  destruct (simulation_loop_lengths p Hsize (Z.to_nat (Z.max 100 n)) [] [] g)
    as (cs & ts & g' & -> & Hc & Ht).
  simpl. exists (mkSimulationResult cs ts (Z.max 100 n)), g'.
  simpl. repeat split; try assumption. lia.
Qed.

End SimulatorFacts.

(** ** Fuel *)

Lemma settled_bind {A B} (m : outcome A) (k : A -> outcome B) :
  settled (bind m k) -> settled m.
Proof. unfold settled. destruct m; simpl; congruence. Qed.

Lemma kahn_loop_eq fuel p st :
  kahn_loop fuel p st
  = match queue st with
    | [] => Done st
    | current_id :: rest =>
        match fuel with
        | O => OutOfFuel
        | S f =>
            st' <- foldM (relax current_id (get_task_by_id p current_id))
                     (tasks p)
                     {| in_degree := in_degree st;
                        earliest_start := earliest_start st;
                        queue := rest |} ;;
            kahn_loop f p st'
        end
    end.
Proof. destruct fuel; reflexivity. Qed.

Lemma kahn_loop_S fuel p : forall st,
  settled (kahn_loop fuel p st) ->
  kahn_loop (S fuel) p st = kahn_loop fuel p st.
Proof.
  induction fuel as [|f IH]; intros st Hs;
    rewrite (kahn_loop_eq (S _)); rewrite kahn_loop_eq in Hs |- *;
    destruct (queue st) as [|cid rest]; try reflexivity.
  - now elim Hs.
  - destruct (foldM _ (tasks p) _) as [st'| |]; cbn [bind] in Hs |- *;
      try reflexivity.
    now apply IH.
Qed.

Lemma backtrack_eq fuel p es cur path :
  backtrack fuel p es cur path
  = match cur with
    | None => Done path
    | Some cid =>
        if String.eqb cid "" then Done path
        else
          match fuel with
          | O => OutOfFuel
          | S f =>
              current_task <- attr (get_task_by_id p cid) (fun t => t) ;;
              match dependencies current_task with
              | [] => Done (current_task :: path)
              | deps =>
                  next <- find_predecessor p es current_task deps ;;
                  backtrack f p es next (current_task :: path)
              end
          end
    end.
Proof. destruct fuel; reflexivity. Qed.

Lemma backtrack_S fuel p es : forall cur path,
  settled (backtrack fuel p es cur path) ->
  backtrack (S fuel) p es cur path = backtrack fuel p es cur path.
Proof.
  induction fuel as [|f IH]; intros cur path Hs;
    rewrite (backtrack_eq (S _)); rewrite backtrack_eq in Hs |- *;
    destruct cur as [cid|]; try reflexivity;
    destruct (String.eqb cid ""); try reflexivity.
  - now elim Hs.
  - destruct (attr (get_task_by_id p cid) (fun t => t)) as [t| |];
      cbn [bind] in Hs |- *; try reflexivity.
    destruct (dependencies t) as [|d ds]; [reflexivity|].
    destruct (find_predecessor p es t (d :: ds)) as [nxt| |];
      cbn [bind] in Hs |- *; try reflexivity.
    now apply IH.
Qed.

Lemma get_critical_path_S fuel p :
  settled (get_critical_path fuel p) ->
  get_critical_path (S fuel) p = get_critical_path fuel p.
Proof.
  unfold get_critical_path. intros Hs.
  destruct (kahn_init p) as [st0| |]; cbn [bind] in *; try reflexivity.
  rewrite kahn_loop_S by (eapply settled_bind; exact Hs).
  destruct (kahn_loop fuel p st0) as [st| |]; cbn [bind] in *; try reflexivity.
  destruct (mapM _ (PyDict.keys (earliest_start st))) as [keyed| |];
    cbn [bind] in *; try reflexivity.
  destruct keyed as [|k ks]; [reflexivity|].
  now apply backtrack_S.
Qed.

Lemma get_critical_path_fuel fuel fuel' p :
  settled (get_critical_path fuel p) -> (fuel <= fuel')%nat ->
  get_critical_path fuel' p = get_critical_path fuel p.
Proof.
  intros Hs Hle. induction Hle as [|m Hle IH]; [reflexivity|].
  rewrite get_critical_path_S; [exact IH|]. now rewrite IH.
Qed.

(** ** The critical path of a chain *)

(** C6. For the Project made of exactly the chain A (5 days), B (10 days,
    after A), C (3 days, after B), in any insertion order and with a team
    at least as large as the task count, the critical path is [A, B, C] in
    execution order and its durations sum to 18. *)
Theorem critical_path_of_chain (fuel : nat) (nm risk descr : string)
        (ca cb cc : Q) (size : Z) (ts : list Task) :
  let A := Task_init "A" 5 ca [] None in
  let B := Task_init "B" 10 cb ["a"] None in
  let C := Task_init "C" 3 cc ["b"] None in
  let p := mkProject nm ts size risk descr in
  In ts (orders_of_three A B C) ->
  (task_count p <= size)%Z ->
  (3 <= fuel)%nat ->
  get_critical_path fuel p = Done [A; B; C]
  /\ py_sum (map estimated_days [A; B; C]) = 18.
Proof.
  intros A B C p Hin _ Hfuel. split; [|reflexivity].
  assert (H3 : get_critical_path 3 p = Done [A; B; C]).
  { subst p. simpl in Hin.
    destruct Hin as [<- | [<- | [<- | [<- | [<- | [<- | []]]]]]];
      vm_compute; reflexivity. }
  rewrite (get_critical_path_fuel 3 fuel p); [exact H3 | | exact Hfuel].
  rewrite H3. discriminate.
Qed.

Lemma critical_path_of_chain_witness :
  get_critical_path 3
    (mkProject "Chain"
       [Task_init "A" 5 100 [] None; Task_init "B" 10 100 ["a"] None;
        Task_init "C" 3 100 ["b"] None] 3 "low" "")
  = Done [Task_init "A" 5 100 [] None; Task_init "B" 10 100 ["a"] None;
          Task_init "C" 3 100 ["b"] None]
  /\ py_sum (map estimated_days
               [Task_init "A" 5 100 [] None; Task_init "B" 10 100 ["a"] None;
                Task_init "C" 3 100 ["b"] None]) = 18.
Proof.
  apply (critical_path_of_chain 3 "Chain" "low" "" 100 100 100 3).
  - simpl. left. reflexivity.
  - vm_compute. discriminate.
  - lia.
Defined.

Lemma simulation_series_length_witness :
  exists r g',
    run_simulation nat (fun a _ g => (a, S g)) (fun m _ g => (m, S g))
      (RiskSimulator_init
         (mkProject "Demo" [Task_init "A" 5 100 [] None] 1 "low" "") 3) 0%nat
    = Done (r, g')
    /\ List.length (costs r) = Z.to_nat (Z.max 100 3)
    /\ List.length (timelines r) = Z.to_nat (Z.max 100 3)
    /\ iterations r = Z.max 100 3
    /\ (3 < 100 -> iterations r = 100)%Z.
Proof.
  apply (simulation_series_length nat (fun a _ g => (a, S g))
           (fun m _ g => (m, S g))
           (mkProject "Demo" [Task_init "A" 5 100 [] None] 1 "low" "") 3 0%nat).
  reflexivity.
Defined.

(** ** Stepping the simulation loop *)

Lemma sched_loop_eq fuel size st moves :
  sched_loop fuel size st moves
  = if loop_condition st then
      match fuel with
      | O => OutOfFuel
      | S f =>
          r <- sched_iteration size st ;;
          match fst r with
          | Break => Done (snd r, moves)
          | m => sched_loop f size (snd r) (moves ++ [m])%list
          end
      end
    else Done (st, moves).
Proof. destruct fuel; reflexivity. Qed.

Lemma sched_loop_step f size st moves m st' :
  loop_condition st = true ->
  sched_iteration size st = Done (m, st') ->
  m <> Break ->
  sched_loop (S f) size st moves = sched_loop f size st' (moves ++ [m])%list.
Proof.
  intros Hc Hi Hm. rewrite sched_loop_eq, Hc, Hi. simpl.
  destruct m; try reflexivity. now elim Hm.
Qed.

(** A state that an iteration leaves as it is never leaves the loop. *)
Lemma sched_loop_stuck size st m :
  loop_condition st = true ->
  sched_iteration size st = Done (m, st) ->
  m <> Break ->
  forall fuel moves, sched_loop fuel size st moves = OutOfFuel.
Proof.
  intros Hc Hi Hm. induction fuel as [|f IH]; intros moves.
  - rewrite sched_loop_eq, Hc. reflexivity.
  - rewrite (sched_loop_step f size st moves m st Hc Hi Hm). apply IH.
Qed.

(** ** Cycle detection *)

Lemma set_add_In x y s : In x (set_add y s) <-> x = y \/ In x s.
Proof.
  unfold set_add. destruct (PyStr.mem y s) eqn:E; simpl.
  - apply mem_In in E. split; [tauto|]. intros [-> | H]; assumption.
  - split; intros [H | H]; auto.
Qed.

Lemma set_remove_In x s :
  In x s ->
  exists s', set_remove x s = Done s'
             /\ forall y, In y s' <-> (y <> x /\ In y s).
Proof.
  intros H. unfold set_remove. apply mem_In in H. rewrite H.
  eexists. split; [reflexivity|]. intros y. rewrite filter_In.
  rewrite negb_true_iff. split.
  - intros [Hy He]. split; [|exact Hy]. intros ->.
    now rewrite String.eqb_refl in He.
  - intros [Hn Hy]. split; [exact Hy|].
    destruct (String.eqb x y) eqn:E; [|reflexivity].
    apply String.eqb_eq in E. congruence.
Qed.

Lemma filter_length_mono {A} (f h : A -> bool) l :
  (forall x, f x = true -> h x = true) ->
  (List.length (filter f l) <= List.length (filter h l))%nat.
Proof.
  intros Himp. induction l as [|a l IH]; simpl; [lia|].
  destruct (f a) eqn:Ef.
  - rewrite (Himp a Ef). simpl. lia.
  - destruct (h a); simpl; lia.
Qed.

Lemma filter_length_strict {A} (f h : A -> bool) l a :
  (forall x, f x = true -> h x = true) ->
  In a l -> h a = true -> f a = false ->
  (List.length (filter f l) < List.length (filter h l))%nat.
Proof.
  intros Himp Hin Hh Hf. induction l as [|b l IH]; [contradiction|].
  simpl. destruct Hin as [-> | Hin].
  - rewrite Hh, Hf. simpl.
    pose proof (filter_length_mono f h l Himp). lia.
  - specialize (IH Hin). destruct (f b) eqn:Ef.
    + rewrite (Himp b Ef). simpl. lia.
    + destruct (h b); simpl; lia.
Qed.

Section Traversal.

Variable g : PyDict.t (list string).

Lemma edge_key u v : edge g u v -> In u (PyDict.keys g).
Proof.
  unfold edge, PyDict.get_default. intros H.
  apply contains_keys. unfold PyDict.contains.
  destruct (PyDict.get g u); [reflexivity | contradiction].
Qed.

Lemma reach_first u w :
  reach g u w -> exists v, edge g u v /\ (v = w \/ reach g v w).
Proof. intros H. inversion H; subst; eauto. Qed.

Lemma reach_last u v w : reach g u v -> edge g v w -> reach g u w.
Proof.
  intros H. induction H as [a b Hab | a b c Hab Hbc IH]; intros He.
  - eapply reach_step; [exact Hab|]. now apply reach_edge.
  - eapply reach_step; [exact Hab|]. now apply IH.
Qed.

Lemma closed_reach (P : string -> Prop) :
  (forall b v, P b -> edge g b v -> P v) ->
  forall u w, reach g u w -> P u -> P w.
Proof.
  intros Hc u w H. induction H as [a b Hab | a b c Hab Hbc IH]; intros Ha.
  - eapply Hc; eassumption.
  - apply IH. eapply Hc; eassumption.
Qed.

Lemma unvisited_le st st' :
  (forall x, In x (visited st) -> In x (visited st')) ->
  (unvisited g st' <= unvisited g st)%nat.
Proof.
  intros Hsub. unfold unvisited. apply filter_length_mono.
  intros x. rewrite !negb_true_iff, !mem_not_In. auto.
Qed.

Lemma unvisited_lt st st' node :
  (forall x, In x (visited st) -> In x (visited st')) ->
  In node (PyDict.keys g) -> ~ In node (visited st) ->
  In node (visited st') ->
  (unvisited g st' < unvisited g st)%nat.
Proof.
  intros Hsub Hk Hn Hv. unfold unvisited.
  apply filter_length_strict with (a := node); try assumption.
  - intros x. rewrite !negb_true_iff, !mem_not_In. auto.
  - now rewrite negb_true_iff, mem_not_In.
  - rewrite negb_false_iff. now apply mem_In.
Qed.

Lemma black_mono st st' x :
  (forall y, In y (visited st) -> In y (visited st')) ->
  (forall y, In y (rec_stack st') <-> In y (rec_stack st)) ->
  black st x -> black st' x.
Proof.
  intros Hv Hr [H1 H2]. split; [now apply Hv|]. now rewrite Hr.
Qed.

Lemma for_neighbors_ok visit budget node :
  visit_ok g visit budget ->
  forall neighbors st,
    (forall v, In v neighbors -> edge g node v) ->
    In node (rec_stack st) ->
    dfs_inv g st ->
    (forall x, In x (rec_stack st) -> x = node \/ reach g x node) ->
    (unvisited g st < budget)%nat ->
    match for_neighbors visit neighbors st with
    | Done (false, st') =>
        (forall x, In x (visited st) -> In x (visited st'))
        /\ (forall x, In x (rec_stack st') <-> In x (rec_stack st))
        /\ dfs_inv g st'
        /\ (forall v, In v neighbors -> black st' v)
    | Done (true, _) => cyclic g
    | _ => False
    end.
Proof.
  intros Hvisit. induction neighbors as [|nb rest IH];
    intros st Hedges Hnode Hinv Hchain Hfuel; simpl.
  - split; [auto|]. split; [tauto|]. split; [exact Hinv|]. intros v [].
  - assert (Hnb : edge g node nb) by (apply Hedges; now left).
    assert (Hrest : forall v, In v rest -> edge g node v)
      by (intros v Hv; apply Hedges; now right).
    destruct (PyStr.mem nb (visited st)) eqn:Ev; simpl.
    + apply mem_In in Ev.
      destruct (PyStr.mem nb (rec_stack st)) eqn:Er.
      * apply mem_In in Er. exists nb.
        destruct (Hchain nb Er) as [-> | Hp].
        -- now apply reach_edge.
        -- now apply reach_last with node.
      * apply mem_not_In in Er.
        specialize (IH st Hrest Hnode Hinv Hchain Hfuel).
        destruct (for_neighbors visit rest st) as [[[|] st']| |]; auto.
        destruct IH as (Hv & Hr & Hi & Hb).
        split; [exact Hv|]. split; [exact Hr|]. split; [exact Hi|].
        intros v [<- | Hin]; [|now apply Hb].
        apply (black_mono st); auto. now split.
    + apply mem_not_In in Ev.
      assert (Hchain' : forall x, In x (rec_stack st) -> reach g x nb).
      { intros x Hx. destruct (Hchain x Hx) as [-> | Hp].
        - now apply reach_edge.
        - now apply reach_last with node. }
      specialize (Hvisit nb st Ev Hinv Hchain' Hfuel).
      destruct (visit nb st) as [[[|] st1]| |]; simpl; auto.
      destruct Hvisit as (Hv1 & Hnb1 & Hr1 & Hi1).
      assert (Hfuel1 : (unvisited g st1 < budget)%nat).
      { pose proof (unvisited_le st st1 Hv1). lia. }
      assert (Hchain1 : forall x, In x (rec_stack st1) ->
                                  x = node \/ reach g x node).
      { intros x Hx. apply Hchain. now apply Hr1. }
      specialize (IH st1 Hrest (proj2 (Hr1 node) Hnode) Hi1 Hchain1 Hfuel1).
      destruct (for_neighbors visit rest st1) as [[[|] st']| |]; auto.
      destruct IH as (Hv & Hr & Hi & Hb).
      split; [auto|]. split; [|split; [exact Hi|]].
      * intros x. rewrite Hr. apply Hr1.
      * intros v [<- | Hin]; [|now apply Hb].
        apply (black_mono st1); auto. split; [exact Hnb1|].
        rewrite Hr1. intros Hs. apply Ev. now apply (proj1 Hinv).
Qed.

End Traversal.

Lemma black_after_remove st2 s' node b :
  (forall y, In y s' <-> (y <> node /\ In y (rec_stack st2))) ->
  black {| visited := visited st2; rec_stack := s' |} b
  <-> (In b (visited st2) /\ (b = node \/ ~ In b (rec_stack st2))).
Proof.
  intros Hs'. unfold black. simpl. rewrite Hs'.
  destruct (string_dec b node) as [-> | Hne]; tauto.
Qed.

Lemma has_cycle_ok g : forall fuel, visit_ok g (has_cycle fuel g) fuel.
Proof.
  induction fuel as [|f IH]; intros node st Hn Hinv Hchain Hfuel; [lia|].
  simpl.
  set (st1 := {| visited := set_add node (visited st);
                 rec_stack := set_add node (rec_stack st) |}).
  destruct Hinv as (Hsub & Hclosed & Hacyc).
  assert (Hnr : ~ In node (rec_stack st)) by (intros H; now apply Hn, Hsub).
  assert (Hblack1 : forall x, black st1 x <-> black st x).
  { intros x. unfold black, st1. simpl. rewrite !set_add_In. split.
    - intros [[-> | H1] H2]; [exfalso; apply H2; now left|].
      split; [exact H1|]. intros H. apply H2. now right.
    - intros [H1 H2]. split; [now right|].
      intros [-> | H]; [now apply Hn | now apply H2]. }
  assert (Hinv1 : dfs_inv g st1).
  { split; [|split].
    - intros x. unfold st1. simpl. rewrite !set_add_In.
      intros [-> | H]; [now left | right; now apply Hsub].
    - intros b v Hb He. apply Hblack1. apply Hclosed with b; [|exact He].
      now apply Hblack1.
    - intros b Hb. apply Hacyc. now apply Hblack1. }
  assert (Hnode1 : In node (rec_stack st1))
    by (unfold st1; simpl; apply set_add_In; now left).
  assert (Hchain1 : forall x, In x (rec_stack st1) ->
                              x = node \/ reach g x node).
  { intros x. unfold st1. simpl. rewrite set_add_In.
    intros [-> | H]; [now left | right; now apply Hchain]. }
  assert (Hv1 : forall x, In x (visited st) -> In x (visited st1))
    by (intros x H; unfold st1; simpl; apply set_add_In; now right).
  assert (Hloop :
            match for_neighbors (has_cycle f g)
                    (PyDict.get_default g node []) st1 with
            | Done (false, st') =>
                (forall x, In x (visited st1) -> In x (visited st'))
                /\ (forall x, In x (rec_stack st') <-> In x (rec_stack st1))
                /\ dfs_inv g st'
                /\ (forall v, In v (PyDict.get_default g node []) ->
                              black st' v)
            | Done (true, _) => cyclic g
            | _ => False
            end).
  { destruct (PyDict.get_default g node []) as [|d ds] eqn:Eg.
    - simpl. split; [auto|]. split; [tauto|]. split; [exact Hinv1|].
      intros v [].
    - rewrite <- Eg. apply for_neighbors_ok with (budget := f) (node := node);
        auto.
      assert (Hk : In node (PyDict.keys g)).
      { apply edge_key with d. unfold edge. rewrite Eg. now left. }
      assert (Hlt : (unvisited g st1 < unvisited g st)%nat).
      { apply unvisited_lt with node; auto.
        unfold st1. simpl. apply set_add_In. now left. }
      lia. }
  destruct (for_neighbors (has_cycle f g) (PyDict.get_default g node []) st1)
    as [[[|] st2]| |]; simpl; auto.
  destruct Hloop as (Hv2 & Hr2 & Hi2 & Hb2).
  assert (Hnode2 : In node (rec_stack st2)) by now apply Hr2.
  destruct (set_remove_In node (rec_stack st2) Hnode2) as [s' [-> Hs']].
  simpl. destruct Hi2 as (Hsub2 & Hclosed2 & Hacyc2).
  split; [auto|]. split.
  { apply Hv2. unfold st1. simpl. apply set_add_In. now left. }
  split.
  { intros x. simpl. rewrite Hs', Hr2. unfold st1. simpl.
    rewrite set_add_In. split.
    - intros [Hne [-> | H]]; [now elim Hne | exact H].
    - intros H. split; [|now right]. intros ->. now apply Hnr. }
  split; [|split].
  - intros x. simpl. rewrite Hs'. intros [_ H]. now apply Hsub2.
  - intros b v Hb He. apply (black_after_remove st2 s' node) in Hb; auto.
    apply (black_after_remove st2 s' node); auto.
    destruct Hb as [Hbv [-> | Hbr]].
    + destruct (Hb2 v He) as [H1 H2]. split; [exact H1 | now right].
    + destruct (Hclosed2 b v (conj Hbv Hbr) He) as [H1 H2].
      split; [exact H1 | now right].
  - intros b Hb. apply (black_after_remove st2 s' node) in Hb; auto.
    destruct Hb as [Hbv [-> | Hbr]]; [|now apply Hacyc2].
    intros Hcyc. apply reach_first in Hcyc.
    destruct Hcyc as [v [He [-> | Hp]]].
    + destruct (Hb2 node He) as [_ H]. now apply H.
    + assert (Hbn : black st2 node).
      { apply (closed_reach g (black st2) Hclosed2 v node Hp).
        now apply Hb2. }
      destruct Hbn as [_ H]. now apply H.
Qed.

Lemma for_roots_ok g fuel : forall ts st,
  (forall x, ~ In x (rec_stack st)) ->
  dfs_inv g st ->
  (unvisited g st < fuel)%nat ->
  match for_roots fuel g ts st with
  | Done false =>
      forall u, In u (visited st) \/ In u (map task_id ts) -> ~ reach g u u
  | Done true => cyclic g
  | _ => False
  end.
Proof.
  induction ts as [|t rest IH]; intros st Hempty Hinv Hfuel; simpl.
  - intros u [Hu | []]. apply (proj2 (proj2 Hinv)). split; [exact Hu|].
    apply Hempty.
  - destruct (PyStr.mem (task_id t) (visited st)) eqn:Ev; simpl.
    + apply mem_In in Ev. specialize (IH st Hempty Hinv Hfuel).
      destruct (for_roots fuel g rest st) as [[|]| |]; auto.
      intros u [Hu | [<- | Hu]]; apply IH; auto.
    + apply mem_not_In in Ev.
      assert (Hchain : forall x, In x (rec_stack st) ->
                                 reach g x (task_id t))
        by (intros x Hx; now elim (Hempty x)).
      pose proof (has_cycle_ok g fuel (task_id t) st Ev Hinv Hchain Hfuel)
        as Hcall.
      destruct (has_cycle fuel g (task_id t) st) as [[[|] st1]| |];
        simpl; auto.
      destruct Hcall as (Hv & Ht & Hr & Hi).
      assert (Hempty1 : forall x, ~ In x (rec_stack st1))
        by (intros x Hx; apply (Hempty x); now apply Hr).
      assert (Hfuel1 : (unvisited g st1 < fuel)%nat).
      { pose proof (unvisited_le g st st1 Hv). lia. }
      specialize (IH st1 Hempty1 Hi Hfuel1).
      destruct (for_roots fuel g rest st1) as [[|]| |]; auto.
      intros u [Hu | [<- | Hu]]; apply IH; auto.
Qed.

Section Comprehension.

Context {X V : Type} (key : X -> string) (val : X -> V).

Let build (xs : list X) (d0 : PyDict.t V) : PyDict.t V :=
  fold_left (fun d x => PyDict.set d (key x) (val x)) xs d0.

Lemma build_keys xs : forall d0 k,
  In k (PyDict.keys (build xs d0))
  <-> In k (PyDict.keys d0) \/ In k (map key xs).
Proof.
  induction xs as [|x xs IH]; intros d0 k; simpl; [tauto|].
  unfold build in *. simpl. rewrite IH, keys_set_In.
  intuition congruence.
Qed.

Lemma set_length (d : PyDict.t V) k v :
  (List.length (PyDict.set d k v) <= S (List.length d))%nat.
Proof.
  induction d as [|[k' v'] r IH]; simpl; [lia|].
  destruct (String.eqb k k'); simpl; lia.
Qed.

Lemma build_length xs : forall d0,
  (List.length (build xs d0) <= List.length d0 + List.length xs)%nat.
Proof.
  induction xs as [|x xs IH]; intros d0; simpl; [lia|].
  unfold build in *. simpl.
  specialize (IH (PyDict.set d0 (key x) (val x))).
  pose proof (set_length d0 (key x) (val x)). lia.
Qed.

Lemma build_get_other xs : forall d0 k,
  ~ In k (map key xs) -> PyDict.get (build xs d0) k = PyDict.get d0 k.
Proof.
  induction xs as [|x xs IH]; intros d0 k Hk; [reflexivity|].
  unfold build in *. simpl in *. rewrite IH by tauto.
  apply get_set_other. intros E. apply Hk. now left.
Qed.

Lemma build_get_unique xs : forall d0 x,
  NoDup (map key xs) -> In x xs ->
  PyDict.get (build xs d0) (key x) = Some (val x).
Proof.
  induction xs as [|y xs IH]; intros d0 x Hnd Hin; [contradiction|].
  unfold build in *. simpl in *. inversion Hnd as [|a l Hny Hnd']; subst.
  destruct Hin as [-> | Hin].
  - fold (build xs (PyDict.set d0 (key x) (val x))).
    rewrite build_get_other by assumption. apply get_set_same.
  - now apply IH.
Qed.

Lemma build_get_some xs : forall d0 k v,
  PyDict.get (build xs d0) k = Some v ->
  PyDict.get d0 k = Some v \/ exists x, In x xs /\ key x = k /\ val x = v.
Proof.
  induction xs as [|x xs IH]; intros d0 k v H; [now left|].
  unfold build in *. simpl in H. apply IH in H.
  destruct H as [H | [y [Hy [Hk Hv]]]].
  - rewrite get_set in H. destruct (String.eqb k (key x)) eqn:E.
    + apply String.eqb_eq in E. inversion H; subst.
      right. exists x. simpl. auto.
    + now left.
  - right. exists y. simpl. auto.
Qed.

End Comprehension.

Lemma dependency_graph_keys p k :
  In k (PyDict.keys (dependency_graph p)) <-> In k (map task_id (tasks p)).
Proof.
  unfold dependency_graph, PyDict.comprehension.
  rewrite (build_keys task_id dependencies). simpl. tauto.
Qed.

Lemma dependency_graph_size p :
  (List.length (PyDict.keys (dependency_graph p)) <= List.length (tasks p))%nat.
Proof.
  unfold dependency_graph, PyDict.comprehension, PyDict.keys.
  rewrite length_map.
  pose proof (build_length task_id dependencies (tasks p) []) as H.
  simpl in H. exact H.
Qed.

Lemma edge_declared p u v :
  edge (dependency_graph p) u v ->
  exists t, In t (tasks p) /\ task_id t = u /\ In v (dependencies t).
Proof.
  unfold edge, PyDict.get_default. intros H.
  destruct (PyDict.get (dependency_graph p) u) as [deps|] eqn:E;
    [|contradiction].
  apply (build_get_some task_id dependencies) in E.
  destruct E as [E | [t [Ht [Hk Hv]]]]; [discriminate|].
  exists t. subst. auto.
Qed.

Lemma edge_of_unique_ids p t v :
  NoDup (map task_id (tasks p)) ->
  In t (tasks p) -> In v (dependencies t) ->
  edge (dependency_graph p) (task_id t) v.
Proof.
  intros Hnd Ht Hv. unfold edge, PyDict.get_default, dependency_graph,
    PyDict.comprehension.
  now rewrite (build_get_unique task_id dependencies (tasks p) [] t Hnd Ht).
Qed.

Lemma has_circular_dependency_correct fuel p :
  (List.length (tasks p) < fuel)%nat ->
  exists b, has_circular_dependency fuel p = Done b
            /\ (b = true <-> has_cycle_in p).
Proof.
  intros Hfuel. unfold has_circular_dependency, has_cycle_in.
  set (g := dependency_graph p).
  set (st0 := {| visited := []; rec_stack := [] |}).
  assert (Hinv : dfs_inv g st0).
  { split; [|split]; intros x; unfold black; simpl; tauto. }
  assert (Hu : (unvisited g st0 < fuel)%nat).
  { unfold unvisited. pose proof (dependency_graph_size p) as Hsz.
    fold g in Hsz.
    pose proof (List.filter_length_le
                  (fun k => negb (PyStr.mem k (visited st0)))
                  (PyDict.keys g)).
    lia. }
  pose proof (for_roots_ok g fuel (tasks p) st0 (fun x H => H) Hinv Hu) as H.
  destruct (for_roots fuel g (tasks p) st0) as [[|]| |]; try contradiction.
  - exists true. tauto.
  - exists false. split; [reflexivity|]. split; [discriminate|].
    intros [u Hc]. exfalso. apply (H u); [|exact Hc]. right.
    apply dependency_graph_keys. apply reach_first in Hc.
    destruct Hc as [v [He _]]. now apply edge_key with v.
Qed.

(** ** Dependency validation *)

Lemma missing_inner ids task deps : forall errors,
  fold_left
    (fun errors dep_id =>
       if negb (PyStr.mem dep_id ids)
       then (errors ++ [missing_dependency_message task dep_id])%list
       else errors)
    deps errors
  = (errors
     ++ map (missing_dependency_message task)
            (filter (fun d => negb (PyStr.mem d ids)) deps))%list.
Proof.
  induction deps as [|d deps IH]; intros errors; simpl.
  - now rewrite app_nil_r.
  - rewrite IH. destruct (negb (PyStr.mem d ids)); simpl; [|reflexivity].
    now rewrite <- app_assoc.
Qed.

Lemma missing_outer ids ts : forall errors,
  fold_left
    (fun errors task =>
       fold_left
         (fun errors dep_id =>
            if negb (PyStr.mem dep_id ids)
            then (errors ++ [missing_dependency_message task dep_id])%list
            else errors)
         (dependencies task) errors)
    ts errors
  = (errors
     ++ map (fun m => missing_dependency_message (fst m) (snd m))
            (flat_map
               (fun t => map (fun d => (t, d))
                             (filter (fun d => negb (PyStr.mem d ids))
                                     (dependencies t)))
               ts))%list.
Proof.
  induction ts as [|t ts IH]; intros errors; simpl.
  - now rewrite app_nil_r.
  - rewrite IH, missing_inner, map_app, map_map, <- app_assoc. reflexivity.
Qed.

Lemma missing_reference_errors_eq p :
  missing_reference_errors p
  = map (fun m => missing_dependency_message (fst m) (snd m))
        (missing_references p).
Proof.
  unfold missing_reference_errors, missing_references.
  now rewrite missing_outer.
Qed.

Lemma missing_references_In p t d :
  In (t, d) (missing_references p)
  <-> In t (tasks p) /\ In d (dependencies t)
      /\ ~ In d (map task_id (tasks p)).
Proof.
  unfold missing_references. rewrite in_flat_map. split.
  - intros [t' [Ht' Hin]]. apply in_map_iff in Hin.
    destruct Hin as [d' [E Hd']]. inversion E; subst.
    apply filter_In in Hd'. destruct Hd' as [Hd Hm].
    rewrite negb_true_iff, mem_not_In in Hm. auto.
  - intros (Ht & Hd & Hn). exists t. split; [exact Ht|].
    apply in_map. apply filter_In. split; [exact Hd|].
    now rewrite negb_true_iff, mem_not_In.
Qed.

Lemma missing_references_nil p : all_resolve p -> missing_references p = [].
Proof.
  intros Hres. destruct (missing_references p) as [|[t d] r] eqn:E;
    [reflexivity|].
  assert (H : In (t, d) (missing_references p)) by (rewrite E; now left).
  apply missing_references_In in H. destruct H as (Ht & Hd & Hn).
  exfalso. apply Hn. now apply (Hres t d).
Qed.

Lemma count_circular_in_missing (ms : list (Task * string)) :
  count_occ string_dec
    (map (fun m => missing_dependency_message (fst m) (snd m)) ms)
    circular_message = 0%nat.
Proof.
  induction ms as [|m ms IH]; simpl; [reflexivity|].
  destruct (string_dec (missing_dependency_message (fst m) (snd m))
                       circular_message) as [E | _]; [|exact IH].
  discriminate E.
Qed.

(** C4. With recursion depth above the task count, validate_dependencies
    returns, leaving the Project as it was, the list made of one error per
    missing dependency reference (a task and a declared dependency id that
    no task has), each naming the task by name and the missing id, in
    declaration order, followed by the generic circular-dependency error
    exactly when the dependency graph contains a cycle; that error occurs
    once if there is a cycle and not at all otherwise, and for an acyclic
    graph whose dependency ids all resolve the list is empty. The graph
    holds for each task_id the dependencies declared under it (with unique
    task_ids: an edge for every declared dependency of every task). *)
Theorem validate_dependencies_correct (fuel : nat) (p : Project) :
  (List.length (tasks p) < fuel)%nat ->
  exists errors circular,
    validate_dependencies fuel p = (p, Done errors)
    /\ errors
       = (map (fun m => ("Task '" ++ name (fst m)
                         ++ "' depends on non-existent task '" ++ snd m
                         ++ "'")%string)
              (missing_references p)
          ++ circular)%list
    /\ (forall t d, In (t, d) (missing_references p)
                    <-> In t (tasks p) /\ In d (dependencies t)
                        /\ ~ In d (map task_id (tasks p)))
    /\ ((has_cycle_in p /\ circular = ["Project has circular dependencies"])
        \/ (~ has_cycle_in p /\ circular = []))
    /\ (count_occ string_dec errors "Project has circular dependencies"
        = 1%nat <-> has_cycle_in p)
    /\ (~ has_cycle_in p -> all_resolve p -> errors = [])
    /\ (forall u v, edge (dependency_graph p) u v ->
                    exists t, In t (tasks p) /\ task_id t = u
                              /\ In v (dependencies t))
    /\ (NoDup (map task_id (tasks p)) ->
        forall t v, In t (tasks p) -> In v (dependencies t) ->
                    edge (dependency_graph p) (task_id t) v).
Proof.
  intros Hfuel.
  destruct (has_circular_dependency_correct fuel p Hfuel) as [b [Hb Hiff]].
  exists (if b then (missing_reference_errors p ++ [circular_message])%list
          else missing_reference_errors p),
         (if b then [circular_message] else []).
  split.
  { unfold validate_dependencies. now rewrite Hb. }
  split.
  { rewrite missing_reference_errors_eq. destruct b; [reflexivity|].
    now rewrite app_nil_r. }
  split; [apply missing_references_In|].
  split.
  { destruct b; [left | right]; split; try reflexivity.
    - now apply Hiff.
    - intros H. apply Hiff in H. discriminate. }
  split.
  { rewrite missing_reference_errors_eq.
    change "Project has circular dependencies" with circular_message.
    destruct b.
    - rewrite count_occ_app, count_circular_in_missing. simpl.
      destruct (string_dec circular_message circular_message);
        [tauto | congruence].
    - rewrite count_circular_in_missing. split; [discriminate|].
      intros H. apply Hiff in H. discriminate. }
  split.
  { intros Hn Hres. destruct b; [exfalso; now apply Hn, Hiff|].
    rewrite missing_reference_errors_eq.
    now rewrite (missing_references_nil p Hres). }
  split; [apply edge_declared|].
  intros Hnd t v. now apply edge_of_unique_ids.
Qed.

Lemma validate_dependencies_correct_witness :
  exists errors circular,
    validate_dependencies 3
      (mkProject "Loop"
         [Task_init "T1" 5 1 ["t2"; "zz"] None; Task_init "T2" 3 1 ["t1"] None]
         2 "medium" "")
    = (mkProject "Loop"
         [Task_init "T1" 5 1 ["t2"; "zz"] None; Task_init "T2" 3 1 ["t1"] None]
         2 "medium" "", Done errors)
    /\ errors = ["Task 'T1' depends on non-existent task 'zz'";
                 "Project has circular dependencies"]
    /\ circular = ["Project has circular dependencies"].
Proof.
  destruct (validate_dependencies_correct 3
              (mkProject "Loop"
                 [Task_init "T1" 5 1 ["t2"; "zz"] None;
                  Task_init "T2" 3 1 ["t1"] None] 2 "medium" ""))
    as (errors & circular & Hv & He & _ & Hc & _).
  - simpl. lia.
  - exists errors, circular. split; [exact Hv|].
    assert (Hval : errors = ["Task 'T1' depends on non-existent task 'zz'";
                             "Project has circular dependencies"]).
    { vm_compute in Hv. now inversion Hv. }
    split; [exact Hval|].
    destruct Hc as [[_ Hc] | [_ Hc]]; [exact Hc|].
    subst circular. rewrite Hval in He. vm_compute in He. discriminate He.
Defined.

(** ** Sums, maxima and minima *)

Lemma fold_left_Qplus xs : forall a, fold_left Qplus xs a == a + Qsum xs.
Proof.
  induction xs as [|x xs IH]; intros a; simpl.
  - lra.
  - rewrite IH. lra.
Qed.

Lemma py_sum_Qsum xs : py_sum xs == Qsum xs.
Proof. unfold py_sum. rewrite fold_left_Qplus. lra. Qed.

Lemma Qsum_nonneg xs : (forall x, In x xs -> 0 <= x) -> 0 <= Qsum xs.
Proof.
  induction xs as [|x xs IH]; intros H; simpl; [lra|].
  assert (0 <= x) by (apply H; now left).
  assert (0 <= Qsum xs) by (apply IH; intros y Hy; apply H; now right).
  lra.
Qed.

Lemma days_of_perm l l' : Permutation l l' -> days_of l == days_of l'.
Proof.
  unfold days_of. intros H. induction H; simpl; lra.
Qed.

Lemma py_max_le B r : forall x,
  x <= B -> (forall y, In y r -> y <= B) -> py_max x r <= B.
Proof.
  unfold py_max. induction r as [|y r IH]; intros x Hx Hr; simpl; [exact Hx|].
  apply IH.
  - apply Q.max_lub; [exact Hx | apply Hr; now left].
  - intros z Hz. apply Hr. now right.
Qed.

Lemma max_or_zero_le B xs :
  0 <= B -> (forall v, In v xs -> v <= B) -> max_or_zero xs <= B.
Proof.
  intros HB H. destruct xs as [|x r]; simpl; [exact HB|].
  apply py_max_le; [apply H; now left|].
  intros y Hy. apply H. now right.
Qed.

Lemma py_min_In r : forall x, In (py_min x r) (x :: r).
Proof.
  unfold py_min. induction r as [|y r IH]; intros x; simpl; [now left|].
  destruct (IH (Qmin x y)) as [H | H].
  - rewrite <- H. unfold Qmin, GenericMinMax.gmin.
    destruct (x ?= y); auto.
  - right. now right.
Qed.

Lemma values_set_In {V} (d : PyDict.t V) k x v :
  In v (PyDict.values (PyDict.set d k x)) -> v = x \/ In v (PyDict.values d).
Proof.
  unfold PyDict.values. induction d as [|[k' v'] r IH]; simpl.
  - intuition.
  - destruct (String.eqb k k'); simpl; intuition.
Qed.

Lemma get_In_values {V} (d : PyDict.t V) k v :
  PyDict.get d k = Some v -> In v (PyDict.values d).
Proof.
  unfold PyDict.values. induction d as [|[k' v'] r IH]; simpl; [discriminate|].
  destruct (String.eqb k k').
  - intros H. inversion H. now left.
  - intros H. right. now apply IH.
Qed.

(** ** The unconstrained schedule is at most the sum of the durations *)

Lemma dependency_fold_le B (fin : PyDict.t Q) deps :
  (forall v, In v (PyDict.values fin) -> v <= B) ->
  forall a, a <= B ->
    fold_left
      (fun earliest dep_id =>
         match PyDict.get fin dep_id with
         | Some f => Qmax earliest f
         | None => earliest
         end) deps a <= B.
Proof.
  intros Hfin. induction deps as [|d deps IH]; intros a Ha; simpl.
  - exact Ha.
  - apply IH. destruct (PyDict.get fin d) as [f|] eqn:E; [|exact Ha].
    apply Q.max_lub; [exact Ha|]. apply Hfin. eapply get_In_values, E.
Qed.

Lemma dependency_fold_ge (fin : PyDict.t Q) deps :
  forall a,
    a <= fold_left
           (fun earliest dep_id =>
              match PyDict.get fin dep_id with
              | Some f => Qmax earliest f
              | None => earliest
              end) deps a.
Proof.
  induction deps as [|d deps IH]; intros a; simpl; [apply Qle_refl|].
  eapply Qle_trans; [|apply IH].
  destruct (PyDict.get fin d) as [f|]; [apply Q.le_max_l | apply Qle_refl].
Qed.

Lemma dependency_start_le B (fin : PyDict.t Q) deps :
  0 <= B -> (forall v, In v (PyDict.values fin) -> v <= B) ->
  dependency_start fin deps <= B.
Proof.
  intros HB Hfin. unfold dependency_start. now apply dependency_fold_le.
Qed.

Lemma dependency_start_nonneg (fin : PyDict.t Q) deps :
  0 <= dependency_start fin deps.
Proof. unfold dependency_start. apply dependency_fold_ge. Qed.

Lemma forward_pass_bound ts : forall starts fin B,
  (forall t, In t ts -> 0 <= estimated_days t) ->
  0 <= B -> (forall v, In v (PyDict.values fin) -> v <= B) ->
  forall v,
    In v (PyDict.values
            (snd (fold_left forward_step ts (starts, fin)))) ->
    v <= B + days_of ts.
Proof.
  induction ts as [|t ts IH]; intros starts fin B Hd HB Hfin v; simpl.
  - intros Hv. unfold days_of. simpl. specialize (Hfin v Hv). lra.
  - intros Hv.
    assert (Ht : 0 <= estimated_days t) by (apply Hd; now left).
    eapply IH with (B := B + estimated_days t) in Hv.
    + unfold days_of in *. simpl. lra.
    + intros t' Ht'. apply Hd. now right.
    + lra.
    + intros w Hw. apply values_set_In in Hw. destruct Hw as [-> | Hw].
      * pose proof (dependency_start_le B fin (dependencies t) HB Hfin). lra.
      * specialize (Hfin w Hw). lra.
Qed.

(** ** The simulated schedule is at most the sum of the durations *)

Lemma Task_eqb_days a b :
  Task_eqb a b = true -> estimated_days a == estimated_days b.
Proof.
  unfold Task_eqb. rewrite !andb_true_iff.
  intros [[[[_ H] _] _] _]. now apply Qeq_bool_iff.
Qed.

Lemma list_remove_days x l l' :
  list_remove x l = Done l' ->
  days_of l' + estimated_days x == days_of l
  /\ (forall t, In t l' -> In t l).
Proof.
  revert l'. induction l as [|y r IH]; intros l' H; simpl in H;
    [discriminate|].
  destruct (Task_eqb y x) eqn:E.
  - inversion H; subst. apply Task_eqb_days in E. unfold days_of. simpl.
    split; [lra | intros t Ht; now right].
  - destruct (list_remove x r) as [r'| |]; simpl in H; try discriminate.
    inversion H; subst. destruct (IH r' eq_refl) as [Hs Hin].
    unfold days_of in *. simpl. split; [lra|].
    intros t [<- | Ht]; [now left | right; now apply Hin].
Qed.

Lemma start_task_bound D st task st' :
  start_task st task = Done st' ->
  0 <= estimated_days task ->
  sched_bound D st ->
  sched_bound D st'
  /\ active_tasks st' = (active_tasks st ++ [task])%list
  /\ current_time st' = current_time st.
Proof.
  unfold start_task. intros H Hd (Hpos & HB & Hct & Hfin).
  destruct (list_remove task (remaining_tasks st)) as [rem| |] eqn:E;
    simpl in H; try discriminate.
  inversion H; subst; clear H. simpl.
  destruct (list_remove_days _ _ _ E) as [Hs Hin].
  split; [|split; reflexivity].
  unfold sched_bound. simpl. split; [|split; [|split]].
  - intros t Ht. apply Hpos. now apply Hin.
  - lra.
  - lra.
  - intros v Hv. apply values_set_In in Hv. destruct Hv as [-> | Hv].
    + lra.
    + specialize (Hfin v Hv). lra.
Qed.

Lemma start_tasks_bound D cs : forall st st',
  foldM start_task cs st = Done st' ->
  (forall t, In t cs -> 0 <= estimated_days t) ->
  sched_bound D st ->
  sched_bound D st'
  /\ active_tasks st' = (active_tasks st ++ cs)%list
  /\ current_time st' = current_time st.
Proof.
  induction cs as [|c cs IH]; intros st st' H Hd Hb; simpl in H.
  - inversion H; subst. rewrite app_nil_r. auto.
  - destruct (start_task st c) as [st1| |] eqn:E; simpl in H;
      try discriminate.
    destruct (start_task_bound D st c st1 E) as (Hb1 & Ha1 & Ht1);
      [apply Hd; now left | exact Hb |].
    destruct (IH st1 st' H) as (Hb' & Ha' & Ht'); [|exact Hb1|].
    + intros t Ht. apply Hd. now right.
    + split; [exact Hb'|]. split; [|congruence].
      rewrite Ha', Ha1, <- app_assoc. reflexivity.
Qed.

Lemma mapM_lookup_values (sf : PyDict.t Q) l : forall fs,
  mapM (fun t : Task => PyDict.lookup sf (task_id t)) l = Done fs ->
  forall f, In f fs -> In f (PyDict.values sf).
Proof.
  induction l as [|t l IH]; intros fs H; simpl in H.
  - inversion H. contradiction.
  - unfold PyDict.lookup in H at 1.
    destruct (PyDict.get sf (task_id t)) as [v|] eqn:E; simpl in H;
      [|discriminate].
    destruct (mapM _ l) as [fs'| |]; simpl in H; try discriminate.
    inversion H; subst. intros f [<- | Hf].
    + eapply get_In_values, E.
    + now apply (IH fs').
Qed.

Lemma get_default_bound B (sf : PyDict.t Q) k :
  0 <= B -> (forall v, In v (PyDict.values sf) -> v <= B) ->
  PyDict.get_default sf k 0 <= B.
Proof.
  intros HB H. unfold PyDict.get_default.
  destruct (PyDict.get sf k) as [v|] eqn:E; [|exact HB].
  apply H. eapply get_In_values, E.
Qed.

(** With a team of at least one, an iteration keeps the bound and never
    moves the clock by the fixed increment. *)
Lemma sched_iteration_bound D size st m st' :
  (1 <= size)%Z ->
  sched_bound D st ->
  sched_iteration size st = Done (m, st') ->
  sched_bound D st' /\ m <> FixedIncrement.
Proof.
  intros Hsize Hb. unfold sched_iteration.
  destruct (filterM _ (active_tasks st)) as [active| |]; simpl;
    try discriminate.
  set (can_start := filter _ (remaining_tasks st)).
  set (mid := {| scheduled_start := scheduled_start st;
                 scheduled_finish := scheduled_finish st;
                 active_tasks := active;
                 current_time := current_time st;
                 remaining_tasks := remaining_tasks st |}).
  assert (Hmid : sched_bound D mid) by exact Hb.
  destruct (foldM start_task can_start mid) as [st1| |] eqn:E1; simpl;
    try discriminate.
  assert (Hcs : forall t, In t can_start -> 0 <= estimated_days t).
  { intros t Ht. apply filter_In in Ht. apply (proj1 Hb). tauto. }
  destruct (start_tasks_bound D can_start mid st1 E1 Hcs Hmid)
    as (Hb1 & Ha1 & Ht1).
  destruct Hb1 as (Hpos1 & HB1 & Hct1 & Hfin1).
  destruct (active_tasks st1) as [|a0 act] eqn:Eact.
  - destruct (remaining_tasks st1) as [|next rest] eqn:Erem;
      rewrite <- Erem in Hpos1, HB1, Hct1, Hfin1.
    + intros H. inversion H; subst. split; [|discriminate].
      unfold sched_bound. auto.
    + destruct (map _ (dependencies next)) as [|f fs] eqn:Emap.
      * intros _. exfalso.
        simpl in Ha1. symmetry in Ha1. apply app_eq_nil in Ha1.
        destruct Ha1 as [Hact Hcan].
        assert (Hst : st1 = mid).
        { rewrite Hcan in E1. simpl in E1. now inversion E1. }
        assert (Hnext : In next can_start).
        { unfold can_start. apply filter_In. split.
          - rewrite Hst in Erem. simpl in Erem. rewrite Erem. now left.
          - apply map_eq_nil in Emap. unfold deps_complete.
            rewrite Emap, Hact. simpl. apply Z.ltb_lt. lia. }
        rewrite Hcan in Hnext. contradiction.
      * intros H. inversion H; subst. split; [|discriminate].
        rewrite Erem in Hpos1, HB1, Hct1, Hfin1.
        unfold sched_bound.
        cbn [remaining_tasks current_time scheduled_finish].
        split; [exact Hpos1|]. split; [exact HB1|]. split; [|exact Hfin1].
        apply py_max_le.
        -- assert (Hf : In f (f :: fs)) by now left.
           rewrite <- Emap in Hf. apply in_map_iff in Hf.
           destruct Hf as [d [<- _]]. now apply get_default_bound.
        -- intros y Hy. assert (Hf : In y (f :: fs)) by now right.
           rewrite <- Emap in Hf. apply in_map_iff in Hf.
           destruct Hf as [d [<- _]]. now apply get_default_bound.
  - destruct (mapM _ (a0 :: act)) as [finishes| |] eqn:Em; simpl;
      try discriminate.
    destruct finishes as [|f fs]; [discriminate|].
    intros H. inversion H; subst. split; [|discriminate].
    unfold sched_bound.
    cbn [remaining_tasks current_time scheduled_finish].
    split; [exact Hpos1|]. split; [exact HB1|]. split; [|exact Hfin1].
    apply Hfin1. eapply mapM_lookup_values; [exact Em|]. apply py_min_In.
Qed.

Lemma sched_loop_bound D size :
  (1 <= size)%Z ->
  forall fuel st moves st' moves',
    sched_bound D st ->
    sched_loop fuel size st moves = Done (st', moves') ->
    sched_bound D st'
    /\ (~ In FixedIncrement moves -> ~ In FixedIncrement moves').
Proof.
  intros Hsize. induction fuel as [|f IH]; intros st moves st' moves' Hb H;
    rewrite sched_loop_eq in H.
  - destruct (loop_condition st); [discriminate|].
    inversion H; subst. auto.
  - destruct (loop_condition st); [|inversion H; subst; auto].
    destruct (sched_iteration size st) as [[m st1]| |] eqn:E; simpl in H;
      try discriminate.
    destruct (sched_iteration_bound D size st m st1 Hsize Hb E) as [Hb1 Hm].
    destruct m; try (now elim Hm).
    + destruct (IH _ _ _ _ Hb1 H) as [Hb' Hmv]. split; [exact Hb'|].
      intros Hn. apply Hmv. rewrite in_app_iff. simpl.
      intros [Hi | [Hi | []]]; [now apply Hn | discriminate].
    + destruct (IH _ _ _ _ Hb1 H) as [Hb' Hmv]. split; [exact Hb'|].
      intros Hn. apply Hmv. rewrite in_app_iff. simpl.
      intros [Hi | [Hi | []]]; [now apply Hn | discriminate].
    + inversion H; subst. auto.
Qed.

Lemma mapM_keyed {K} (key : Task -> outcome K) ts : forall keyed,
  mapM (fun t => k <- key t ;; Done (k, t)) ts = Done keyed ->
  map snd keyed = ts.
Proof.
  induction ts as [|t ts IH]; intros keyed H; simpl in H.
  - now inversion H.
  - destruct (key t) as [k| |]; simpl in H; try discriminate.
    destruct (mapM _ ts) as [ks| |]; simpl in H; try discriminate.
    inversion H; subst. simpl. f_equal. now apply IH.
Qed.

Lemma sort_tasks_perm starts ts sorted :
  sort_tasks starts ts = Done sorted -> Permutation sorted ts.
Proof.
  unfold sort_tasks. intros H.
  destruct (mapM _ ts) as [keyed| |] eqn:E; simpl in H; try discriminate.
  inversion H; subst; clear H.
  assert (Hk : map snd keyed = ts).
  { apply (mapM_keyed
             (fun t => s <- PyDict.lookup starts (task_id t) ;;
                       Done (s, - estimated_days t))).
    rewrite <- E. clear E. induction ts as [|t ts IH]; simpl; [reflexivity|].
    rewrite IH. destruct (PyDict.lookup starts (task_id t)); reflexivity. }
  rewrite <- Hk. apply Permutation_map. apply sorted_by_perm.
Qed.

Lemma forward_pass_finishes_bound ts v :
  (forall t, In t ts -> 0 <= estimated_days t) ->
  In v (PyDict.values (snd (forward_pass ts))) -> v <= days_of ts.
Proof.
  intros Hd Hv. unfold forward_pass in Hv.
  apply (forward_pass_bound ts [] [] 0) in Hv.
  - lra.
  - exact Hd.
  - lra.
  - intros w [].
Qed.

Lemma days_of_nonneg ts :
  (forall t, In t ts -> 0 <= estimated_days t) -> 0 <= days_of ts.
Proof.
  intros H. unfold days_of. apply Qsum_nonneg.
  intros x Hx. apply in_map_iff in Hx. destruct Hx as [t [<- Ht]]. auto.
Qed.

(** The scheduler's result never exceeds the sum of the durations, and its
    simulation loop never takes the fixed-increment branch. *)
Lemma schedule_trace_bound fuel p v moves :
  (forall t, In t (tasks p) -> 0 <= estimated_days t) ->
  (1 <= team_size p)%Z ->
  schedule_trace fuel p = Done (v, moves) ->
  v <= days_of (tasks p) /\ ~ In FixedIncrement moves.
Proof.
  intros Hd Hsize. unfold schedule_trace.
  pose proof (forward_pass_finishes_bound (tasks p)) as Hfw.
  destruct (forward_pass (tasks p)) as [starts fin]. simpl in Hfw.
  pose proof (days_of_nonneg (tasks p) Hd) as HD.
  destruct (task_count p <=? team_size p)%Z.
  - intros H. inversion H; subst. split; [|tauto].
    apply max_or_zero_le; [exact HD|]. intros w Hw. now apply Hfw.
  - destruct (sort_tasks starts (tasks p)) as [sorted| |] eqn:Es;
      simpl; try discriminate.
    apply sort_tasks_perm in Es.
    set (st0 := {| scheduled_start := []; scheduled_finish := [];
                   active_tasks := []; current_time := 0;
                   remaining_tasks := sorted |}).
    destruct (sched_loop fuel (team_size p) st0 []) as [[st' mv]| |] eqn:El;
      simpl; try discriminate.
    intros H. inversion H; subst; clear H.
    assert (Hb0 : sched_bound (days_of (tasks p)) st0).
    { unfold sched_bound, st0. simpl.
      pose proof (days_of_perm _ _ Es) as Hp.
      split; [|split; [|split]].
      - intros t Ht. apply Hd. now apply (Permutation_in _ Es).
      - lra.
      - lra.
      - intros w []. }
    destruct (sched_loop_bound _ _ Hsize _ _ _ _ _ Hb0 El) as [Hb Hmv].
    split; [|apply Hmv; tauto].
    destruct Hb as (Hpos & HB & Hct & Hfin).
    pose proof (days_of_nonneg _ Hpos) as Hr.
    apply max_or_zero_le; [exact HD|].
    intros w Hw. specialize (Hfin w Hw). lra.
Qed.

(** ** The critical path is at most the sum of the durations *)

Lemma find_task_Some ts k t :
  find_task ts k = Some t -> In t ts /\ task_id t = k.
Proof.
  induction ts as [|x ts IH]; simpl; [discriminate|].
  destruct (String.eqb (task_id x) k) eqn:E.
  - intros H. inversion H; subst. apply String.eqb_eq in E. auto.
  - intros H. destruct (IH H). auto.
Qed.

Lemma find_task_found ts k t : find_task ts k = Some t -> found_by_id ts t.
Proof.
  intros H. unfold found_by_id.
  destruct (find_task_Some ts k t H) as [_ ->]. exact H.
Qed.

Lemma es_lt_irrefl es a : ~ es_lt es a a.
Proof.
  intros (x & y & Hx & Hy & Hlt). rewrite Hx in Hy. inversion Hy; subst.
  now apply (Qlt_irrefl y).
Qed.

Lemma es_lt_trans es a b c : es_lt es a b -> es_lt es b c -> es_lt es a c.
Proof.
  intros (x & y & Hx & Hy & Hxy) (y' & z & Hy' & Hz & Hyz).
  rewrite Hy in Hy'. inversion Hy'; subst.
  exists x, z. repeat split; auto. now apply Qlt_trans with y'.
Qed.

Lemma find_predecessor_lt p es cur deps dep :
  positive_durations p ->
  find_predecessor p es cur deps = Done (Some dep) ->
  es_lt es dep (task_id cur).
Proof.
  intros Hpos. induction deps as [|d deps IH]; simpl; [discriminate|].
  unfold PyDict.lookup, attr, get_task_by_id.
  destruct (PyDict.get es d) as [x|] eqn:Ex; simpl; [|discriminate].
  destruct (find_task (tasks p) d) as [t|] eqn:Et; simpl; [|discriminate].
  destruct (PyDict.get es (task_id cur)) as [y|] eqn:Ey; simpl;
    [|discriminate].
  destruct (Qeq_bool (x + estimated_days t) y) eqn:Eq; [|exact IH].
  intros H. inversion H; subst. exists x, y. repeat split; auto.
  apply Qeq_bool_iff in Eq. apply find_task_Some in Et.
  pose proof (Hpos t (proj1 Et)). lra.
Qed.

Lemma backtrack_path p es :
  positive_durations p ->
  forall fuel cur acc path,
    backtrack fuel p es cur acc = Done path ->
    NoDup (map task_id acc) ->
    (forall t, In t acc -> found_by_id (tasks p) t) ->
    (forall cid t, cur = Some cid -> In t acc -> es_lt es cid (task_id t)) ->
    NoDup (map task_id path)
    /\ (forall t, In t path -> found_by_id (tasks p) t).
Proof.
  intros Hpos. induction fuel as [|f IH]; intros cur acc path H Hnd Hf Hlt;
    rewrite backtrack_eq in H.
  - destruct cur as [cid|]; [|inversion H; subst; auto].
    destruct (String.eqb cid ""); [inversion H; subst; auto | discriminate].
  - destruct cur as [cid|]; [|inversion H; subst; auto].
    destruct (String.eqb cid ""); [inversion H; subst; auto|].
    unfold attr, get_task_by_id in H.
    destruct (find_task (tasks p) cid) as [t|] eqn:Et; cbn [bind] in H;
      [|discriminate].
    pose proof (find_task_found _ _ _ Et) as Hft.
    destruct (find_task_Some _ _ _ Et) as [Hin Hid].
    assert (Hnd' : NoDup (map task_id (t :: acc))).
    { simpl. constructor; [|exact Hnd]. intros Hc.
      apply in_map_iff in Hc. destruct Hc as [t' [Hid' Ht']].
      apply (es_lt_irrefl es cid).
      pose proof (Hlt cid t' eq_refl Ht') as Hx.
      rewrite Hid', Hid in Hx. exact Hx. }
    assert (Hf' : forall t', In t' (t :: acc) -> found_by_id (tasks p) t').
    { intros t' [<- | Ht']; auto. }
    destruct (dependencies t) as [|d ds] eqn:Ed.
    + inversion H; subst. auto.
    + destruct (find_predecessor p es t (d :: ds)) as [next| |] eqn:En;
        cbn [bind] in H; try discriminate.
      apply (IH next (t :: acc) path H Hnd' Hf').
      intros dep t' -> Ht'.
      pose proof (find_predecessor_lt p es t (d :: ds) dep Hpos En) as Hd.
      rewrite Hid in Hd. destruct Ht' as [<- | Ht'].
      * now rewrite Hid.
      * apply es_lt_trans with cid; [exact Hd|]. now apply Hlt.
Qed.

Lemma NoDup_map_filter {A B} (f : A -> B) (h : A -> bool) l :
  NoDup (map f l) -> NoDup (map f (filter h l)).
Proof.
  induction l as [|a l IH]; simpl; intros H; [constructor|].
  inversion H as [|x xs Hn Hnd]; subst.
  destruct (h a); simpl; [|now apply IH].
  constructor; [|now apply IH].
  intros Hc. apply Hn. apply in_map_iff in Hc.
  destruct Hc as [b [Hb Hin]]. apply filter_In in Hin.
  apply in_map_iff. exists b. tauto.
Qed.

Lemma days_split_at k dx l :
  NoDup (map task_id l) ->
  (forall t, In t l -> task_id t = k -> estimated_days t == dx) ->
  0 <= dx ->
  days_of l
  <= dx + days_of (filter (fun t => negb (String.eqb (task_id t) k)) l).
Proof.
  intros Hnd Hk Hdx. induction l as [|t l IH]; unfold days_of in *; simpl.
  - lra.
  - inversion Hnd as [|x xs Hn Hnd']; subst.
    assert (IH' := IH Hnd' (fun t' Ht' => Hk t' (or_intror Ht'))).
    destruct (String.eqb (task_id t) k) eqn:E; simpl.
    + apply String.eqb_eq in E.
      pose proof (Hk t (or_introl eq_refl) E) as Ht.
      assert (Hsame : filter (fun t => negb (String.eqb (task_id t) k)) l = l).
      { apply forallb_filter_id. apply forallb_forall. intros t' Ht'.
        rewrite negb_true_iff. apply String.eqb_neq. intros E'.
        apply Hn. apply in_map_iff. exists t'. split; [congruence|exact Ht']. }
      rewrite Hsame. lra.
    + lra.
Qed.

Lemma distinct_found_days ts : forall l,
  (forall t, In t ts -> 0 <= estimated_days t) ->
  NoDup (map task_id l) ->
  (forall t, In t l -> found_by_id ts t) ->
  days_of l <= days_of ts.
Proof.
  induction ts as [|x ts IH]; intros l Hd Hnd Hf.
  - destruct l as [|t l]; [apply Qle_refl|].
    specialize (Hf t (or_introl eq_refl)). discriminate Hf.
  - set (l' := filter (fun t => negb (String.eqb (task_id t) (task_id x))) l).
    assert (H1 : days_of l <= estimated_days x + days_of l').
    { apply days_split_at; [exact Hnd | | apply Hd; now left].
      intros t Ht Hid. specialize (Hf t Ht). unfold found_by_id in Hf.
      simpl in Hf. rewrite <- Hid, String.eqb_refl in Hf.
      inversion Hf; subst. reflexivity. }
    assert (H2 : days_of l' <= days_of ts).
    { apply IH.
      - intros t Ht. apply Hd. now right.
      - now apply NoDup_map_filter.
      - intros t Ht. apply filter_In in Ht. destruct Ht as [Ht Hne].
        specialize (Hf t Ht). unfold found_by_id in *. simpl in Hf.
        rewrite negb_true_iff in Hne. rewrite String.eqb_sym in Hne.
        now rewrite Hne in Hf. }
    unfold days_of in *. simpl. lra.
Qed.

Lemma critical_path_days fuel p path :
  positive_durations p ->
  get_critical_path fuel p = Done path ->
  days_of path <= days_of (tasks p).
Proof.
  intros Hpos. unfold get_critical_path.
  destruct (kahn_init p) as [st0| |]; simpl; try discriminate.
  destruct (kahn_loop fuel p st0) as [st| |]; simpl; try discriminate.
  destruct (mapM _ (PyDict.keys (earliest_start st))) as [keyed| |]; simpl;
    try discriminate.
  destruct keyed as [|k ks]; [discriminate|].
  intros H. apply backtrack_path in H; auto.
  - destruct H as [Hnd Hf]. apply distinct_found_days; auto.
    intros t Ht. apply Qlt_le_weak. now apply Hpos.
  - constructor.
  - intros t [].
  - intros cid t _ [].
Qed.

(** ** Sequential against parallel timeline, without rounding *)

Lemma risk_multiplier_pos p : 0 < risk_multiplier p.
Proof.
  unfold risk_multiplier, get_risk_multiplier.
  repeat match goal with
         | |- context [if ?b then _ else _] => destruct b
         end; reflexivity.
Qed.

(** On exact numbers the parallel estimate of a project with positive
    durations is at most the sequential one. *)
Lemma parallel_le_sequential fuel p v :
  positive_durations p ->
  (1 <= team_size p)%Z ->
  calculate_parallel_timeline fuel p = Done v ->
  v <= calculate_sequential_timeline p.
Proof.
  intros Hpos Hsize. unfold calculate_parallel_timeline,
    calculate_sequential_timeline, total_estimated_days.
  pose proof (risk_multiplier_pos p) as Hrm.
  destruct (tasks p) as [|t0 ts0] eqn:Ets.
  - intros H. inversion H; subst. unfold py_sum. simpl. lra.
  - rewrite <- Ets.
    destruct (get_critical_path fuel p) as [path| |] eqn:Ecp; simpl;
      try discriminate.
    unfold simulate_resource_constrained_schedule.
    destruct (schedule_trace fuel p) as [[tl moves]| |] eqn:Est; simpl;
      try discriminate.
    intros H. inversion H; subst; clear H.
    assert (Hnn : forall t, In t (tasks p) -> 0 <= estimated_days t)
      by (intros t Ht; apply Qlt_le_weak; now apply Hpos).
    destruct (schedule_trace_bound fuel p tl moves Hnn Hsize Est) as [Htl _].
    pose proof (critical_path_days fuel p path Hpos Ecp) as Hcp.
    unfold days_of in *. rewrite !py_sum_Qsum.
    apply Q.max_lub; apply Qmult_le_compat_r; auto using Qlt_le_weak.
Qed.

(** ** A finite set closed under "has a dependency in the set" holds a cycle *)

Section Pigeonhole.

Variable g : PyDict.t (list string).

Lemma chain_reach u l : chain g u l -> forall x, In x l -> reach g u x.
Proof.
  intros H. induction H as [u | u v l He Hc IH]; intros x Hx; [contradiction|].
  destruct Hx as [<- | Hx]; [now apply reach_edge|].
  eapply reach_step; [exact He | now apply IH].
Qed.

Lemma chain_suffix l1 : forall u x l2,
  chain g u (l1 ++ x :: l2) -> chain g x l2.
Proof.
  induction l1 as [|a l1 IH]; intros u x l2 H; simpl in H;
    inversion H; subst; [assumption | eauto].
Qed.

Lemma chain_grow (S : list string) :
  (forall u, In u S -> exists v, In v S /\ edge g u v) ->
  forall k u, In u S ->
    exists l, List.length l = k /\ chain g u l /\ incl l S.
Proof.
  intros Hnext. induction k as [|k IH]; intros u Hu.
  - exists []. repeat split; [constructor | intros x []].
  - destruct (Hnext u Hu) as [v [Hv He]].
    destruct (IH v Hv) as [l [Hl [Hc Hi]]].
    exists (v :: l). simpl. repeat split; [congruence | now constructor|].
    intros x [<- | Hx]; auto.
Qed.

Lemma repeated_or_NoDup (l : list string) :
  NoDup l \/ exists x l1 l2 l3, l = (l1 ++ x :: l2 ++ x :: l3)%list.
Proof.
  induction l as [|a l IH]; [left; constructor|].
  destruct IH as [Hnd | (x & l1 & l2 & l3 & ->)].
  - destruct (in_dec string_dec a l) as [Hin | Hn].
    + right. apply in_split in Hin. destruct Hin as (l2 & l3 & ->).
      exists a, [], l2, l3. reflexivity.
    + left. now constructor.
  - right. exists x, (a :: l1), l2, l3. reflexivity.
Qed.

Lemma closed_set_cyclic (S : list string) :
  S <> [] ->
  (forall u, In u S -> exists v, In v S /\ edge g u v) ->
  cyclic g.
Proof.
  intros Hne Hnext. destruct S as [|u0 S']; [congruence|].
  destruct (chain_grow (u0 :: S') Hnext (Datatypes.S (List.length (u0 :: S')))
                       u0 (or_introl eq_refl)) as [l [Hl [Hc Hi]]].
  destruct (repeated_or_NoDup l) as [Hnd | (x & l1 & l2 & l3 & ->)].
  - pose proof (NoDup_incl_length Hnd Hi). lia.
  - exists x. apply chain_suffix in Hc.
    apply (chain_reach x _ Hc). apply in_or_app. right. now left.
Qed.

End Pigeonhole.

(** ** The simulation loop on a well-formed project *)

Lemma unique_task ts a b :
  NoDup (map task_id ts) -> In a ts -> In b ts ->
  task_id a = task_id b -> a = b.
Proof.
  induction ts as [|x ts IH]; intros Hnd Ha Hb E; [contradiction|].
  simpl in Hnd. inversion Hnd as [|y l Hn Hnd']; subst.
  destruct Ha as [-> | Ha]; destruct Hb as [-> | Hb]; auto.
  - exfalso. apply Hn. rewrite E. now apply in_map.
  - exfalso. apply Hn. rewrite <- E. now apply in_map.
Qed.

Lemma Task_eqb_id a b : Task_eqb a b = true -> task_id a = task_id b.
Proof.
  unfold Task_eqb. rewrite !andb_true_iff. intros [_ H].
  now apply String.eqb_eq.
Qed.

Lemma Task_eqb_refl a : Task_eqb a a = true.
Proof.
  unfold Task_eqb. rewrite !String.eqb_refl, !Qeq_bool_refl.
  destruct (list_eq_dec string_dec (dependencies a) (dependencies a));
    [reflexivity | congruence].
Qed.

Lemma list_remove_perm x l :
  In x l ->
  (forall y, In y l -> Task_eqb y x = true -> y = x) ->
  exists l', list_remove x l = Done l' /\ Permutation l (x :: l').
Proof.
  induction l as [|y r IH]; intros Hin Huniq; [contradiction|]. simpl.
  destruct (Task_eqb y x) eqn:E.
  - rewrite (Huniq y (or_introl eq_refl) E). now exists r.
  - destruct Hin as [-> | Hin]; [now rewrite Task_eqb_refl in E|].
    destruct (IH Hin (fun z Hz => Huniq z (or_intror Hz))) as [r' [-> Hp]].
    simpl. exists (y :: r'). split; [reflexivity|].
    rewrite Hp. apply perm_swap.
Qed.

Lemma start_tasks_run p :
  NoDup (map task_id (tasks p)) ->
  forall cs st,
    NoDup cs ->
    incl cs (remaining_tasks st) ->
    incl (remaining_tasks st) (tasks p) ->
    exists st1,
      foldM start_task cs st = Done st1
      /\ Permutation (remaining_tasks st) (cs ++ remaining_tasks st1)
      /\ active_tasks st1 = (active_tasks st ++ cs)%list
      /\ current_time st1 = current_time st
      /\ (forall t, In t cs ->
                    PyDict.get (scheduled_finish st1) (task_id t)
                    = Some (current_time st + estimated_days t))
      /\ (forall k, ~ In k (map task_id cs) ->
                    PyDict.get (scheduled_finish st1) k
                    = PyDict.get (scheduled_finish st) k).
Proof.
  intros Hids. induction cs as [|c cs IH]; intros st Hnd Hcs Hrem.
  - exists st. simpl. split; [reflexivity|]. split; [reflexivity|].
    split; [now rewrite app_nil_r|]. split; [reflexivity|].
    split; [intros t [] | reflexivity].
  - inversion Hnd as [|x l Hnc Hnd']; subst.
    assert (Hc : In c (remaining_tasks st)) by (apply Hcs; now left).
    destruct (list_remove_perm c (remaining_tasks st) Hc) as [rem' [Er Hp]].
    { intros y Hy E. apply (unique_task (tasks p)); auto.
      now apply Task_eqb_id. }
    simpl. unfold start_task at 1. rewrite Er. simpl.
    set (sta := {| scheduled_start := _; scheduled_finish := _;
                   active_tasks := _; current_time := _;
                   remaining_tasks := rem' |}).
    assert (Hcs' : incl cs (remaining_tasks sta)).
    { intros t Ht. simpl.
      assert (Hin : In t (c :: rem')).
      { apply (Permutation_in _ Hp). apply Hcs. now right. }
      destruct Hin as [<- | Hin]; [contradiction | exact Hin]. }
    assert (Hrem' : incl (remaining_tasks sta) (tasks p)).
    { intros t Ht. apply Hrem. apply (Permutation_in _ (Permutation_sym Hp)).
      now right. }
    destruct (IH sta Hnd' Hcs' Hrem') as (st1 & E1 & Hp1 & Ha1 & Ht1 & Hg1 & Ho1).
    exists st1. split; [exact E1|]. split.
    { rewrite Hp. simpl. constructor. exact Hp1. }
    split.
    { rewrite Ha1. simpl. now rewrite <- app_assoc. }
    split; [exact Ht1|]. split.
    + intros t [<- | Ht]; [|now apply Hg1].
      rewrite Ho1; [apply get_set_same|].
      intros Hin. apply in_map_iff in Hin. destruct Hin as [t' [E Ht']].
      apply Hnc. replace c with t'; [exact Ht'|].
      apply (unique_task (tasks p)); auto.
    + intros k Hk. rewrite Ho1.
      * simpl. apply get_set_other. intros E. apply Hk. now left.
      * intros Hin. apply Hk. now right.
Qed.

Lemma forallb_false_exists {A} (f : A -> bool) l :
  forallb f l = false -> exists x, In x l /\ f x = false.
Proof.
  induction l as [|a l IH]; simpl; [discriminate|].
  destruct (f a) eqn:E; simpl.
  - intros H. destruct (IH H) as [x [Hx Hf]]. eauto.
  - intros _. eauto.
Qed.

Lemma filter_length_drop {A} (f : A -> bool) l a :
  In a l -> f a = false -> (List.length (filter f l) < List.length l)%nat.
Proof.
  intros Hin Hf. induction l as [|b l IH]; [contradiction|]. simpl.
  pose proof (List.filter_length_le f l).
  destruct Hin as [-> | Hin].
  - rewrite Hf. lia.
  - specialize (IH Hin). destruct (f b); simpl; lia.
Qed.

Lemma filterM_running st :
  (forall a, In a (active_tasks st) ->
             PyDict.get (scheduled_finish st) (task_id a) <> None) ->
  filterM (fun t => f <- PyDict.lookup (scheduled_finish st) (task_id t) ;;
                    Done (Qlt_bool (current_time st) f))
          (active_tasks st)
  = Done (running st).
Proof.
  unfold running. induction (active_tasks st) as [|a l IH]; intros H; simpl.
  - reflexivity.
  - rewrite IH by (intros b Hb; apply H; now right).
    unfold PyDict.lookup, finish_of, PyDict.get_default.
    destruct (PyDict.get (scheduled_finish st) (task_id a)) as [f|] eqn:E.
    + reflexivity.
    + now elim (H a (or_introl eq_refl)).
Qed.

Lemma mapM_finishes st l :
  (forall a, In a l -> PyDict.get (scheduled_finish st) (task_id a) <> None) ->
  mapM (fun t => PyDict.lookup (scheduled_finish st) (task_id t)) l
  = Done (map (finish_of st) l).
Proof.
  induction l as [|a l IH]; intros H; simpl; [reflexivity|].
  rewrite IH by (intros b Hb; apply H; now right).
  unfold PyDict.lookup, finish_of, PyDict.get_default.
  destruct (PyDict.get (scheduled_finish st) (task_id a)) as [f|] eqn:E.
  - reflexivity.
  - now elim (H a (or_introl eq_refl)).
Qed.

(** On a well-formed project the loop is never blocked: when nothing runs,
    some remaining task has all its dependencies complete. *)
Lemma never_blocked p st :
  well_formed p ->
  sched_wf p st ->
  running st = [] ->
  (forall t, In t (remaining_tasks st) ->
             deps_complete (scheduled_finish st) (current_time st) t = false) ->
  remaining_tasks st = [].
Proof.
  intros (Hids & Hres & Hacyc & Hpos & Hsize)
         (Hnd & Hrem & Hact & Hpart & Hdone & Hkeys) Hrun Hblocked.
  assert (Hcontra : remaining_tasks st <> [] -> False).
  { intros Hne. apply Hacyc.
    apply (closed_set_cyclic (dependency_graph p)
                             (map task_id (remaining_tasks st))).
    { intros E. apply map_eq_nil in E. contradiction. }
    intros u Hu. apply in_map_iff in Hu. destruct Hu as [t [<- Ht]].
    specialize (Hblocked t Ht).
    apply forallb_false_exists in Hblocked.
    destruct Hblocked as [dep [Hdep Hinc]].
    assert (Htin : In t (tasks p)) by now apply Hrem.
    exists dep. split; [|now apply edge_of_unique_ids].
    pose proof (Hres t dep Htin Hdep) as Hd. apply in_map_iff in Hd.
    destruct Hd as [td [Hid Htd]]. subst dep.
    destruct (PyDict.get (scheduled_finish st) (task_id td)) as [f|] eqn:Eg.
    + exfalso.
      assert (Hle : f <= current_time st).
      { destruct (Hdone td f Htd Eg) as [Ha | Hle]; [|exact Hle].
        assert (Hnr : ~ In td (running st)) by (rewrite Hrun; tauto).
        unfold running in Hnr. rewrite filter_In in Hnr.
        destruct (Qlt_bool (current_time st) (finish_of st td)) eqn:Eq;
          [tauto|].
        apply Qlt_bool_false in Eq. unfold finish_of, PyDict.get_default in Eq.
        now rewrite Eg in Eq. }
      apply Qle_bool_iff in Hle. congruence.
    + apply in_map. now apply Hpart. }
  destruct (remaining_tasks st); [reflexivity|].
  exfalso. apply Hcontra. discriminate.
Qed.

Lemma NoDup_app_disjoint {A} (l1 l2 : list A) x :
  NoDup (l1 ++ l2) -> In x l1 -> In x l2 -> False.
Proof.
  induction l1 as [|a l1 IH]; simpl; intros Hnd H1 H2; [contradiction|].
  inversion Hnd as [|y l Hn Hnd']; subst. destruct H1 as [-> | H1].
  - apply Hn. apply in_or_app. now right.
  - now apply IH.
Qed.

(** One iteration on a well-formed project: it either leaves the loop or
    advances to the next completion, keeping the invariant and decreasing
    the measure. *)
Lemma sched_iteration_progress p st :
  well_formed p ->
  sched_wf p st ->
  exists m st',
    sched_iteration (team_size p) st = Done (m, st')
    /\ (m = Break
        \/ (m = NextCompletion /\ sched_wf p st'
            /\ (sched_measure st' < sched_measure st)%nat)).
Proof.
  intros Hwf Hst.
  pose proof Hwf as (Hids & Hres & Hacyc & Hpos & Hsize).
  pose proof Hst as (Hnd & Hrem & Hact & Hpart & Hdone & Hkeys).
  unfold sched_iteration. rewrite (filterM_running st Hkeys). cbn [bind].
  set (can_start :=
         filter (fun task =>
                   deps_complete (scheduled_finish st) (current_time st) task
                   && (Z.of_nat (List.length (running st)) <? team_size p)%Z)
                (remaining_tasks st)).
  set (mid := {| scheduled_start := scheduled_start st;
                 scheduled_finish := scheduled_finish st;
                 active_tasks := running st;
                 current_time := current_time st;
                 remaining_tasks := remaining_tasks st |}).
  destruct (start_tasks_run p Hids can_start mid)
    as (st1 & E1 & Hp1 & Ha1 & Ht1 & Hg1 & Ho1).
  { now apply NoDup_filter. }
  { intros t Ht. apply filter_In in Ht. simpl. tauto. }
  { exact Hrem. }
  rewrite E1. cbn [bind].
  cbn [mid remaining_tasks active_tasks current_time scheduled_finish]
    in Hp1, Ha1, Ht1, Hg1, Ho1.
  assert (K0 : forall c, In c can_start ->
                 In c (remaining_tasks st) /\ In c (tasks p)
                 /\ PyDict.get (scheduled_finish st) (task_id c) = None).
  { intros c Hc. apply filter_In in Hc. destruct Hc as [Hc _].
    split; [exact Hc|]. split; [now apply Hrem|].
    apply Hpart; [now apply Hrem | exact Hc]. }
  assert (K1 : forall t, In t (tasks p) ->
                 In (task_id t) (map task_id can_start) -> In t can_start).
  { intros t Ht Hin. apply in_map_iff in Hin. destruct Hin as [c [E Hc]].
    replace t with c; [exact Hc|].
    apply (unique_task (tasks p)); auto. now apply K0. }
  assert (Hrun : incl (running st) (active_tasks st)).
  { intros a Ha. unfold running in Ha. apply filter_In in Ha. tauto. }
  assert (KA : forall a, In a (active_tasks st) ->
                 ~ In (task_id a) (map task_id can_start)).
  { intros a Ha Hin. apply (Hkeys a Ha).
    apply K0. apply K1; [now apply Hact | exact Hin]. }
  assert (K2 : forall a, In a (active_tasks st1) ->
                 PyDict.get (scheduled_finish st1) (task_id a) <> None
                 /\ current_time st < finish_of st1 a).
  { intros a Ha. rewrite Ha1 in Ha. apply in_app_or in Ha.
    unfold finish_of, PyDict.get_default.
    destruct Ha as [Ha | Ha].
    - rewrite (Ho1 (task_id a)) by (apply KA; now apply Hrun).
      split; [apply Hkeys; now apply Hrun|].
      unfold running in Ha. apply filter_In in Ha. destruct Ha as [_ Hlt].
      apply Qlt_bool_iff in Hlt. exact Hlt.
    - rewrite (Hg1 a Ha). split; [discriminate|].
      pose proof (Hpos a (proj1 (proj2 (K0 a Ha)))). lra. }
  destruct (active_tasks st1) as [|a0 act] eqn:Eact.
  - symmetry in Ha1. apply app_eq_nil in Ha1. destruct Ha1 as [Hr0 Hc0].
    assert (Hst1 : st1 = mid).
    { rewrite Hc0 in E1. simpl in E1. now inversion E1. }
    assert (Hnone : remaining_tasks st = []).
    { apply (never_blocked p st Hwf Hst Hr0). intros t Ht.
      destruct (deps_complete (scheduled_finish st) (current_time st) t)
        eqn:Ed; [|reflexivity].
      exfalso. assert (Hin : In t can_start).
      { unfold can_start. apply filter_In. split; [exact Ht|].
        rewrite Ed, Hr0. simpl. apply Z.ltb_lt. lia. }
      rewrite Hc0 in Hin. exact Hin. }
    rewrite Hst1. cbn [mid remaining_tasks]. rewrite Hnone.
    exists Break. eexists. split; [reflexivity | now left].
  - rewrite (mapM_finishes st1 (a0 :: act))
      by (intros a Ha; now apply K2).
    cbn [bind map].
    set (now' := py_min (finish_of st1 a0) (map (finish_of st1) act)).
    assert (Hmin : exists am, In am (a0 :: act) /\ finish_of st1 am = now').
    { pose proof (py_min_In (map (finish_of st1) act) (finish_of st1 a0))
        as Hin.
      change (In now' (map (finish_of st1) (a0 :: act))) in Hin.
      apply in_map_iff in Hin. destruct Hin as [am [E Ham]]. eauto. }
    destruct Hmin as [am [Ham Efin]].
    assert (Hnow : current_time st < now').
    { rewrite <- Efin. now apply K2. }
    assert (Hnd1 : NoDup (can_start ++ remaining_tasks st1))
      by (apply (Permutation_NoDup Hp1 Hnd)).
    assert (Hrem1 : forall t, In t (remaining_tasks st1) ->
                              In t (remaining_tasks st) /\ ~ In t can_start).
    { intros t Ht. split.
      - apply (Permutation_in _ (Permutation_sym Hp1)).
        apply in_or_app. now right.
      - intros Hc. now apply (NoDup_app_disjoint _ _ t Hnd1). }
    exists NextCompletion. eexists. split; [reflexivity|].
    right. split; [reflexivity|]. split.
    + unfold sched_wf.
      cbn [remaining_tasks active_tasks current_time scheduled_finish].
      split; [now apply NoDup_app_remove_l in Hnd1|].
      split; [intros t Ht; apply Hrem; now apply Hrem1|].
      split.
      { intros t Ht. rewrite Ha1 in Ht. apply in_app_or in Ht.
        destruct Ht as [Ht | Ht]; [now apply Hact, Hrun | now apply K0]. }
      split.
      { intros t Ht. split.
        - intros Hin. destruct (Hrem1 t Hin) as [Hr Hnc].
          rewrite Ho1; [now apply Hpart|].
          intros Hid. apply Hnc. now apply K1.
        - intros Hnone.
          assert (Hnc : ~ In t can_start).
          { intros Hc. rewrite (Hg1 t Hc) in Hnone. discriminate. }
          assert (Hnid : ~ In (task_id t) (map task_id can_start))
            by (intros Hid; apply Hnc; now apply K1).
          rewrite (Ho1 _ Hnid) in Hnone. apply Hpart in Hnone; [|exact Ht].
          apply (Permutation_in _ Hp1) in Hnone. apply in_app_or in Hnone.
          tauto. }
      split.
      { intros t f Ht Hf.
        destruct (in_dec string_dec (task_id t) (map task_id can_start))
          as [Hid | Hnid].
        - left. rewrite Ha1. apply in_or_app. right. now apply K1.
        - rewrite (Ho1 _ Hnid) in Hf.
          destruct (Hdone t f Ht Hf) as [Ha | Hle]; [|right; lra].
          destruct (Qlt_bool (current_time st) (finish_of st t)) eqn:Eq.
          + left. rewrite Ha1. apply in_or_app. left.
            unfold running. apply filter_In. now split.
          + right. apply Qlt_bool_false in Eq.
            unfold finish_of, PyDict.get_default in Eq. rewrite Hf in Eq.
            lra. }
      intros t Ht. now apply K2.
    + unfold sched_measure, running.
      cbn [remaining_tasks active_tasks current_time scheduled_finish].
      assert (Hdrop :
                (List.length
                   (filter (fun a => Qlt_bool now' (finish_of st1 a))
                           (a0 :: act))
                 < List.length (a0 :: act))%nat).
      { apply filter_length_drop with am; [exact Ham|].
        rewrite Efin. apply Qlt_bool_false. apply Qle_refl. }
      pose proof (Permutation_length Hp1) as Hl1. rewrite length_app in Hl1.
      assert (Hl2 : List.length (a0 :: act)
                    = (List.length (running st) + List.length can_start)%nat)
        by (rewrite Ha1; apply length_app).
      unfold running in Hl2.
      change (fun a => Qlt_bool now' (finish_of
                {| scheduled_start := scheduled_start st1;
                   scheduled_finish := scheduled_finish st1;
                   active_tasks := a0 :: act;
                   current_time := now';
                   remaining_tasks := remaining_tasks st1 |} a))
        with (fun a => Qlt_bool now' (finish_of st1 a)).
      lia.
Qed.

Lemma sched_loop_returns p :
  well_formed p ->
  forall fuel st moves,
    sched_wf p st ->
    (sched_measure st < fuel)%nat ->
    exists st' moves',
      sched_loop fuel (team_size p) st moves = Done (st', moves').
Proof.
  intros Hwf. induction fuel as [|f IH]; intros st moves Hst Hm; [lia|].
  rewrite sched_loop_eq. destruct (loop_condition st); [|eauto].
  destruct (sched_iteration_progress p st Hwf Hst)
    as (m & st1 & -> & [-> | (-> & Hst1 & Hlt)]); cbn [bind fst snd].
  - eauto.
  - apply IH; [exact Hst1 | lia].
Qed.

Lemma forward_pass_starts ts : forall starts fin t,
  (In t ts \/ PyDict.get starts (task_id t) <> None) ->
  PyDict.get
    (fst (fold_left forward_step ts (starts, fin)))
    (task_id t) <> None.
Proof.
  induction ts as [|x ts IH]; intros starts fin t H; simpl.
  - destruct H as [[] | H]. exact H.
  - apply IH. destruct H as [[<- | H] | H].
    + right. rewrite get_set_same. discriminate.
    + now left.
    + right. rewrite get_set. destruct (String.eqb (task_id t) (task_id x));
        [discriminate | exact H].
Qed.

Lemma forward_pass_has_starts ts t :
  In t ts -> PyDict.get (fst (forward_pass ts)) (task_id t) <> None.
Proof.
  intros H. unfold forward_pass. apply forward_pass_starts. now left.
Qed.

Lemma sort_tasks_done starts ts :
  (forall t, In t ts -> PyDict.get starts (task_id t) <> None) ->
  exists sorted, sort_tasks starts ts = Done sorted.
Proof.
  intros H. unfold sort_tasks.
  assert (Hm : exists keyed,
             mapM (fun t => s <- PyDict.lookup starts (task_id t) ;;
                            Done ((s, - estimated_days t), t)) ts
             = Done keyed).
  { induction ts as [|t ts IH]; simpl; [eauto|].
    destruct IH as [keyed ->]; [intros x Hx; apply H; now right|].
    unfold PyDict.lookup.
    destruct (PyDict.get starts (task_id t)) as [s|] eqn:E.
    - simpl. eauto.
    - now elim (H t (or_introl eq_refl)). }
  destruct Hm as [keyed ->]. simpl. eauto.
Qed.

(** On a well-formed project the scheduler returns once the fuel exceeds
    twice the task count. *)
Lemma schedule_trace_returns fuel p :
  well_formed p ->
  (2 * List.length (tasks p) < fuel)%nat ->
  exists v moves, schedule_trace fuel p = Done (v, moves).
Proof.
  intros Hwf Hfuel. unfold schedule_trace.
  pose proof (forward_pass_has_starts (tasks p)) as Hst.
  destruct (forward_pass (tasks p)) as [starts fin]. simpl in Hst.
  destruct (task_count p <=? team_size p)%Z; [eauto|].
  destruct (sort_tasks_done starts (tasks p) Hst) as [sorted Es].
  rewrite Es. cbn [bind].
  pose proof (sort_tasks_perm _ _ _ Es) as Hp.
  set (st0 := {| scheduled_start := []; scheduled_finish := [];
                 active_tasks := []; current_time := 0;
                 remaining_tasks := sorted |}).
  assert (Hwf0 : sched_wf p st0).
  { destruct Hwf as (Hids & _). unfold sched_wf, st0. simpl.
    split.
    { apply (Permutation_NoDup (Permutation_sym Hp)).
      now apply NoDup_map_inv in Hids. }
    split; [intros t Ht; now apply (Permutation_in _ Hp)|].
    split; [intros t []|].
    split.
    { intros t Ht. split; [reflexivity|]. intros _.
      now apply (Permutation_in _ (Permutation_sym Hp)). }
    split; [discriminate | intros t []]. }
  destruct (sched_loop_returns p Hwf fuel st0 [] Hwf0) as (st' & mv & ->).
  { unfold sched_measure, running, st0. simpl.
    rewrite (Permutation_length Hp). lia. }
  simpl. eauto.
Qed.

(** ** The critical path on a well-formed project *)

Lemma find_task_ids ts k :
  In k (map task_id ts) -> exists t, find_task ts k = Some t.
Proof.
  induction ts as [|x ts IH]; simpl; [contradiction|].
  destruct (String.eqb (task_id x) k) eqn:E; [eauto|].
  intros [H | H]; [|now apply IH].
  subst k. now rewrite String.eqb_refl in E.
Qed.

Lemma positive_set (d : PyDict.t Z) k v v' :
  PyDict.get d k = Some v ->
  (positive_entries (PyDict.set d k v') + (if (0 <? v)%Z then 1 else 0)
   = positive_entries d + (if (0 <? v')%Z then 1 else 0))%nat.
Proof.
  unfold positive_entries. induction d as [|[k0 v0] r IH]; simpl;
    [discriminate|].
  destruct (String.eqb k k0) eqn:E; simpl.
  - intros H. inversion H; subst.
    destruct (0 <? v)%Z, (0 <? v')%Z; simpl; lia.
  - intros H. specialize (IH H). destruct (0 <? v0)%Z; simpl; lia.
Qed.

Lemma get_set_some {V} (d : PyDict.t V) k k' v :
  PyDict.get d k' <> None -> PyDict.get (PyDict.set d k v) k' <> None.
Proof.
  intros H. rewrite get_set. destruct (String.eqb k' k); [discriminate|exact H].
Qed.

Lemma keys_set_present {V} (d : PyDict.t V) k v k' :
  PyDict.get d k <> None ->
  In k' (PyDict.keys (PyDict.set d k v)) -> In k' (PyDict.keys d).
Proof.
  intros Hk H. apply keys_set_In in H. destruct H as [-> | H]; [|exact H].
  apply contains_keys. unfold PyDict.contains.
  destruct (PyDict.get d k); [reflexivity | congruence].
Qed.

Lemma relax_ok p cid ctask st task :
  kahn_inv p st ->
  In task (tasks p) ->
  In cid (map task_id (tasks p)) ->
  exists st',
    relax cid (Some ctask) st task = Done st'
    /\ kahn_inv p st'
    /\ (kahn_potential st' <= kahn_potential st)%nat.
Proof.
  intros (Hdeg & Hes & Hkeys & Hq) Htask Hcid. unfold relax.
  destruct (PyStr.mem cid (dependencies task));
    [|exists st; repeat split; auto].
  apply in_map_iff in Hcid. destruct Hcid as [tc [<- Htc]].
  unfold PyDict.lookup, attr.
  destruct (PyDict.get (earliest_start st) (task_id task)) as [et|] eqn:E1;
    [|now elim (Hes task Htask)].
  destruct (PyDict.get (earliest_start st) (task_id tc)) as [ec|] eqn:E2;
    [|now elim (Hes tc Htc)].
  destruct (PyDict.get (in_degree st) (task_id task)) as [deg|] eqn:E3;
    [|now elim (Hdeg task Htask)].
  cbn [bind]. eexists. split; [reflexivity|]. split.
  - unfold kahn_inv. cbn [in_degree earliest_start queue].
    split; [intros t Ht; apply get_set_some; now apply Hdeg|].
    split; [intros t Ht; apply get_set_some; now apply Hes|].
    split.
    + intros k Hk. apply Hkeys. eapply keys_set_present; [|exact Hk].
      now apply Hes.
    + intros k Hk. destruct (deg - 1 =? 0)%Z; [|now apply Hq].
      apply in_app_or in Hk. destruct Hk as [Hk | [<- | []]];
        [now apply Hq | now apply in_map].
  - unfold kahn_potential. cbn [in_degree queue].
    pose proof (positive_set (in_degree st) (task_id task) deg (deg - 1) E3)
      as Hp.
    destruct (deg - 1 =? 0)%Z eqn:Ez.
    + apply Z.eqb_eq in Ez. rewrite length_app. simpl.
      replace (0 <? deg)%Z with true in Hp by (symmetry; apply Z.ltb_lt; lia).
      replace (0 <? deg - 1)%Z with false in Hp
        by (symmetry; apply Z.ltb_ge; lia).
      lia.
    + apply Z.eqb_neq in Ez.
      destruct (0 <? deg)%Z eqn:Ed, (0 <? deg - 1)%Z eqn:Ed'; lia.
Qed.

Lemma relax_all p cid ctask ts : forall st,
  kahn_inv p st ->
  incl ts (tasks p) ->
  In cid (map task_id (tasks p)) ->
  exists st',
    foldM (relax cid (Some ctask)) ts st = Done st'
    /\ kahn_inv p st'
    /\ (kahn_potential st' <= kahn_potential st)%nat.
Proof.
  induction ts as [|t ts IH]; intros st Hinv Hts Hcid; simpl.
  - exists st. auto.
  - destruct (relax_ok p cid ctask st t Hinv) as (st1 & -> & Hinv1 & Hle1);
      [apply Hts; now left | exact Hcid |].
    cbn [bind].
    destruct (IH st1 Hinv1) as (st' & -> & Hinv' & Hle');
      [intros x Hx; apply Hts; now right | exact Hcid |].
    exists st'. split; [reflexivity|]. split; [exact Hinv' | lia].
Qed.

Lemma kahn_loop_returns p : forall fuel st,
  kahn_inv p st ->
  (kahn_potential st <= fuel)%nat ->
  exists st', kahn_loop fuel p st = Done st' /\ kahn_inv p st'.
Proof.
  induction fuel as [|f IH]; intros st Hinv Hpot; rewrite kahn_loop_eq.
  - destruct (queue st) as [|c rest] eqn:Eq; [eauto|].
    unfold kahn_potential in Hpot. rewrite Eq in Hpot. simpl in Hpot. lia.
  - destruct (queue st) as [|c rest] eqn:Eq; [eauto|].
    assert (Hc : In c (map task_id (tasks p))).
    { apply (proj2 (proj2 (proj2 Hinv))). rewrite Eq. now left. }
    destruct (find_task_ids _ _ Hc) as [ctask Ect].
    unfold get_task_by_id. rewrite Ect.
    set (popped := {| in_degree := in_degree st;
                      earliest_start := earliest_start st;
                      queue := rest |}).
    assert (Hinvp : kahn_inv p popped).
    { destruct Hinv as (H1 & H2 & H3 & H4). unfold kahn_inv, popped. simpl.
      repeat split; auto. intros k Hk. apply H4. rewrite Eq. now right. }
    destruct (relax_all p c ctask (tasks p) popped Hinvp (incl_refl _) Hc)
      as (st1 & -> & Hinv1 & Hle1).
    cbn [bind]. apply IH; [exact Hinv1|].
    unfold kahn_potential in *. rewrite Eq in Hpot. simpl in *. lia.
Qed.

Lemma comprehension_get {X V} (key : X -> string) (val : X -> V) xs x :
  In x xs -> PyDict.get (PyDict.comprehension key val xs) (key x) <> None.
Proof.
  intros Hin. unfold PyDict.comprehension.
  assert (Hk : In (key x)
                  (PyDict.keys
                     (fold_left (fun d y => PyDict.set d (key y) (val y))
                                xs []))).
  { apply (build_keys key val). right. now apply in_map. }
  apply contains_keys in Hk. unfold PyDict.contains in Hk.
  destruct (PyDict.get _ (key x)); [discriminate | discriminate Hk].
Qed.

Lemma ready_tasks_done (d : PyDict.t Z) l :
  (forall t, In t l -> PyDict.get d (task_id t) <> None) ->
  exists ready,
    filterM (fun t => deg <- PyDict.lookup d (task_id t) ;; Done (deg =? 0)%Z) l
    = Done ready
    /\ incl ready l
    /\ (List.length ready <= List.length l)%nat.
Proof.
  induction l as [|t l IH]; intros H; simpl.
  - exists []. repeat split; auto. intros x [].
  - destruct IH as (r & -> & Hi & Hl); [intros x Hx; apply H; now right|].
    unfold PyDict.lookup.
    destruct (PyDict.get d (task_id t)) as [deg|] eqn:E;
      [|now elim (H t (or_introl eq_refl))].
    cbn [bind]. destruct (deg =? 0)%Z; eexists; (split; [reflexivity|]).
    + split; [|simpl; lia]. intros x [<- | Hx]; [now left | right; auto].
    + split; [|simpl; lia]. intros x Hx. right. auto.
Qed.

Lemma kahn_init_ok p :
  exists st0,
    kahn_init p = Done st0
    /\ kahn_inv p st0
    /\ (kahn_potential st0 <= 2 * List.length (tasks p))%nat.
Proof.
  unfold kahn_init.
  set (in_deg := PyDict.comprehension task_id
                   (fun t => Z.of_nat (List.length (dependencies t)))
                   (tasks p)).
  destruct (ready_tasks_done in_deg (tasks p)) as (ready & -> & Hi & Hl).
  { intros t Ht. now apply comprehension_get. }
  cbn [bind]. eexists. split; [reflexivity|]. split.
  - unfold kahn_inv. cbn [in_degree earliest_start queue].
    split; [intros t Ht; now apply comprehension_get|].
    split; [intros t Ht; now apply (comprehension_get task_id (fun _ => 0))|].
    split.
    + intros k Hk. unfold PyDict.comprehension in Hk.
      apply (build_keys task_id (fun _ : Task => 0)) in Hk.
      destruct Hk as [[] | Hk]. exact Hk.
    + intros k Hk. apply in_map_iff in Hk. destruct Hk as [t [<- Ht]].
      apply in_map. now apply Hi.
  - unfold kahn_potential, positive_entries. cbn [in_degree queue].
    rewrite length_map.
    pose proof (List.filter_length_le (fun kv : string * Z => (0 <? snd kv)%Z)
                                      in_deg) as Hf.
    pose proof (build_length task_id
                  (fun t => Z.of_nat (List.length (dependencies t)))
                  (tasks p) []) as Hb.
    unfold in_deg, PyDict.comprehension in *. simpl in Hb. lia.
Qed.

Lemma py_max_by_In {A} (key : A -> Q) xs : forall x,
  In (py_max_by key x xs) (x :: xs).
Proof.
  unfold py_max_by. induction xs as [|y xs IH]; intros x; simpl; [now left|].
  destruct (IH (if Qlt_bool (key x) (key y) then y else x)) as [H | H].
  - rewrite <- H. destruct (Qlt_bool (key x) (key y)); auto.
  - right. now right.
Qed.

Lemma finish_keys_done p (es : PyDict.t Q) ks :
  (forall k, In k ks -> PyDict.get es k <> None
                        /\ In k (map task_id (tasks p))) ->
  exists keyed,
    mapM (fun tid => k <- finish_key p es tid ;; Done (tid, k)) ks
    = Done keyed
    /\ map fst keyed = ks.
Proof.
  induction ks as [|k ks IH]; intros H; simpl.
  - exists []. auto.
  - destruct IH as (keyed & -> & Hm); [intros x Hx; apply H; now right|].
    destruct (H k (or_introl eq_refl)) as [Hg Hid].
    destruct (find_task_ids _ _ Hid) as [t Et].
    unfold finish_key, PyDict.lookup, attr, get_task_by_id. rewrite Et.
    destruct (PyDict.get es k) as [s|]; [|congruence].
    cbn [bind]. eexists. split; [reflexivity|]. simpl. now rewrite Hm.
Qed.

Lemma find_predecessor_done p (es : PyDict.t Q) cur deps :
  (forall t, In t (tasks p) -> PyDict.get es (task_id t) <> None) ->
  In cur (tasks p) ->
  (forall d, In d deps -> In d (map task_id (tasks p))) ->
  exists r, find_predecessor p es cur deps = Done r
            /\ (forall dep, r = Some dep -> In dep deps).
Proof.
  intros Hes Hcur. induction deps as [|d deps IH]; intros Hd; simpl.
  - exists None. split; [reflexivity | discriminate].
  - assert (Hdid : In d (map task_id (tasks p))) by (apply Hd; now left).
    destruct (find_task_ids _ _ Hdid) as [td Etd].
    destruct (find_task_Some _ _ _ Etd) as [Htd Hk].
    unfold PyDict.lookup, attr, get_task_by_id. rewrite Etd.
    pose proof (Hes td Htd) as H1. rewrite Hk in H1.
    destruct (PyDict.get es d) as [x|]; [|congruence].
    pose proof (Hes cur Hcur) as H2.
    destruct (PyDict.get es (task_id cur)) as [y|]; [|congruence].
    cbn [bind]. destruct (Qeq_bool (x + estimated_days td) y).
    + exists (Some d). split; [reflexivity|].
      intros dep E. inversion E. now left.
    + destruct IH as (r & -> & Hr); [intros z Hz; apply Hd; now right|].
      exists r. split; [reflexivity|]. intros dep E. right. now apply Hr.
Qed.

Lemma found_tasks_length ts acc :
  NoDup (map task_id acc) ->
  (forall t, In t acc -> found_by_id ts t) ->
  (List.length acc <= List.length ts)%nat.
Proof.
  intros Hnd Hf. rewrite <- (length_map task_id acc), <- (length_map task_id ts).
  apply NoDup_incl_length; [exact Hnd|].
  intros k Hk. apply in_map_iff in Hk. destruct Hk as [t [<- Ht]].
  apply in_map. apply (find_task_Some ts (task_id t) t). now apply Hf.
Qed.

Lemma backtrack_returns p es :
  positive_durations p ->
  all_resolve p ->
  (forall t, In t (tasks p) -> PyDict.get es (task_id t) <> None) ->
  forall fuel cur acc,
    NoDup (map task_id acc) ->
    (forall t, In t acc -> found_by_id (tasks p) t) ->
    (forall cid t, cur = Some cid -> In t acc -> es_lt es cid (task_id t)) ->
    (forall cid, cur = Some cid -> In cid (map task_id (tasks p))) ->
    (List.length (tasks p) < fuel + List.length acc)%nat ->
    exists path, backtrack fuel p es cur acc = Done path.
Proof.
  intros Hpos Hres Hes.
  induction fuel as [|f IH]; intros cur acc Hnd Hf Hlt Hid Hfuel;
    rewrite backtrack_eq.
  - pose proof (found_tasks_length _ _ Hnd Hf). simpl in Hfuel. lia.
  - destruct cur as [cid|]; [|eauto].
    destruct (String.eqb cid ""); [eauto|].
    destruct (find_task_ids _ _ (Hid cid eq_refl)) as [t Et].
    unfold attr, get_task_by_id. rewrite Et. cbn [bind].
    pose proof (find_task_found _ _ _ Et) as Hft.
    destruct (find_task_Some _ _ _ Et) as [Hin Hcid].
    assert (Hnd' : NoDup (map task_id (t :: acc))).
    { simpl. constructor; [|exact Hnd]. intros Hc.
      apply in_map_iff in Hc. destruct Hc as [t' [Hid' Ht']].
      apply (es_lt_irrefl es cid).
      pose proof (Hlt cid t' eq_refl Ht') as Hx.
      rewrite Hid', Hcid in Hx. exact Hx. }
    assert (Hf' : forall t', In t' (t :: acc) -> found_by_id (tasks p) t').
    { intros t' [<- | Ht']; auto. }
    destruct (dependencies t) as [|d ds] eqn:Ed; [eauto|].
    destruct (find_predecessor_done p es t (d :: ds) Hes Hin)
      as (next & En & Hnext).
    { intros x Hx. apply (Hres t x Hin). now rewrite Ed. }
    rewrite En. cbn [bind].
    apply IH; auto.
    + intros dep t' -> Ht'.
      pose proof (find_predecessor_lt p es t (d :: ds) dep Hpos En) as Hd.
      rewrite Hcid in Hd. destruct Ht' as [<- | Ht'].
      * now rewrite Hcid.
      * apply es_lt_trans with cid; [exact Hd|]. now apply Hlt.
    + intros dep ->. apply (Hres t dep Hin). rewrite Ed. now apply Hnext.
    + simpl. lia.
Qed.

(** On a well-formed project with at least one task the critical path is
    returned once the fuel reaches twice the task count. *)
Lemma get_critical_path_returns fuel p :
  well_formed p ->
  tasks p <> [] ->
  (2 * List.length (tasks p) <= fuel)%nat ->
  exists path, get_critical_path fuel p = Done path.
Proof.
  intros (Hids & Hres & Hacyc & Hpos & Hsize) Hne Hfuel.
  unfold get_critical_path.
  destruct (kahn_init_ok p) as (st0 & -> & Hinv0 & Hpot0). cbn [bind].
  destruct (kahn_loop_returns p fuel st0 Hinv0) as (st & -> & Hinv); [lia|].
  cbn [bind]. destruct Hinv as (_ & Hes & Hkeys & _).
  destruct (finish_keys_done p (earliest_start st)
                             (PyDict.keys (earliest_start st)))
    as (keyed & -> & Hfst).
  { intros k Hk. split; [|now apply Hkeys].
    apply contains_keys in Hk. unfold PyDict.contains in Hk.
    destruct (PyDict.get (earliest_start st) k); [discriminate|discriminate Hk]. }
  cbn [bind].
  destruct keyed as [|first others].
  - exfalso. destruct (tasks p) as [|t0 ts] eqn:Et; [congruence|].
    assert (Hk : In (task_id t0) (PyDict.keys (earliest_start st))).
    { apply contains_keys. unfold PyDict.contains.
      pose proof (Hes t0 (or_introl eq_refl)).
      destruct (PyDict.get (earliest_start st) (task_id t0)); congruence. }
    rewrite <- Hfst in Hk. exact Hk.
  - apply backtrack_returns; auto.
    + constructor.
    + intros t [].
    + intros cid t _ [].
    + intros cid E. inversion E; subst. apply Hkeys. rewrite <- Hfst.
      apply in_map. apply py_max_by_In.
    + simpl. destruct (tasks p); [congruence|]. simpl in *. lia.
Qed.

(** On a well-formed project the parallel timeline is returned once the
    fuel exceeds twice the task count; on exact numbers it is at most the
    sequential timeline. *)
Lemma parallel_timeline_returns fuel p :
  well_formed p ->
  (2 * List.length (tasks p) < fuel)%nat ->
  exists v,
    calculate_parallel_timeline fuel p = Done v
    /\ v <= calculate_sequential_timeline p.
Proof.
  intros Hwf Hfuel.
  assert (Hret : exists v, calculate_parallel_timeline fuel p = Done v).
  { unfold calculate_parallel_timeline.
    destruct (tasks p) as [|t0 ts] eqn:Et; [eauto|].
    rewrite <- Et in Hfuel.
    destruct (get_critical_path_returns fuel p Hwf) as [path ->];
      [rewrite Et; discriminate | lia |].
    cbn [bind]. unfold simulate_resource_constrained_schedule.
    destruct (schedule_trace_returns fuel p Hwf Hfuel) as (v & mv & ->).
    cbn [bind fst]. eauto. }
  destruct Hret as [v Hv]. exists v. split; [exact Hv|].
  destruct Hwf as (_ & _ & _ & Hpos & Hsize).
  now apply (parallel_le_sequential fuel p v).
Qed.

(** Acyclicity of a concrete project, read off the traversal *)
Lemma no_cycle_by_traversal fuel p :
  (List.length (tasks p) < fuel)%nat ->
  has_circular_dependency fuel p = Done false ->
  ~ has_cycle_in p.
Proof.
  intros Hfuel Hrun Hc.
  destruct (has_circular_dependency_correct fuel p Hfuel) as [b [Hb Hiff]].
  rewrite Hrun in Hb. inversion Hb; subst. apply Hiff in Hc. discriminate.
Qed.

(** C5. The sequential estimate is not always at least the parallel one.
    The project below is constructed; its three tasks have positive
    durations and distinct ids, their dependencies resolve, and they form
    the chain A, B, C, inserted in reverse. The sequential estimate adds
    the durations in insertion order, [(0.3 + 0.2 + 0.1) * 1.1 = 0.66].
    The critical path A, B, C adds them in path order, and so does the
    clock of the simulated schedule when the team is smaller than the
    number of tasks: [0.1 + 0.2 + 0.3 = 0.6000000000000001], more than the
    total of the estimated days, which gives the parallel estimate
    [0.6000000000000001 * 1.1 = 0.6600000000000001] for a team of one, two
    or three. *)
Theorem sequential_below_parallel_by_rounding :
  let chain :=
    [Binary64.Task_init "C" 0.3 100 ["b"] None;
     Binary64.Task_init "B" 0.2 100 ["a"] None;
     Binary64.Task_init "A" 0.1 100 [] None]%float in
  Forall (fun t => PrimFloat.ltb 0 (Binary64.estimated_days t) = true) chain
  /\ NoDup (map Binary64.task_id chain)
  /\ Forall (fun t => Forall (fun d => Binary64.find_task chain d <> None)
                             (Binary64.dependencies t)) chain
  /\ Forall
       (fun size =>
          exists p path,
            Binary64.Project_init "Chain" chain size "low" "" = Done p
            /\ Binary64.get_critical_path 10 p = Done path
            /\ map Binary64.name path = ["A"; "B"; "C"]
            /\ Binary64.calculate_sequential_timeline p = 0.66%float
            /\ Binary64.calculate_parallel_timeline 10 p
               = Done 0.6600000000000001%float)
       [1; 2; 3]%Z
  /\ Forall
       (fun size =>
          exists p,
            Binary64.Project_init "Chain" chain size "low" "" = Done p
            /\ Binary64.total_estimated_days p = 0.6%float
            /\ Binary64.simulate_resource_constrained_schedule 10 p
               = Done 0.6000000000000001%float)
       [1; 2]%Z
  /\ PrimFloat.ltb 0.66 0.6600000000000001 = true
  /\ PrimFloat.ltb 0.6 0.6000000000000001 = true.
Proof.
  cbv zeta. split; [|split; [|split; [|split; [|split]]]].
  - repeat constructor.
  - simpl. repeat constructor; simpl; intuition discriminate.
  - repeat constructor; simpl; discriminate.
  - repeat constructor; eexists _, _; (split; [reflexivity|]);
      (split; [vm_compute; reflexivity|]); vm_compute; repeat split.
  - repeat constructor; eexists; (split; [reflexivity|]);
      vm_compute; repeat split.
  - split; reflexivity.
Qed.

(** ** The clock never moves by the fixed increment *)

Lemma start_tasks_active cs : forall st st1,
  foldM start_task cs st = Done st1 ->
  active_tasks st1 = (active_tasks st ++ cs)%list.
Proof.
  induction cs as [|c cs IH]; intros st st1 H; simpl in H.
  - inversion H; subst. now rewrite app_nil_r.
  - unfold start_task at 1 in H.
    destruct (list_remove c (remaining_tasks st)) as [rem| |];
      cbn [bind] in H; try discriminate.
    apply IH in H. rewrite H. cbn [active_tasks].
    now rewrite <- app_assoc.
Qed.

Lemma no_fixed_increment size st m st' :
  (1 <= size)%Z ->
  sched_iteration size st = Done (m, st') ->
  m <> FixedIncrement.
Proof.
  intros Hsize. unfold sched_iteration.
  destruct (filterM _ (active_tasks st)) as [active| |]; cbn [bind];
    try discriminate.
  set (can_start := filter _ (remaining_tasks st)).
  set (mid := {| scheduled_start := scheduled_start st;
                 scheduled_finish := scheduled_finish st;
                 active_tasks := active;
                 current_time := current_time st;
                 remaining_tasks := remaining_tasks st |}).
  destruct (foldM start_task can_start mid) as [st1| |] eqn:E1; cbn [bind];
    try discriminate.
  pose proof (start_tasks_active _ _ _ E1) as Ha1. cbn [mid active_tasks] in Ha1.
  destruct (active_tasks st1) as [|a0 act] eqn:Eact.
  - destruct (remaining_tasks st1) as [|next rest] eqn:Erem.
    + intros H. inversion H. discriminate.
    + destruct (map _ (dependencies next)) as [|f fs] eqn:Emap.
      * intros _ _. symmetry in Ha1. apply app_eq_nil in Ha1.
        destruct Ha1 as [Hact Hcan].
        assert (Hst : st1 = mid).
        { rewrite Hcan in E1. simpl in E1. now inversion E1. }
        assert (Hnext : In next can_start).
        { unfold can_start. apply filter_In. split.
          - rewrite Hst in Erem. simpl in Erem. rewrite Erem. now left.
          - apply map_eq_nil in Emap. unfold deps_complete.
            rewrite Emap, Hact. simpl. apply Z.ltb_lt. lia. }
        rewrite Hcan in Hnext. contradiction.
      * intros H. inversion H. discriminate.
  - destruct (mapM _ (a0 :: act)) as [finishes| |]; cbn [bind];
      try discriminate.
    destruct finishes; intros H; inversion H. discriminate.
Qed.

Lemma sched_loop_moves size :
  (1 <= size)%Z ->
  forall fuel st moves st' moves',
    sched_loop fuel size st moves = Done (st', moves') ->
    ~ In FixedIncrement moves -> ~ In FixedIncrement moves'.
Proof.
  intros Hsize. induction fuel as [|f IH]; intros st moves st' moves' H Hn;
    rewrite sched_loop_eq in H.
  - destruct (loop_condition st); [discriminate|]. now inversion H; subst.
  - destruct (loop_condition st); [|now inversion H; subst].
    destruct (sched_iteration size st) as [[m st1]| |] eqn:E;
      cbn [bind fst snd] in H; try discriminate.
    pose proof (no_fixed_increment size st m st1 Hsize E) as Hm.
    destruct m; try (now elim Hm); try (now inversion H; subst);
      apply (IH _ _ _ _ H); rewrite in_app_iff; simpl;
      intros [Hi | [Hi | []]]; try discriminate; now apply Hn.
Qed.

Lemma schedule_trace_moves fuel p v moves :
  (1 <= team_size p)%Z ->
  schedule_trace fuel p = Done (v, moves) ->
  ~ In FixedIncrement moves.
Proof.
  intros Hsize. unfold schedule_trace.
  destruct (forward_pass (tasks p)) as [starts fin].
  destruct (task_count p <=? team_size p)%Z.
  - intros H. inversion H; subst. tauto.
  - destruct (sort_tasks starts (tasks p)) as [sorted| |]; cbn [bind];
      try discriminate.
    destruct (sched_loop fuel (team_size p) _ []) as [[st' mv]| |] eqn:El;
      cbn [bind]; try discriminate.
    intros H. inversion H; subst.
    apply (sched_loop_moves _ Hsize _ _ _ _ _ El). tauto.
Qed.

(** C3. On a well-formed project (unique task ids, every dependency id
    resolving, no cycle, positive durations, a team of at least one) the
    scheduler returns once the fuel exceeds twice the task count, and with
    a team of at least one the simulation loop of any project never moves
    the clock by the fixed increment. At a failing input the scheduler
    does not terminate: task G depends on an id that no task has, task A
    has no dependency, and the team has one member; the graph is acyclic.
    After A has run, G is never admitted, since its dependency has no
    recorded finish time: every further iteration jumps the clock to 0 and
    leaves the state as it was, so the simulation returns for no amount of
    fuel. *)
Theorem schedule_diverges_on_unresolved_dependency :
  (forall p fuel, well_formed p ->
                  (2 * List.length (tasks p) < fuel)%nat ->
                  exists v moves, schedule_trace fuel p = Done (v, moves))
  /\ (forall p fuel v moves,
         (1 <= team_size p)%Z ->
         schedule_trace fuel p = Done (v, moves) ->
         ~ In FixedIncrement moves)
  /\
  let G := Task_init "G" 4 1 ["ghost"] None in
  let A := Task_init "A" 5 1 [] None in
  let p := mkProject "P" [G; A] 1 "low" "" in
  let stuck := {| scheduled_start := [("a", 0)];
                  scheduled_finish := [("a", 5)];
                  active_tasks := [];
                  current_time := 0;
                  remaining_tasks := [G] |} in
  has_circular_dependency 2 p = Done false
  /\ sched_iteration (team_size p) stuck = Done (JumpToDependencies, stuck)
  /\ (forall fuel, simulate_resource_constrained_schedule fuel p = OutOfFuel).
Proof.
  split; [intros p fuel; now apply schedule_trace_returns|].
  split; [intros p fuel v moves; now apply schedule_trace_moves|].
  cbv zeta. split; [reflexivity|]. split; [reflexivity|].
  intros fuel. unfold simulate_resource_constrained_schedule, schedule_trace.
  set (G := Task_init "G" 4 1 ["ghost"] None).
  set (A := Task_init "A" 5 1 [] None).
  set (p := mkProject "P" [G; A] 1 "low" "").
  replace (forward_pass (tasks p))
    with ([("g", 0); ("a", 0)], [("g", 4); ("a", 5)])
    by (vm_compute; reflexivity).
  replace (task_count p <=? team_size p)%Z with false by reflexivity.
  replace (sort_tasks [("g", 0); ("a", 0)] (tasks p)) with (Done [A; G])
    by (vm_compute; reflexivity).
  cbn [bind].
  set (st0 := {| scheduled_start := []; scheduled_finish := [];
                 active_tasks := []; current_time := 0;
                 remaining_tasks := [A; G] |}).
  set (st1 := {| scheduled_start := [("a", 0)]; scheduled_finish := [("a", 5)];
                 active_tasks := [A]; current_time := 5;
                 remaining_tasks := [G] |}).
  set (st2 := {| scheduled_start := [("a", 0)]; scheduled_finish := [("a", 5)];
                 active_tasks := []; current_time := 0;
                 remaining_tasks := [G] |}).
  assert (H0 : sched_iteration (team_size p) st0 = Done (NextCompletion, st1))
    by (vm_compute; reflexivity).
  assert (H1 : sched_iteration (team_size p) st1 = Done (JumpToDependencies, st2))
    by (vm_compute; reflexivity).
  assert (H2 : sched_iteration (team_size p) st2 = Done (JumpToDependencies, st2))
    by (vm_compute; reflexivity).
  destruct fuel as [|[|f]]; try reflexivity.
  rewrite (sched_loop_step _ (team_size p) st0 _ NextCompletion st1 eq_refl H0)
    by discriminate.
  rewrite (sched_loop_step _ (team_size p) st1 _ JumpToDependencies st2 eq_refl H1)
    by discriminate.
  rewrite (sched_loop_stuck (team_size p) st2 JumpToDependencies eq_refl H2)
    by discriminate.
  reflexivity.
Qed.


(** ** The unconstrained schedule when dependencies are inserted first *)

Lemma keys_set_new {V} (d : PyDict.t V) k v :
  ~ In k (PyDict.keys d) ->
  PyDict.keys (PyDict.set d k v) = (PyDict.keys d ++ [k])%list.
Proof.
  unfold PyDict.keys. induction d as [|[k' v'] r IH]; simpl; intros H;
    [reflexivity|].
  destruct (String.eqb k k') eqn:E.
  - apply String.eqb_eq in E. subst. exfalso. apply H. now left.
  - simpl. f_equal. apply IH. tauto.
Qed.

Lemma get_not_key {V} (d : PyDict.t V) k :
  ~ In k (PyDict.keys d) -> PyDict.get d k = None.
Proof.
  intros H. destruct (PyDict.get d k) eqn:E; [|reflexivity].
  exfalso. apply H. apply contains_keys. unfold PyDict.contains.
  now rewrite E.
Qed.

Lemma values_of_keys {X V} (key : X -> string) (val : X -> V) xs :
  forall d : PyDict.t V,
    NoDup (map key xs) ->
    PyDict.keys d = map key xs ->
    (forall x, In x xs -> PyDict.get d (key x) = Some (val x)) ->
    PyDict.values d = map val xs.
Proof.
  unfold PyDict.keys, PyDict.values.
  induction xs as [|x xs IH]; intros d Hnd Hk Hg.
  - destruct d; [reflexivity | discriminate].
  - destruct d as [|[k v] r]; [discriminate|]. simpl in *.
    inversion Hk as [[Hkx Hkr]]. inversion Hnd as [|y l Hn Hnd']; subst.
    f_equal.
    + specialize (Hg x (or_introl eq_refl)). simpl in Hg.
      rewrite String.eqb_refl in Hg. now inversion Hg.
    + apply IH; auto. intros y Hy. specialize (Hg y (or_intror Hy)).
      simpl in Hg. destruct (String.eqb (key y) (key x)) eqn:E; [|exact Hg].
      apply String.eqb_eq in E. exfalso. apply Hn. rewrite <- E.
      now apply in_map.
Qed.

Lemma Qmax_zero_r a : 0 <= a -> Qmax a 0 = a.
Proof.
  intros H. unfold Qmax, GenericMinMax.gmax.
  destruct (a ?= 0) eqn:E; try reflexivity.
  apply Qlt_alt in E. exfalso. now apply (Qlt_not_le a 0).
Qed.

Lemma spec_finish_unresolved fuel ts d :
  ~ In d (map task_id ts) -> spec_finish fuel ts d = 0.
Proof.
  intros H. destruct fuel as [|f]; [reflexivity|]. simpl.
  destruct (find_task ts d) as [t|] eqn:E; [|reflexivity].
  exfalso. apply H. destruct (find_task_Some _ _ _ E) as [Hin <-].
  now apply in_map.
Qed.

Lemma find_task_unique ts t :
  NoDup (map task_id ts) -> In t ts -> find_task ts (task_id t) = Some t.
Proof.
  intros Hnd Hin.
  destruct (find_task_ids ts (task_id t) (in_map task_id _ _ Hin)) as [t' E].
  rewrite E. f_equal. destruct (find_task_Some _ _ _ E) as [Hin' Hid].
  now apply (unique_task ts).
Qed.

(** Folding the dependencies: the scheduler's fold over the recorded
    finish times agrees with the fold over the specified finish times. *)
Lemma dependency_fold_spec fuel ts (fin : PyDict.t Q) deps :
  (forall d, In d deps ->
             (PyDict.get fin d = Some (spec_finish fuel ts d))
             \/ (PyDict.get fin d = None /\ spec_finish fuel ts d = 0)) ->
  forall a, 0 <= a ->
    fold_left
      (fun earliest dep_id =>
         match PyDict.get fin dep_id with
         | Some f => Qmax earliest f
         | None => earliest
         end) deps a
    = fold_left Qmax (map (spec_finish fuel ts) deps) a.
Proof.
  induction deps as [|d deps IH]; intros H a Ha; simpl; [reflexivity|].
  assert (IH' := IH (fun x Hx => H x (or_intror Hx))).
  destruct (H d (or_introl eq_refl)) as [E | [E E0]]; rewrite E.
  - apply IH'. apply Qle_trans with a; [exact Ha | apply Q.le_max_l].
  - rewrite E0, (Qmax_zero_r a Ha). now apply IH'.
Qed.

Lemma forward_fold_spec ts :
  NoDup (map task_id ts) ->
  inserted_after_dependencies ts ->
  forall suffix prefix starts fin,
    ts = (prefix ++ suffix)%list ->
    PyDict.keys fin = map task_id prefix ->
    (forall t fuel, In t prefix -> (List.length prefix <= fuel)%nat ->
                    PyDict.get fin (task_id t)
                    = Some (spec_finish fuel ts (task_id t))) ->
    PyDict.keys (snd (fold_left forward_step suffix (starts, fin)))
    = map task_id ts
    /\ (forall t fuel, In t ts -> (List.length ts <= fuel)%nat ->
                       PyDict.get
                         (snd (fold_left forward_step suffix (starts, fin)))
                         (task_id t)
                       = Some (spec_finish fuel ts (task_id t))).
Proof.
  intros Hnd Htop. induction suffix as [|t suffix IH];
    intros prefix starts fin Hts Hkeys Hval.
  - rewrite app_nil_r in Hts. subst prefix. simpl. auto.
  - simpl.
    assert (Hin : In t ts) by (rewrite Hts; apply in_or_app; right; now left).
    assert (Hnew : ~ In (task_id t) (map task_id prefix)).
    { rewrite Hts, map_app in Hnd. simpl in Hnd.
      apply NoDup_remove_2 in Hnd. intros H. apply Hnd.
      apply in_or_app. now left. }
    assert (Hpre : forall x, In x prefix -> In x ts)
      by (intros x Hx; rewrite Hts; apply in_or_app; now left).
    apply (IH (prefix ++ [t])%list).
    + rewrite Hts, <- app_assoc. reflexivity.
    + rewrite keys_set_new by (now rewrite Hkeys).
      now rewrite Hkeys, map_app.
    + intros x fuel Hx Hfuel. rewrite length_app in Hfuel. simpl in Hfuel.
      apply in_app_or in Hx. destruct Hx as [Hx | [<- | []]].
      * rewrite get_set_other.
        -- apply Hval; [exact Hx | lia].
        -- intros E. apply Hnew. rewrite E. now apply in_map.
      * rewrite get_set_same. f_equal.
        destruct fuel as [|f]; [lia|]. simpl.
        rewrite (find_task_unique ts t Hnd Hin). f_equal.
        unfold dependency_start. apply dependency_fold_spec; [|apply Qle_refl].
        intros d Hd.
        destruct (in_dec string_dec d (map task_id ts)) as [Hr | Hu].
        -- left. pose proof (Htop prefix t suffix Hts d Hd Hr) as Hp.
           apply in_map_iff in Hp. destruct Hp as [td [<- Htd]].
           apply Hval; [exact Htd | lia].
        -- right. split; [|now apply spec_finish_unresolved].
           apply get_not_key. rewrite Hkeys. intros H. apply Hu.
           apply in_map_iff in H. destruct H as [td [<- Htd]].
           apply in_map. now apply Hpre.
Qed.

(** When every resolving dependency is inserted before its dependent, task
    ids are unique and the team is as large as the task count, the
    scheduler returns the specified maximum finish time. *)
Lemma schedule_of_ordered_project fuel p :
  NoDup (map task_id (tasks p)) ->
  inserted_after_dependencies (tasks p) ->
  (task_count p <= team_size p)%Z ->
  simulate_resource_constrained_schedule fuel p
  = Done (spec_project_finish p).
Proof.
  intros Hnd Htop Hsize.
  unfold simulate_resource_constrained_schedule, schedule_trace.
  destruct (forward_fold_spec (tasks p) Hnd Htop (tasks p) [] [] [])
    as [Hk Hv]; [reflexivity | reflexivity | intros t fuel' [] |].
  change (fold_left forward_step (tasks p) ([], []))
    with (forward_pass (tasks p)) in Hk, Hv.
  destruct (forward_pass (tasks p)) as [starts fin]. simpl in Hk, Hv.
  apply Z.leb_le in Hsize. rewrite Hsize. cbn [bind fst].
  unfold spec_project_finish. do 2 f_equal.
  apply (values_of_keys task_id
           (fun t => spec_finish (List.length (tasks p)) (tasks p) (task_id t)));
    auto.
Qed.

(** C2. When every resolving dependency belongs to a task inserted before
    its dependent (with unique task ids and a team as large as the task
    count), the scheduler returns the maximum dependency-respecting finish
    time. It does not do so regardless of the insertion order. At a
    failing input, task B (10 days) depends on task A (5 days) and is
    inserted before it; the graph is acyclic, every dependency resolves
    and the team is as large as the task count. The scheduler returns 10,
    the finish time of B computed before A had one, where forward
    propagation over a topological order gives 15; with A inserted first
    the scheduler returns 15. *)
Theorem schedule_depends_on_insertion_order :
  (forall p fuel,
      NoDup (map task_id (tasks p)) ->
      inserted_after_dependencies (tasks p) ->
      (task_count p <= team_size p)%Z ->
      simulate_resource_constrained_schedule fuel p
      = Done (spec_project_finish p))
  /\
  let A := Task_init "A" 5 1 [] None in
  let B := Task_init "B" 10 1 ["a"] None in
  let p := mkProject "P" [B; A] 2 "low" "" in
  let q := mkProject "P" [A; B] 2 "low" "" in
  snd (validate_dependencies 2 p) = Done []
  /\ (task_count p <= team_size p)%Z
  /\ (forall fuel, simulate_resource_constrained_schedule fuel p = Done 10)
  /\ spec_project_finish p = 15
  /\ (forall fuel, simulate_resource_constrained_schedule fuel q = Done 15)
  /\ spec_project_finish q = 15.
Proof.
  split; [intros p fuel; apply schedule_of_ordered_project|].
  cbv zeta. repeat split.
  vm_compute. discriminate.
Qed.

(** * Further properties of the code *)

(** ** Lookup of tasks *)

Lemma find_task_split ts k t :
  find_task ts k = Some t ->
  exists before after,
    ts = (before ++ t :: after)%list /\ task_id t = k
    /\ ~ In k (map task_id before).
Proof.
  induction ts as [|x ts IH]; simpl; [discriminate|].
  destruct (String.eqb (task_id x) k) eqn:E.
  - intros H. inversion H; subst. apply String.eqb_eq in E.
    exists [], ts. simpl. auto.
  - intros H. destruct (IH H) as (b & a & -> & Hid & Hn).
    exists (x :: b), a. simpl. repeat split; auto.
    apply String.eqb_neq in E. intros [Hx | Hx]; auto.
Qed.

Lemma find_task_None ts k :
  find_task ts k = None <-> ~ In k (map task_id ts).
Proof.
  split.
  - intros H Hin. destruct (find_task_ids ts k Hin) as [t Ht]. congruence.
  - intros H. destruct (find_task ts k) as [t|] eqn:E; [|reflexivity].
    exfalso. apply H. destruct (find_task_Some _ _ _ E) as [Hin <-].
    now apply in_map.
Qed.

(** X1. [get_task_by_id] answers with the first task, in insertion order,
    whose id is the requested one: the task it returns carries that id and
    no task inserted before it does; it answers [None] exactly when no task
    of the project has the id; and when the ids of the project are pairwise
    distinct every task is found by its own id. *)
Theorem get_task_by_id_first_match (p : Project) (k : string) :
  (forall t, get_task_by_id p k = Some t ->
             exists before after,
               tasks p = (before ++ t :: after)%list /\ task_id t = k
               /\ ~ In k (map task_id before))
  /\ (get_task_by_id p k = None <-> ~ In k (map task_id (tasks p)))
  /\ (NoDup (map task_id (tasks p)) ->
      forall t, In t (tasks p) -> get_task_by_id p (task_id t) = Some t).
Proof.
  unfold get_task_by_id. split; [|split].
  - intros t. apply find_task_split.
  - apply find_task_None.
  - intros Hnd t. now apply find_task_unique.
Qed.

Lemma lower_ascii_idem c :
  PyStr.lower_ascii (PyStr.lower_ascii c) = PyStr.lower_ascii c.
Proof.
  destruct c as [[] [] [] [] [] [] [] []]; reflexivity.
Qed.

Lemma lower_idem s : PyStr.lower (PyStr.lower s) = PyStr.lower s.
Proof.
  induction s as [|c s IH]; simpl; [reflexivity|].
  now rewrite lower_ascii_idem, IH.
Qed.

Lemma find_task_by_name_split ts nm t :
  find_task_by_name ts nm = Some t ->
  exists before after,
    ts = (before ++ t :: after)%list
    /\ PyStr.lower (name t) = PyStr.lower nm
    /\ (forall b, In b before -> PyStr.lower (name b) <> PyStr.lower nm).
Proof.
  induction ts as [|x ts IH]; simpl; [discriminate|].
  destruct (String.eqb (PyStr.lower (name x)) (PyStr.lower nm)) eqn:E.
  - intros H. inversion H; subst. apply String.eqb_eq in E.
    exists [], ts. simpl. split; [reflexivity|]. split; [exact E|].
    intros b [].
  - intros H. destruct (IH H) as (b & a & -> & Hid & Hn).
    exists (x :: b), a. simpl. repeat split; auto.
    apply String.eqb_neq in E. intros y [<- | Hy]; auto.
Qed.

Lemma find_task_by_name_None ts nm :
  find_task_by_name ts nm = None
  <-> (forall t, In t ts -> PyStr.lower (name t) <> PyStr.lower nm).
Proof.
  induction ts as [|x ts IH]; simpl.
  - split; [intros _ t [] | reflexivity].
  - destruct (String.eqb (PyStr.lower (name x)) (PyStr.lower nm)) eqn:E.
    + apply String.eqb_eq in E. split; [discriminate|].
      intros H. exfalso. apply (H x); auto.
    + apply String.eqb_neq in E. rewrite IH. split.
      * intros H t [<- | Ht]; auto.
      * intros H t Ht. apply H. now right.
Qed.

Lemma find_task_by_name_lower ts nm nm' :
  PyStr.lower nm' = PyStr.lower nm ->
  find_task_by_name ts nm' = find_task_by_name ts nm.
Proof.
  intros H. induction ts as [|x ts IH]; simpl; [reflexivity|].
  now rewrite H, IH.
Qed.

(** X2. [get_task_by_name] compares names without regard to the case of
    the letters. When the request and the names of the tasks are strings
    of ASCII characters, two requests that agree after lowercasing get the
    same answer, the task returned is the first one whose lowercased name
    equals the lowercased request, the answer is [None] exactly when no
    task has such a name, and a request for the name of a task of the
    project never comes back empty. *)
Theorem get_task_by_name_ignores_case (p : Project) (nm : string) :
  isascii nm = true ->
  (forall t, In t (tasks p) -> isascii (name t) = true) ->
  (forall nm', PyStr.lower nm' = PyStr.lower nm ->
               get_task_by_name p nm' = get_task_by_name p nm)
  /\ get_task_by_name p (PyStr.lower nm) = get_task_by_name p nm
  /\ (forall t, get_task_by_name p nm = Some t ->
                exists before after,
                  tasks p = (before ++ t :: after)%list
                  /\ PyStr.lower (name t) = PyStr.lower nm
                  /\ (forall b, In b before ->
                                PyStr.lower (name b) <> PyStr.lower nm))
  /\ (get_task_by_name p nm = None
      <-> forall t, In t (tasks p) -> PyStr.lower (name t) <> PyStr.lower nm)
  /\ (forall t, In t (tasks p) -> get_task_by_name p (name t) <> None).
Proof.
  intros _ _.
  unfold get_task_by_name. split; [|split; [|split; [|split]]].
  - intros nm'. apply find_task_by_name_lower.
  - apply find_task_by_name_lower. apply lower_idem.
  - intros t. apply find_task_by_name_split.
  - apply find_task_by_name_None.
  - intros t Ht H. rewrite find_task_by_name_None in H. now apply (H t).
Qed.

Lemma get_task_by_name_ignores_case_witness :
  let p := mkProject "Site"
             [Task_init "Build" 5 100 [] None;
              Task_init "Test Run" 2 50 ["build"] None] 1 "low" "" in
  get_task_by_name p "build" = get_task_by_name p "BUILD"
  /\ get_task_by_name p "BUILD" = Some (Task_init "Build" 5 100 [] None)
  /\ get_task_by_name p "Test Run" <> None.
Proof.
  cbv zeta.
  destruct (get_task_by_name_ignores_case
              (mkProject "Site"
                 [Task_init "Build" 5 100 [] None;
                  Task_init "Test Run" 2 50 ["build"] None] 1 "low" "")
              "BUILD" eq_refl
              ltac:(intros t Ht; simpl in Ht;
                    destruct Ht as [<- | [<- | []]]; reflexivity))
    as (_ & H2 & _ & _ & H5).
  split; [exact H2|]. split; [reflexivity|].
  apply (H5 (Task_init "Test Run" 2 50 ["build"] None)).
  right. left. reflexivity.
Defined.

(** ** Cost breakdown *)

Lemma risk_multiplier_gt_one p : 1 < risk_multiplier p.
Proof.
  unfold risk_multiplier, get_risk_multiplier.
  repeat match goal with
         | |- context [if ?b then _ else _] => destruct b
         end; reflexivity.
Qed.




(** X4. [calculate_task_costs] gives one row per task, in insertion order
    and with the task's own id, name, duration and rate; on every row the
    base cost is days times rate and the adjusted cost is the base cost
    times the risk multiplier, which is at least the base cost when that
    is not negative; the base costs of the rows add up to
    [calculate_base_cost]. *)
Theorem task_costs_add_up (p : Project) :
  let rows := calculate_task_costs p in
  map CostRow.task_id rows = map task_id (tasks p)
  /\ map CostRow.task_name rows = map name (tasks p)
  /\ map CostRow.days rows = map estimated_days (tasks p)
  /\ map CostRow.cost_per_day rows = map cost_per_day (tasks p)
  /\ (forall row, In row rows ->
        CostRow.base_cost row = CostRow.days row * CostRow.cost_per_day row
        /\ CostRow.adjusted_cost row
           = CostRow.base_cost row * risk_multiplier p
        /\ (0 <= CostRow.base_cost row ->
            CostRow.base_cost row <= CostRow.adjusted_cost row))
  /\ py_sum (map CostRow.base_cost rows) == calculate_base_cost p.
Proof.
  cbv zeta. unfold calculate_task_costs.
  rewrite !map_map. cbn [CostRow.task_id CostRow.task_name CostRow.days
                         CostRow.cost_per_day CostRow.base_cost
                         CostRow.adjusted_cost].
  split; [reflexivity|]. split; [reflexivity|]. split; [reflexivity|].
  split; [reflexivity|]. split.
  - intros row Hrow. apply in_map_iff in Hrow.
    destruct Hrow as [t [<- _]].
    cbn [CostRow.base_cost CostRow.adjusted_cost CostRow.days
         CostRow.cost_per_day].
    split; [reflexivity|]. split; [reflexivity|].
    pose proof (risk_multiplier_gt_one p) as Hrm. intros Hb. nra.
  - unfold calculate_base_cost, total_base_cost. reflexivity.
Qed.

(** ** Shape of the critical path *)

Lemma find_predecessor_In p es cur deps dep :
  find_predecessor p es cur deps = Done (Some dep) -> In dep deps.
Proof.
  induction deps as [|d deps IH]; simpl; [discriminate|].
  destruct (PyDict.lookup es d) as [x| |]; cbn [bind]; try discriminate.
  destruct (attr (get_task_by_id p d) estimated_days) as [y| |]; cbn [bind];
    try discriminate.
  destruct (PyDict.lookup es (task_id cur)) as [z| |]; cbn [bind];
    try discriminate.
  destruct (Qeq_bool (x + y) z).
  - intros H. inversion H; subst. now left.
  - intros H. right. now apply IH.
Qed.

Lemma dependency_chain_cons t acc :
  dependency_chain acc ->
  (forall a r, acc = a :: r -> In (task_id t) (dependencies a)) ->
  dependency_chain (t :: acc).
Proof.
  intros Hc Hh. destruct acc as [|a r]; simpl; [exact I|].
  split; [now apply (Hh a r) | exact Hc].
Qed.

Lemma backtrack_chain p es :
  forall fuel cur acc path,
    backtrack fuel p es cur acc = Done path ->
    dependency_chain acc ->
    (forall cid a r, cur = Some cid -> acc = a :: r ->
                     In cid (dependencies a)) ->
    (forall t, In t acc -> found_by_id (tasks p) t) ->
    dependency_chain path
    /\ (forall t, In t path -> found_by_id (tasks p) t)
    /\ (exists pre, path = (pre ++ acc)%list
                    /\ (truthy cur = true -> pre <> [])).
Proof.
  induction fuel as [|f IH]; intros cur acc path H Hc Hh Hf;
    rewrite backtrack_eq in H.
  - destruct cur as [cid|].
    + simpl. destruct (String.eqb cid ""); [|discriminate].
      inversion H; subst. split; [exact Hc|]. split; [exact Hf|].
      exists []. split; [reflexivity | discriminate].
    + inversion H; subst. split; [exact Hc|]. split; [exact Hf|].
      exists []. split; [reflexivity | discriminate].
  - destruct cur as [cid|].
    2:{ inversion H; subst. split; [exact Hc|]. split; [exact Hf|].
        exists []. split; [reflexivity | discriminate]. }
    simpl. destruct (String.eqb cid "") eqn:Ecid.
    { inversion H; subst. split; [exact Hc|]. split; [exact Hf|].
      exists []. split; [reflexivity | discriminate]. }
    unfold attr, get_task_by_id in H.
    destruct (find_task (tasks p) cid) as [t|] eqn:Et; cbn [bind] in H;
      [|discriminate].
    pose proof (find_task_found _ _ _ Et) as Hft.
    destruct (find_task_Some _ _ _ Et) as [Hin Hid].
    assert (Hc' : dependency_chain (t :: acc)).
    { apply dependency_chain_cons; [exact Hc|].
      intros a r Ha. rewrite Hid. now apply (Hh cid a r). }
    assert (Hf' : forall t', In t' (t :: acc) -> found_by_id (tasks p) t').
    { intros t' [<- | Ht']; auto. }
    destruct (dependencies t) as [|d ds] eqn:Ed.
    + inversion H; subst. split; [exact Hc'|]. split; [exact Hf'|].
      exists [t]. split; [reflexivity | discriminate].
    + destruct (find_predecessor p es t (d :: ds)) as [next| |] eqn:En;
        cbn [bind] in H; try discriminate.
      destruct (IH next (t :: acc) path H Hc') as (H1 & H2 & pre & H3 & _).
      * intros dep a r -> Ha. inversion Ha; subst.
        rewrite Ed. now apply (find_predecessor_In p es a (d :: ds)).
      * exact Hf'.
      * split; [exact H1|]. split; [exact H2|].
        exists (pre ++ [t])%list. split.
        -- now rewrite <- app_assoc.
        -- intros _ Hnil. now destruct pre.
Qed.

Lemma kahn_loop_le fuel fuel' p st :
  settled (kahn_loop fuel p st) -> (fuel <= fuel')%nat ->
  kahn_loop fuel' p st = kahn_loop fuel p st.
Proof.
  intros Hs Hle. induction Hle as [|m Hle IH]; [reflexivity|].
  rewrite <- IH. apply kahn_loop_S. now rewrite IH.
Qed.

Lemma kahn_keys p fuel st0 st :
  kahn_init p = Done st0 ->
  kahn_loop fuel p st0 = Done st ->
  kahn_inv p st.
Proof.
  intros H0 H.
  destruct (kahn_init_ok p) as (st0' & E0 & Hinv & _).
  rewrite H0 in E0. inversion E0; subst st0'.
  destruct (kahn_loop_returns p (Nat.max fuel (kahn_potential st0)) st0 Hinv
              (Nat.le_max_r _ _)) as (st' & E & Hinv').
  rewrite (kahn_loop_le fuel _ p st0) in E.
  - rewrite H in E. now inversion E; subst.
  - unfold settled. rewrite H. discriminate.
  - apply Nat.le_max_l.
Qed.

Lemma mapM_tagged {K V} (f : K -> outcome V) ks : forall keyed,
  mapM (fun k => v <- f k ;; Done (k, v)) ks = Done keyed ->
  map fst keyed = ks.
Proof.
  induction ks as [|k ks IH]; simpl; intros keyed H.
  - now inversion H.
  - destruct (f k) as [v| |]; cbn [bind] in H; try discriminate.
    destruct (mapM _ ks) as [r| |]; cbn [bind] in H; try discriminate.
    inversion H; subst. simpl. f_equal. now apply IH.
Qed.

Lemma critical_path_end p fuel path :
  get_critical_path fuel p = Done path ->
  exists es end_id,
    In end_id (map task_id (tasks p))
    /\ backtrack fuel p es (Some end_id) [] = Done path.
Proof.
  unfold get_critical_path.
  destruct (kahn_init p) as [st0| |] eqn:E0; cbn [bind]; try discriminate.
  destruct (kahn_loop fuel p st0) as [st| |] eqn:E1; cbn [bind];
    try discriminate.
  destruct (mapM _ (PyDict.keys (earliest_start st))) as [keyed| |] eqn:E2;
    cbn [bind]; try discriminate.
  destruct keyed as [|k ks]; [discriminate|].
  intros H. exists (earliest_start st), (fst (py_max_by snd k ks)).
  split; [|exact H].
  destruct (kahn_keys p fuel st0 st E0 E1) as (_ & _ & Hk & _).
  apply Hk. rewrite <- (mapM_tagged _ _ _ E2).
  apply in_map. apply py_max_by_In.
Qed.

Lemma critical_path_shape fuel p path :
  get_critical_path fuel p = Done path ->
  dependency_chain path
  /\ (forall t, In t path -> found_by_id (tasks p) t)
  /\ ((forall t, In t (tasks p) -> task_id t <> "") -> path <> []).
Proof.
  intros H. destruct (critical_path_end p fuel path H) as (es & e & He & Hb).
  destruct (backtrack_chain p es fuel (Some e) [] path Hb) as
    (H1 & H2 & pre & H3 & H4).
  - exact I.
  - intros cid a r _ Hnil. discriminate.
  - intros t [].
  - split; [exact H1|]. split; [exact H2|].
    intros Hids Hnil. apply H4.
    + simpl. apply negb_true_iff. apply String.eqb_neq.
      apply in_map_iff in He. destruct He as [t [<- Ht]]. now apply Hids.
    + rewrite app_nil_r in H3. congruence.
Qed.

Lemma critical_path_distinct fuel p path :
  positive_durations p ->
  get_critical_path fuel p = Done path ->
  NoDup (map task_id path).
Proof.
  intros Hpos H. destruct (critical_path_end p fuel path H) as (es & e & _ & Hb).
  apply backtrack_path in Hb; auto.
  - tauto.
  - constructor.
  - intros t [].
  - intros cid t _ [].
Qed.

(** X5. Whatever [get_critical_path] returns is a chain of dependencies
    among tasks of the project: every task of the path lists the id of the
    task before it among its dependencies, every task of the path is the
    task that [get_task_by_id] finds for its id, the path is not empty
    when no task has the empty string as its id, and when all durations
    are positive no id occurs twice on it, so that it is not longer than
    the project. *)
Theorem critical_path_is_dependency_chain (fuel : nat) (p : Project)
        (path : list Task) :
  get_critical_path fuel p = Done path ->
  dependency_chain path
  /\ (forall t, In t path ->
                In t (tasks p) /\ get_task_by_id p (task_id t) = Some t)
  /\ ((forall t, In t (tasks p) -> task_id t <> "") -> path <> [])
  /\ (positive_durations p ->
      NoDup (map task_id path)
      /\ (List.length path <= List.length (tasks p))%nat).
Proof.
  intros H. destruct (critical_path_shape fuel p path H) as (H1 & H2 & H3).
  split; [exact H1|]. split; [|split; [exact H3|]].
  - intros t Ht. specialize (H2 t Ht). split; [|exact H2].
    now destruct (find_task_Some _ _ _ H2).
  - intros Hpos. pose proof (critical_path_distinct fuel p path Hpos H) as Hnd.
    split; [exact Hnd|]. now apply found_tasks_length.
Qed.

Lemma critical_path_is_dependency_chain_witness :
  let A := Task_init "A" 5 100 [] None in
  let B := Task_init "B" 10 100 ["a"] None in
  let C := Task_init "C" 3 100 ["b"; "a"] None in
  let p := mkProject "Chain" [C; A; B] 3 "low" "" in
  dependency_chain [A; B; C]
  /\ (forall t, In t [A; B; C] ->
                In t (tasks p) /\ get_task_by_id p (task_id t) = Some t)
  /\ ((forall t, In t (tasks p) -> task_id t <> "") -> [A; B; C] <> [])
  /\ (positive_durations p ->
      NoDup (map task_id [A; B; C])
      /\ (List.length [A; B; C] <= List.length (tasks p))%nat).
Proof.
  cbv zeta.
  apply (critical_path_is_dependency_chain 3
           (mkProject "Chain"
              [Task_init "C" 3 100 ["b"; "a"] None;
               Task_init "A" 5 100 [] None;
               Task_init "B" 10 100 ["a"] None] 3 "low" "")).
  reflexivity.
Defined.

(** ** A dependency that no task has *)

Lemma single_task_path_raises nm t size risk descr fuel d ds :
  dependencies t = d :: ds ->
  d <> task_id t ->
  task_id t <> "" ->
  get_critical_path (S fuel) (mkProject nm [t] size risk descr)
  = Raised (KeyError d).
Proof.
  intros Hdeps Hd Hid.
  unfold get_critical_path, kahn_init, PyDict.comprehension. simpl.
  unfold PyDict.lookup at 1. simpl. rewrite String.eqb_refl. cbn [bind].
  rewrite Hdeps. simpl. unfold finish_key, PyDict.lookup, get_task_by_id, attr.
  simpl. rewrite !String.eqb_refl. simpl.
  apply String.eqb_neq in Hid. rewrite Hid.
  unfold get_task_by_id, attr. simpl. rewrite String.eqb_refl. cbn [bind].
  rewrite Hdeps. simpl. unfold PyDict.lookup. simpl.
  assert (E : String.eqb d (task_id t) = false) by now apply String.eqb_neq.
  rewrite E. reflexivity.
Qed.

(** X6. A dependency id that no task has makes the critical path raise
    instead of being skipped: for a project of a single task with a
    non-empty id whose first declared dependency is not its own id,
    [get_critical_path] raises [KeyError] on that dependency, and so does
    [calculate_parallel_timeline]; [validate_dependencies] reports the
    same dependency as a missing reference and does not raise. *)
Theorem critical_path_raises_on_missing_dependency
        (nm risk descr : string) (t : Task) (size : Z) (fuel : nat)
        (d : string) (ds : list string) :
  dependencies t = d :: ds ->
  d <> task_id t ->
  task_id t <> "" ->
  let p := mkProject nm [t] size risk descr in
  get_critical_path (S fuel) p = Raised (KeyError d)
  /\ calculate_parallel_timeline (S fuel) p = Raised (KeyError d)
  /\ In (missing_dependency_message t d) (missing_reference_errors p).
Proof.
  intros Hdeps Hd Hid p.
  pose proof (single_task_path_raises nm t size risk descr fuel d ds
                Hdeps Hd Hid) as H.
  fold p in H. split; [exact H|]. split.
  - unfold calculate_parallel_timeline. cbn [tasks p]. now rewrite H.
  - rewrite missing_reference_errors_eq.
    apply (in_map (fun m => missing_dependency_message (fst m) (snd m))
                  _ (t, d)).
    apply missing_references_In. cbn [tasks p]. split; [now left|].
    split; [rewrite Hdeps; now left|].
    simpl. intros [E | []]. now apply Hd.
Qed.

Lemma critical_path_raises_on_missing_dependency_witness :
  let t := Task_init "Deploy" 2 100 ["build"] None in
  let p := mkProject "Site" [t] 1 "low" "" in
  get_critical_path 1 p = Raised (KeyError "build")
  /\ calculate_parallel_timeline 1 p = Raised (KeyError "build")
  /\ In (missing_dependency_message t "build") (missing_reference_errors p).
Proof.
  cbv zeta.
  apply (critical_path_raises_on_missing_dependency
           "Site" "low" "" (Task_init "Deploy" 2 100 ["build"] None) 1 0
           "build" []).
  - reflexivity.
  - discriminate.
  - discriminate.
Defined.

(** ** Timeline breakdown and critical path analysis *)

Lemma path_days_nonneg fuel p path :
  positive_durations p ->
  get_critical_path fuel p = Done path ->
  0 <= py_sum (map estimated_days path).
Proof.
  intros Hpos H. rewrite py_sum_Qsum. apply Qsum_nonneg.
  intros x Hx. apply in_map_iff in Hx. destruct Hx as [t [<- Ht]].
  destruct (critical_path_shape fuel p path H) as (_ & Hf & _).
  destruct (find_task_Some _ _ _ (Hf t Ht)) as [Hin _].
  apply Qlt_le_weak. now apply Hpos.
Qed.

Lemma parallel_ge_critical_path fuel p path v :
  get_critical_path fuel p = Done path ->
  calculate_parallel_timeline fuel p = Done v ->
  tasks p <> [] ->
  py_sum (map estimated_days path) * risk_multiplier p <= v.
Proof.
  intros Hcp. unfold calculate_parallel_timeline.
  destruct (tasks p) as [|t0 ts0]; [congruence|].
  rewrite Hcp. cbn [bind].
  destruct (simulate_resource_constrained_schedule fuel p) as [tl| |];
    cbn [bind]; try discriminate.
  intros H _. inversion H; subst. apply Q.le_max_r.
Qed.

(** X7. The timeline breakdown: for a project with positive durations and
    a team of at least one, a breakdown that is returned has the keys
    [sequential], [parallel_optimistic] and [parallel_realistic] in this
    order, the first being the sequential timeline, with
    [0 <= parallel_optimistic <= parallel_realistic], the realistic
    estimate being at least the risk-adjusted length of the critical path.
    For a non-empty project with distinct ids, dependencies that resolve
    and no cycle the breakdown is returned once the fuel exceeds twice the
    number of tasks. *)
Theorem timeline_breakdown_ordered (fuel : nat) (p : Project) :
  positive_durations p ->
  (1 <= team_size p)%Z ->
  (forall d, calculate_timeline_breakdown fuel p = Done d ->
             exists s o r,
               d = [("sequential", s); ("parallel_optimistic", o);
                    ("parallel_realistic", r)]
               /\ s = calculate_sequential_timeline p
               /\ 0 <= o /\ o * risk_multiplier p <= r
               /\ o <= r)
  /\ (NoDup (map task_id (tasks p)) -> all_resolve p -> ~ has_cycle_in p ->
      tasks p <> [] -> (2 * List.length (tasks p) < fuel)%nat ->
      exists d, calculate_timeline_breakdown fuel p = Done d).
Proof.
  intros Hpos Hsize. unfold calculate_timeline_breakdown. split.
  - intros d.
    destruct (get_critical_path fuel p) as [path| |] eqn:Ecp; cbn [bind];
      try discriminate.
    destruct (calculate_parallel_timeline fuel p) as [r| |] eqn:Epar;
      cbn [bind]; try discriminate.
    intros H. inversion H; subst; clear H.
    eexists _, _, _. split; [reflexivity|]. split; [reflexivity|].
    pose proof (path_days_nonneg fuel p path Hpos Ecp) as Ho.
    pose proof (risk_multiplier_gt_one p) as Hrm.
    assert (Hne : tasks p <> []).
    { intros Hnil.
      destruct (critical_path_end p fuel path Ecp) as (es & e & He & _).
      rewrite Hnil in He. exact He. }
    pose proof (parallel_ge_critical_path fuel p path r Ecp Epar Hne) as Hor.
    split; [exact Ho|]. split; [exact Hor|]. nra.
  - intros Hnd Hres Hcyc Hne Hfuel.
    assert (Hwf : well_formed p) by (unfold well_formed; tauto).
    destruct (get_critical_path_returns fuel p Hwf Hne) as [path ->]; [lia|].
    destruct (parallel_timeline_returns fuel p Hwf Hfuel) as [v [-> _]].
    cbn [bind]. eexists. reflexivity.
Qed.

Lemma timeline_breakdown_ordered_witness :
  let p := mkProject "Chain"
             [Task_init "A" 5 100 [] None; Task_init "B" 10 100 ["a"] None;
              Task_init "C" 3 100 ["b"] None; Task_init "D" 4 100 [] None]
             2 "low" "" in
  (forall d, calculate_timeline_breakdown 10 p = Done d ->
             exists s o r,
               d = [("sequential", s); ("parallel_optimistic", o);
                    ("parallel_realistic", r)]
               /\ s = calculate_sequential_timeline p
               /\ 0 <= o /\ o * risk_multiplier p <= r
               /\ o <= r)
  /\ (NoDup (map task_id (tasks p)) -> all_resolve p -> ~ has_cycle_in p ->
      tasks p <> [] -> (2 * List.length (tasks p) < 10)%nat ->
      exists d, calculate_timeline_breakdown 10 p = Done d).
Proof.
  cbv zeta.
  apply (timeline_breakdown_ordered 10
           (mkProject "Chain"
              [Task_init "A" 5 100 [] None; Task_init "B" 10 100 ["a"] None;
               Task_init "C" 3 100 ["b"] None; Task_init "D" 4 100 [] None]
              2 "low" "")).
  - intros t Ht. simpl in Ht.
    destruct Ht as [<- | [<- | [<- | [<- | []]]]]; reflexivity.
  - simpl. lia.
Defined.

(** X8. The critical path analysis of a project with positive durations
    and non-negative daily rates: the duration and the cost it reports are
    not negative; the adjusted figures, present when a path exists, are
    the reported ones times the risk multiplier and at least the reported
    ones; every name listed is the name of a task of the project; the task
    count, when present, is the number of names listed and lies between
    one and the number of tasks of the project; and when no path exists the
    names are empty and duration and cost are zero. *)
Theorem critical_path_analysis_bounds (fuel : nat) (p : Project)
        (a : PathAnalysis.t) :
  positive_durations p ->
  (forall t, In t (tasks p) -> 0 <= cost_per_day t) ->
  get_critical_path_analysis fuel p = Done a ->
  0 <= PathAnalysis.duration a
  /\ 0 <= PathAnalysis.cost a
  /\ (forall d, PathAnalysis.adjusted_duration a = Some d ->
                d == PathAnalysis.duration a * risk_multiplier p
                /\ PathAnalysis.duration a <= d)
  /\ (forall c, PathAnalysis.adjusted_cost a = Some c ->
                c == PathAnalysis.cost a * risk_multiplier p
                /\ PathAnalysis.cost a <= c)
  /\ incl (PathAnalysis.tasks a) (map name (tasks p))
  /\ (forall n, PathAnalysis.task_count a = Some n ->
                n = Z.of_nat (List.length (PathAnalysis.tasks a))
                /\ (1 <= n <= task_count p)%Z)
  /\ (PathAnalysis.path_exists a = true
      <-> PathAnalysis.task_count a <> None)
  /\ (PathAnalysis.path_exists a = false ->
      PathAnalysis.tasks a = [] /\ PathAnalysis.duration a = 0
      /\ PathAnalysis.cost a = 0).
Proof.
  intros Hpos Hcost. unfold get_critical_path_analysis.
  destruct (get_critical_path fuel p) as [path| |] eqn:Ecp; cbn [bind];
    try discriminate.
  assert (Hdays : forall t, In t (tasks p) -> 0 <= estimated_days t)
    by (intros t Ht; apply Qlt_le_weak; now apply Hpos).
  assert (Hbase : forall t, In t (tasks p) -> 0 <= base_cost t).
  { intros t Ht. unfold base_cost. apply Qmult_le_0_compat; auto. }
  pose proof (risk_multiplier_gt_one p) as Hrm.
  destruct (critical_path_shape fuel p path Ecp) as (_ & Hf & _).
  assert (Hin : forall t, In t path -> In t (tasks p)).
  { intros t Ht. now destruct (find_task_Some _ _ _ (Hf t Ht)). }
  pose proof (critical_path_distinct fuel p path Hpos Ecp) as Hnd.
  assert (Hd : 0 <= py_sum (map estimated_days path)).
  { rewrite py_sum_Qsum. apply Qsum_nonneg. intros x Hx.
    apply in_map_iff in Hx. destruct Hx as [t [<- Ht]]. auto. }
  assert (Hc : 0 <= py_sum (map base_cost path)).
  { rewrite py_sum_Qsum. apply Qsum_nonneg. intros x Hx.
    apply in_map_iff in Hx. destruct Hx as [t [<- Ht]]. auto. }
  assert (Hnames : incl (map name path) (map name (tasks p))).
  { intros x Hx. apply in_map_iff in Hx. destruct Hx as [t [<- Ht]].
    apply in_map. auto. }
  assert (Hup : forall x, 0 <= x -> x <= x * risk_multiplier p)
    by (intros x Hx; nra).
  pose proof (found_tasks_length (tasks p) path Hnd Hf) as Hlen.
  clear Ecp Hf Hnd Hin.
  destruct path as [|t0 path0]; intros H; inversion H; subst a;
    clear H; cbn [PathAnalysis.duration PathAnalysis.cost
                  PathAnalysis.adjusted_duration PathAnalysis.adjusted_cost
                  PathAnalysis.task_count PathAnalysis.tasks
                  PathAnalysis.path_exists].
  - split; [apply Qle_refl|]. split; [apply Qle_refl|].
    split; [discriminate|]. split; [discriminate|].
    split; [intros x []|]. split; [discriminate|].
    split; [split; [discriminate | intros Hn; now contradiction Hn]|].
    intros _. repeat split; reflexivity.
  - split; [exact Hd|]. split; [exact Hc|].
    split; [|split; [|split; [|split]]].
    + intros d Hd'. inversion Hd'; subst.
      split; [reflexivity | exact (Hup _ Hd)].
    + intros c Hc'. inversion Hc'; subst.
      split; [reflexivity | exact (Hup _ Hc)].
    + exact Hnames.
    + intros n Hn. inversion Hn; subst.
      change (name t0 :: map name path0) with (map name (t0 :: path0)).
      rewrite length_map.
      split; [reflexivity|]. unfold task_count.
      simpl List.length in *. lia.
    + split; [split; [discriminate | reflexivity] | discriminate].
Qed.

Lemma critical_path_analysis_bounds_witness :
  let p := mkProject "Chain"
             [Task_init "A" 5 100 [] None; Task_init "B" 10 100 ["a"] None;
              Task_init "C" 3 100 ["b"] None; Task_init "D" 4 100 [] None]
             2 "low" "" in
  exists a,
    get_critical_path_analysis 10 p = Done a
    /\ PathAnalysis.tasks a = ["A"; "B"; "C"]
    /\ 0 <= PathAnalysis.duration a
    /\ 0 <= PathAnalysis.cost a
    /\ incl (PathAnalysis.tasks a) (map name (tasks p)).
Proof.
  cbv zeta. eexists. split; [reflexivity|]. split; [reflexivity|].
  pose proof (critical_path_analysis_bounds 10
                (mkProject "Chain"
                   [Task_init "A" 5 100 [] None;
                    Task_init "B" 10 100 ["a"] None;
                    Task_init "C" 3 100 ["b"] None;
                    Task_init "D" 4 100 [] None] 2 "low" "") _
                ltac:(intros t Ht; simpl in Ht;
                      destruct Ht as [<- | [<- | [<- | [<- | []]]]];
                      reflexivity)
                ltac:(intros t Ht; simpl in Ht;
                      destruct Ht as [<- | [<- | [<- | [<- | []]]]];
                      discriminate)
                eq_refl) as H.
  split; [exact (proj1 H)|]. split; [exact (proj1 (proj2 H))|].
  exact (proj1 (proj2 (proj2 (proj2 (proj2 H))))).
Defined.

(** ** Percentiles, scenarios and means *)

Lemma StronglySorted_nth_le l :
  StronglySorted Qle l ->
  forall i j x y, (i <= j)%nat ->
                  nth_error l i = Some x -> nth_error l j = Some y -> x <= y.
Proof.
  induction 1 as [|a l Hs IH Hall]; intros i j x y Hij Hi Hj.
  - destruct i; discriminate.
  - destruct i as [|i], j as [|j]; simpl in *.
    + inversion Hi; inversion Hj; subst. apply Qle_refl.
    + inversion Hi; subst. rewrite Forall_forall in Hall. apply Hall.
      eapply nth_error_In. exact Hj.
    + lia.
    + apply (IH i j); auto. lia.
Qed.

Lemma nearest_rank_index_mono n p q :
  p <= q -> (nearest_rank_index n p <= nearest_rank_index n q)%Z.
Proof.
  intros Hpq. unfold nearest_rank_index, clamp.
  assert (H : (Qfloor (inject_Z (Z.of_nat n) * p / 100)
               <= Qfloor (inject_Z (Z.of_nat n) * q / 100))%Z).
  { apply Qfloor_resp_le.
    assert (Hn : 0 <= inject_Z (Z.of_nat n)).
    { unfold Qle. simpl. lia. }
    unfold Qdiv. apply Qmult_le_compat_r; [|discriminate].
    rewrite !(Qmult_comm (inject_Z (Z.of_nat n))).
    now apply Qmult_le_compat_r. }
  lia.
Qed.

Lemma percentile_at v vs p :
  0 <= p ->
  exists x,
    calculate_percentile (v :: vs) p = Done x
    /\ nth_error (sorted_by Qlt_bool (v :: vs))
                 (Z.to_nat (nearest_rank_index (List.length (v :: vs)) p))
       = Some x.
Proof.
  intros Hp. unfold calculate_percentile. cbv zeta.
  rewrite sorted_by_length.
  destruct (percentile_index v vs p Hp) as [E R]. cbv zeta in E.
  rewrite E. apply py_index_in_range. rewrite sorted_by_length. exact R.
Qed.

Lemma percentile_member values p x :
  values <> [] -> 0 <= p ->
  calculate_percentile values p = Done x -> In x values.
Proof.
  intros Hne Hp H. destruct values as [|v vs]; [congruence|].
  destruct (percentile_at v vs p Hp) as [y [E Hn]].
  rewrite E in H. inversion H; subst y.
  apply (Permutation_in _ (sorted_by_perm Qlt_bool (v :: vs))).
  eapply nth_error_In. exact Hn.
Qed.

Lemma percentile_mono values p q :
  0 <= p -> p <= q ->
  exists x y,
    calculate_percentile values p = Done x
    /\ calculate_percentile values q = Done y
    /\ x <= y.
Proof.
  intros Hp Hpq. destruct values as [|v vs].
  - exists 0, 0. repeat split. apply Qle_refl.
  - assert (Hq : 0 <= q) by (now apply Qle_trans with p).
    destruct (percentile_at v vs p Hp) as [x [Ex Hx]].
    destruct (percentile_at v vs q Hq) as [y [Ey Hy]].
    exists x, y. split; [exact Ex|]. split; [exact Ey|].
    pose proof (percentile_index v vs p Hp) as [_ Rp]. cbv zeta in Rp.
    pose proof (nearest_rank_index_mono (List.length (v :: vs)) p q Hpq)
      as Hm.
    assert (Hij : (Z.to_nat (nearest_rank_index (List.length (v :: vs)) p)
                   <= Z.to_nat (nearest_rank_index (List.length (v :: vs)) q))%nat)
      by (apply Z2Nat.inj_le; lia).
    exact (StronglySorted_nth_le _ (sorted_by_Qle (v :: vs)) _ _ x y
             Hij Hx Hy).
Qed.

Lemma nearest_rank_index_0 n : (0 < n)%nat -> nearest_rank_index n 0 = 0%Z.
Proof.
  intros Hn. unfold nearest_rank_index, clamp.
  replace (Qfloor (inject_Z (Z.of_nat n) * 0 / 100)) with 0%Z; [lia|].
  symmetry. transitivity (Qfloor 0); [|reflexivity].
  apply Qfloor_comp. field.
Qed.

Lemma nearest_rank_index_100 n :
  (0 < n)%nat -> nearest_rank_index n 100 = (Z.of_nat n - 1)%Z.
Proof.
  intros Hn. unfold nearest_rank_index, clamp.
  replace (Qfloor (inject_Z (Z.of_nat n) * 100 / 100)) with (Z.of_nat n);
    [lia|].
  symmetry. rewrite <- (Qfloor_Z (Z.of_nat n)) at 2.
  apply Qfloor_comp. field.
Qed.

Lemma percentile_extremes values :
  exists lo hi,
    calculate_percentile values 0 = Done lo
    /\ calculate_percentile values 100 = Done hi
    /\ (forall x, In x values -> lo <= x /\ x <= hi).
Proof.
  destruct values as [|v vs].
  - exists 0, 0. repeat split; destruct H.
  - destruct (percentile_at v vs 0 ltac:(discriminate)) as [lo [Elo Hlo]].
    destruct (percentile_at v vs 100 ltac:(discriminate)) as [hi [Ehi Hhi]].
    exists lo, hi. split; [exact Elo|]. split; [exact Ehi|].
    rewrite nearest_rank_index_0 in Hlo by (simpl; lia).
    rewrite nearest_rank_index_100 in Hhi by (simpl; lia).
    intros x Hx.
    apply (Permutation_in _ (Permutation_sym
                               (sorted_by_perm Qlt_bool (v :: vs)))) in Hx.
    apply In_nth_error in Hx. destruct Hx as [j Hj].
    assert (Hjlt : (j < List.length (sorted_by Qlt_bool (v :: vs)))%nat).
    { apply nth_error_Some. congruence. }
    rewrite sorted_by_length in Hjlt.
    pose proof (sorted_by_Qle (v :: vs)) as Hs. split.
    + apply (StronglySorted_nth_le _ Hs 0%nat j); auto. lia.
    + assert (Hjn : (j <= Z.to_nat (Z.of_nat (List.length (v :: vs)) - 1))%nat)
        by lia.
      exact (StronglySorted_nth_le _ Hs j _ x hi Hjn Hj Hhi).
Qed.

(** X9. [calculate_percentile] is monotone in the percentile and selects
    an element of the data: for [0 <= p <= q] both percentiles are
    returned, the one for [p] is at most the one for [q], and for a
    non-empty list both are elements of it. *)
Theorem calculate_percentile_monotone (values : list Q) (p q : Q) :
  0 <= p -> p <= q ->
  exists x y,
    calculate_percentile values p = Done x
    /\ calculate_percentile values q = Done y
    /\ x <= y
    /\ (values <> [] -> In x values /\ In y values).
Proof.
  intros Hp Hpq.
  destruct (percentile_mono values p q Hp Hpq) as (x & y & Ex & Ey & Hxy).
  exists x, y. repeat split; auto.
  - apply (percentile_member values p); auto.
  - apply (percentile_member values q); auto. now apply Qle_trans with p.
Qed.

Lemma calculate_percentile_monotone_witness :
  exists x y,
    calculate_percentile [30; 10; 20; 50; 40] 25 = Done x
    /\ calculate_percentile [30; 10; 20; 50; 40] 80 = Done y
    /\ x <= y
    /\ ([30; 10; 20; 50; 40] <> [] ->
        In x [30; 10; 20; 50; 40] /\ In y [30; 10; 20; 50; 40]).
Proof.
  apply (calculate_percentile_monotone [30; 10; 20; 50; 40] 25 80);
    discriminate.
Defined.

(** X10. [get_scenarios] always returns its five entries, in the order
    [best_case], [expected], [worst_case], [p50], [p75], and the
    percentile scenarios are ordered: the cost of [best_case] is at most
    that of [p50], which is at most that of [p75], which is at most that of
    [worst_case], and likewise for the timelines; [expected] holds the two
    means. *)
Theorem get_scenarios_ordered (r : SimulationResult) :
  exists best expected worst p50 p75,
    get_scenarios r
    = Done [("best_case", best); ("expected", expected);
            ("worst_case", worst); ("p50", p50); ("p75", p75)]
    /\ Scenario.cost best <= Scenario.cost p50
    /\ Scenario.cost p50 <= Scenario.cost p75
    /\ Scenario.cost p75 <= Scenario.cost worst
    /\ Scenario.timeline best <= Scenario.timeline p50
    /\ Scenario.timeline p50 <= Scenario.timeline p75
    /\ Scenario.timeline p75 <= Scenario.timeline worst
    /\ Scenario.cost expected = cost_mean r
    /\ Scenario.timeline expected = timeline_mean r.
Proof.
  unfold get_scenarios, get_cost_percentile, get_timeline_percentile.
  destruct (percentile_mono (costs r) 10 50) as (c10 & c50 & E1 & E2 & H1);
    try discriminate.
  destruct (percentile_mono (costs r) 50 75) as (c50' & c75 & E3 & E4 & H2);
    try discriminate.
  destruct (percentile_mono (costs r) 75 90) as (c75' & c90 & E5 & E6 & H3);
    try discriminate.
  destruct (percentile_mono (timelines r) 10 50)
    as (t10 & t50 & F1 & F2 & G1); try discriminate.
  destruct (percentile_mono (timelines r) 50 75)
    as (t50' & t75 & F3 & F4 & G2); try discriminate.
  destruct (percentile_mono (timelines r) 75 90)
    as (t75' & t90 & F5 & F6 & G3); try discriminate.
  rewrite E2 in E3. inversion E3; subst c50'.
  rewrite E4 in E5. inversion E5; subst c75'.
  rewrite F2 in F3. inversion F3; subst t50'.
  rewrite F4 in F5. inversion F5; subst t75'.
  rewrite E1, F1, E6, F6, E2, F2, E4, F4. cbn [bind].
  eexists _, _, _, _, _. split; [reflexivity|].
  cbn [Scenario.cost Scenario.timeline]. repeat split; assumption.
Qed.

Lemma Qsum_nonpos xs : (forall x, In x xs -> x <= 0) -> Qsum xs <= 0.
Proof.
  induction xs as [|x xs IH]; intros H; simpl; [lra|].
  assert (x <= 0) by (apply H; now left).
  assert (Qsum xs <= 0) by (apply IH; intros y Hy; apply H; now right).
  lra.
Qed.

Lemma mean_sign xs :
  ((forall x, In x xs -> 0 <= x) -> 0 <= mean_of xs)
  /\ ((forall x, In x xs -> x <= 0) -> mean_of xs <= 0).
Proof.
  destruct xs as [|x xs]; [split; intros _; apply Qle_refl|].
  unfold mean_of.
  assert (Hn : 0 < inject_Z (Z.of_nat (List.length (x :: xs)))).
  { unfold Qlt. simpl. lia. }
  rewrite py_sum_Qsum. split; intros H.
  - apply Qle_shift_div_l; [exact Hn|]. rewrite Qmult_0_l.
    now apply Qsum_nonneg.
  - apply Qle_shift_div_r; [exact Hn|]. rewrite Qmult_0_l.
    now apply Qsum_nonpos.
Qed.

Lemma extremes_enclose values :
  exists lo hi,
    calculate_percentile values 0 = Done lo
    /\ calculate_percentile values 100 = Done hi
    /\ lo <= hi
    /\ (forall x, In x values -> lo <= x /\ x <= hi)
    /\ (0 <= lo -> 0 <= mean_of values)
    /\ (hi <= 0 -> mean_of values <= 0).
Proof.
  destruct (percentile_extremes values) as (lo & hi & E1 & E2 & H).
  exists lo, hi. split; [exact E1|]. split; [exact E2|].
  destruct (mean_sign values) as [Hpos Hneg].
  split; [|split; [exact H|split]].
  - destruct values as [|v vs].
    + inversion E1; inversion E2; subst. apply Qle_refl.
    + destruct (H v (or_introl eq_refl)) as [H1 H2].
      now apply Qle_trans with v.
  - intros Hlo. apply Hpos. intros x Hx. destruct (H x Hx) as [H1 _].
    now apply Qle_trans with lo.
  - intros Hhi. apply Hneg. intros x Hx. destruct (H x Hx) as [_ H2].
    now apply Qle_trans with hi.
Qed.

(** X11. The extreme percentiles enclose the series and give the sign of
    the mean: the percentiles 0 and 100 of the costs are returned, the
    first is at most the second, every cost lies between them,
    [cost_mean] is not negative when the percentile 0 is not, and not
    positive when the percentile 100 is not; likewise for the timelines
    and [timeline_mean]. *)
Theorem extreme_percentiles_enclose_series (r : SimulationResult) :
  (exists lo hi,
      get_cost_percentile r 0 = Done lo
      /\ get_cost_percentile r 100 = Done hi
      /\ lo <= hi
      /\ (forall c, In c (costs r) -> lo <= c /\ c <= hi)
      /\ (0 <= lo -> 0 <= cost_mean r)
      /\ (hi <= 0 -> cost_mean r <= 0))
  /\ (exists lo hi,
         get_timeline_percentile r 0 = Done lo
         /\ get_timeline_percentile r 100 = Done hi
         /\ lo <= hi
         /\ (forall t, In t (timelines r) -> lo <= t /\ t <= hi)
         /\ (0 <= lo -> 0 <= timeline_mean r)
         /\ (hi <= 0 -> timeline_mean r <= 0)).
Proof.
  unfold get_cost_percentile, get_timeline_percentile, cost_mean,
    timeline_mean.
  split; apply extremes_enclose.
Qed.

(** ** Risk drivers *)


(** ** Normalisation of the risk level *)

(** X13. [validate_risk_level] accepts exactly the strings of ASCII
    characters that, lowercased and stripped of surrounding whitespace, are
    one of the three levels, and returns that normal form; on the other
    strings of ASCII characters it raises [ValueError]. Its result is a
    fixed point of the validation, and the Project constructor accepts it
    and stores it unchanged. The constructor itself does not strip: an
    input with surrounding blanks that the validation accepts is rejected
    by the constructor. *)
Theorem validate_risk_level_normalises :
  (forall r r',
      isascii r = true ->
      (validate_risk_level r = Done r'
       <-> (r' = strip (PyStr.lower r) /\ In r' valid_risk_levels)))
  /\ (forall r,
         isascii r = true ->
         ((exists msg, validate_risk_level r = Raised (ValueError msg))
          <-> ~ In (strip (PyStr.lower r)) valid_risk_levels))
  /\ (forall r r',
         validate_risk_level r = Done r' ->
         validate_risk_level r' = Done r'
         /\ forall nm ts size d,
             (1 <= size)%Z -> ts <> [] ->
             Project_init nm ts size r' d = Done (mkProject nm ts size r' d))
  /\ (validate_risk_level " High " = Done "high"
      /\ forall nm ts size d,
          exists e, Project_init nm ts size " High " d = Raised e).
Proof.
  split; [|split; [|split]].
  - intros r r' _. unfold validate_risk_level. cbv zeta.
    fold valid_risk_levels.
    destruct (PyStr.mem (strip (PyStr.lower r)) valid_risk_levels) eqn:E;
      simpl.
    + apply mem_In in E. split.
      * intros H. inversion H; subst. auto.
      * intros [-> _]. reflexivity.
    + apply mem_not_In in E. split; [discriminate|].
      intros [-> H]. contradiction.
  - intros r _. unfold validate_risk_level. cbv zeta.
    fold valid_risk_levels.
    destruct (PyStr.mem (strip (PyStr.lower r)) valid_risk_levels) eqn:E;
      simpl.
    + apply mem_In in E. split; [intros [msg H]; discriminate | tauto].
    + apply mem_not_In in E. split; [auto|]. intros _. eexists. reflexivity.
  - intros r r'. unfold validate_risk_level at 1. cbv zeta.
    fold valid_risk_levels.
    destruct (PyStr.mem (strip (PyStr.lower r)) valid_risk_levels) eqn:E;
      simpl; [|discriminate].
    intros H. inversion H; subst r'; clear H. apply mem_In in E.
    assert (Hcases : forall lvl, In lvl valid_risk_levels ->
              validate_risk_level lvl = Done lvl
              /\ forall nm ts size d,
                  (1 <= size)%Z -> ts <> [] ->
                  Project_init nm ts size lvl d
                  = Done (mkProject nm ts size lvl d)).
    { intros lvl Hl. simpl in Hl.
      destruct Hl as [<- | [<- | [<- | []]]];
        (split; [reflexivity|]); intros nm ts size d Hsize Hts;
        unfold Project_init;
        (destruct (size <=? 0)%Z eqn:Es; [lia|]);
        (destruct ts; [congruence|]); reflexivity. }
    now apply Hcases.
  - split; [reflexivity|]. intros nm ts size d. unfold Project_init.
    destruct (size <=? 0)%Z; [eexists; reflexivity|].
    destruct ts; eexists; reflexivity.
Qed.

(** ** Validation of projects that cannot start *)

Lemma filter_nil_false {A} (f : A -> bool) l :
  filter f l = [] -> forall x, In x l -> f x = false.
Proof.
  induction l as [|a l IH]; simpl; intros H x Hx; [contradiction|].
  destruct (f a) eqn:E; [discriminate|].
  destruct Hx as [<- | Hx]; auto.
Qed.

Lemma no_independent_task_cycle p :
  tasks p <> [] ->
  get_independent_tasks p = [] ->
  all_resolve p ->
  has_cycle_in p.
Proof.
  intros Hne Hind Hres. unfold has_cycle_in.
  apply (closed_set_cyclic (dependency_graph p) (map task_id (tasks p))).
  { intros E. apply map_eq_nil in E. contradiction. }
  intros u Hu.
  assert (Hk : In u (PyDict.keys (dependency_graph p)))
    by now apply dependency_graph_keys.
  apply contains_keys in Hk. unfold PyDict.contains in Hk.
  destruct (PyDict.get (dependency_graph p) u) as [deps|] eqn:E;
    [|discriminate].
  pose proof E as E'.
  apply (build_get_some task_id dependencies) in E'.
  destruct E' as [E' | [t [Ht [Hid Hv]]]]; [discriminate|].
  pose proof (filter_nil_false _ _ Hind t Ht) as Hd.
  apply negb_false_iff in Hd. unfold has_dependencies in Hd.
  apply Nat.ltb_lt in Hd. rewrite Hv in Hd.
  destruct deps as [|v deps]; [simpl in Hd; lia|].
  exists v. split.
  - apply (Hres t v Ht). rewrite Hv. now left.
  - unfold edge, PyDict.get_default. rewrite E. now left.
Qed.

Lemma missing_references_resolve p :
  missing_references p = [] -> all_resolve p.
Proof.
  intros H t d Ht Hd.
  destruct (in_dec string_dec d (map task_id (tasks p))) as [Hin | Hn];
    [exact Hin|].
  assert (Hm : In (t, d) (missing_references p))
    by (apply missing_references_In; auto).
  rewrite H in Hm. contradiction.
Qed.

(** X14. Validation reports projects that can never start. With fuel above
    the number of tasks [validate_dependencies] returns a list of errors;
    the list is not empty when the project has tasks and
    [get_independent_tasks] finds none, and it contains the circular
    dependency message when ids are distinct and some task lists its own id
    among its dependencies. *)
Theorem validation_rejects_unstartable_projects (fuel : nat) (p : Project) :
  (List.length (tasks p) < fuel)%nat ->
  exists errors,
    snd (validate_dependencies fuel p) = Done errors
    /\ (tasks p <> [] -> get_independent_tasks p = [] -> errors <> [])
    /\ (NoDup (map task_id (tasks p)) ->
        forall t, In t (tasks p) -> In (task_id t) (dependencies t) ->
                  In circular_message errors).
Proof.
  intros Hfuel. unfold validate_dependencies. cbn [snd].
  destruct (has_circular_dependency_correct fuel p Hfuel) as [b [-> Hb]].
  cbn [bind]. eexists. split; [reflexivity|]. split.
  - intros Hne Hind.
    destruct (missing_reference_errors p) as [|e es] eqn:Em.
    + assert (Hres : all_resolve p).
      { apply missing_references_resolve.
        rewrite missing_reference_errors_eq in Em.
        now apply map_eq_nil in Em. }
      pose proof (no_independent_task_cycle p Hne Hind Hres) as Hc.
      apply Hb in Hc. subst b. discriminate.
    + destruct b; discriminate.
  - intros Hnd t Ht Hself.
    assert (Hc : has_cycle_in p).
    { exists (task_id t). apply reach_edge.
      now apply edge_of_unique_ids. }
    apply Hb in Hc. subst b. apply in_or_app. right. now left.
Qed.

Lemma validation_rejects_unstartable_projects_witness :
  exists errors,
    snd (validate_dependencies 3
           (mkProject "Loop"
              [Task_init "T1" 5 1 ["t2"] None; Task_init "T2" 3 1 ["t2"] None]
              2 "medium" "")) = Done errors
    /\ errors = ["Project has circular dependencies"].
Proof.
  destruct (validation_rejects_unstartable_projects 3
              (mkProject "Loop"
                 [Task_init "T1" 5 1 ["t2"] None;
                  Task_init "T2" 3 1 ["t2"] None] 2 "medium" "")
              ltac:(simpl; lia)) as [errors [H _]].
  exists errors. split; [exact H|].
  vm_compute in H. now inversion H.
Defined.

(** ** Simulated costs *)

Section SimulatedCosts.

Variable rng : Type.
Variable uniform : Q -> Q -> rng -> Q * rng.
Variable gauss : Q -> Q -> rng -> Q * rng.

(** [random.uniform(a, b)] draws nothing below [a] *)
Hypothesis uniform_range :
  forall a b g, a <= b -> a <= fst (uniform a b g).

Lemma variation_range_bounds p :
  (15 # 100) <= get_variation_range p /\ get_variation_range p <= (50 # 100).
Proof.
  unfold get_variation_range.
  repeat match goal with
         | |- context [if ?b then _ else _] => destruct b
         end; split; discriminate.
Qed.

Lemma simulate_tasks_cost p ts : forall c0 d0 g0 c d g,
  (forall t, In t ts -> 0 <= base_cost t) ->
  0 <= c0 ->
  fold_left (simulate_task rng uniform p) ts (c0, d0, g0) = (c, d, g) ->
  c0 <= c
  /\ forall t, In t ts ->
               (1 - get_variation_range p * (1 # 2)) * base_cost t <= c.
Proof.
  pose proof (variation_range_bounds p) as [Hlo Hhi].
  induction ts as [|t ts IH]; intros c0 d0 g0 c d g Hb Hc0 H.
  - simpl in H. inversion H; subst. split; [apply Qle_refl | intros t []].
  - cbn [fold_left] in H.
    remember (simulate_task rng uniform p (c0, d0, g0) t) as acc eqn:Ea.
    unfold simulate_task in Ea.
    pose proof (uniform_range (1 - get_variation_range p * (1 # 2))
                              (1 + get_variation_range p) g0
                              ltac:(lra)) as Hm.
    destruct (uniform (1 - get_variation_range p * (1 # 2))
                      (1 + get_variation_range p) g0) as [m g1].
    destruct (uniform (1 - get_variation_range p * (3 # 10))
                      (1 + get_variation_range p * (12 # 10)) g1)
      as [m2 g2].
    subst acc.
    pose proof (Hb t (or_introl eq_refl)) as Ht.
    simpl fst in Hm.
    assert (Hx : (1 - get_variation_range p * (1 # 2)) * base_cost t
                 <= base_cost t * m).
    { rewrite (Qmult_comm (base_cost t) m).
      now apply Qmult_le_compat_r. }
    assert (Hx0 : 0 <= (1 - get_variation_range p * (1 # 2)) * base_cost t).
    { apply Qmult_le_0_compat; [lra | exact Ht]. }
    apply IH in H; [|intros t' Ht'; apply Hb; now right | lra].
    destruct H as [H1 H2]. split; [lra|].
    intros t' [<- | Ht']; [lra | now apply H2].
Qed.

Lemma risk_factor_ge_one p g : 1 <= fst (get_risk_factor rng gauss p g).
Proof.
  unfold get_risk_factor. destruct (gauss 0 (1 # 10) g) as [v g'].
  simpl. apply Q.le_max_l.
Qed.

Lemma single_scenario_cost p g c t g' :
  (forall x, In x (tasks p) -> 0 <= base_cost x) ->
  simulate_single_scenario rng uniform gauss p g = Done (c, t, g') ->
  0 <= c
  /\ forall x, In x (tasks p) ->
               (1 - get_variation_range p * (1 # 2)) * base_cost x <= c.
Proof.
  intros Hb. unfold simulate_single_scenario.
  destruct (fold_left (simulate_task rng uniform p) (tasks p) (0, [], g))
    as [[c1 d1] g1] eqn:Ef.
  apply simulate_tasks_cost in Ef; [|exact Hb | apply Qle_refl].
  destruct Ef as [Hc1 Hfloor].
  destruct (calculate_scenario_timeline rng uniform p d1 g1)
    as [[tl g2]| |]; cbn [bind]; try discriminate.
  pose proof (risk_factor_ge_one p g2) as Hrf.
  destruct (get_risk_factor rng gauss p g2) as [rf g3]. simpl fst in Hrf.
  intros H. inversion H; subst; clear H.
  assert (Hmul : c1 * 1 <= c1 * rf).
  { rewrite !(Qmult_comm c1). now apply Qmult_le_compat_r. }
  split; [lra|]. intros x Hx. pose proof (Hfloor x Hx). lra.
Qed.

Lemma simulation_loop_costs p (P : Q -> Prop) n : forall cs ts g cs' ts' g',
  (forall g c t g', simulate_single_scenario rng uniform gauss p g
                    = Done (c, t, g') -> P c) ->
  simulation_loop rng uniform gauss n p cs ts g = Done (cs', ts', g') ->
  Forall P cs -> Forall P cs'.
Proof.
  induction n as [|n IH]; intros cs ts g cs' ts' g' Hone H Hcs.
  - simpl in H. inversion H; subst. exact Hcs.
  - simpl in H.
    destruct (simulate_single_scenario rng uniform gauss p g)
      as [[[c t] g1]| |] eqn:E; cbn [bind] in H; try discriminate.
    apply (IH _ _ _ _ _ _ Hone H).
    apply Forall_app. split; [exact Hcs|].
    constructor; [|constructor]. exact (Hone _ _ _ _ E).
Qed.

(** X15. Simulated costs have a floor. When the uniform draws are not
    below the lower end requested and no task has a negative base cost,
    every cost that [run_simulation] records is not negative and, for
    every task of the project, at least [(1 - variation_range / 2)] times
    the base cost of the task, hence at least three quarters of it
    whatever the risk level: the per-task multipliers are at least
    [1 - variation_range / 2], the costs of the other tasks are not
    negative and the risk factor is at least 1. *)
Theorem simulated_costs_have_floor (sim : RiskSimulator) (g g' : rng)
        (r : SimulationResult) :
  (forall t, In t (tasks (sim_project sim)) -> 0 <= base_cost t) ->
  run_simulation rng uniform gauss sim g = Done (r, g') ->
  Forall (fun c =>
            0 <= c
            /\ forall t, In t (tasks (sim_project sim)) ->
                 (1 - get_variation_range (sim_project sim) * (1 # 2))
                 * base_cost t <= c
                 /\ (3 # 4) * base_cost t <= c)
         (costs r).
Proof.
  intros Hb. unfold run_simulation.
  destruct (simulation_loop rng uniform gauss
              (Z.to_nat (sim_iterations sim)) (sim_project sim) [] [] g)
    as [[[cs ts] g1]| |] eqn:E; cbn [bind]; try discriminate.
  intros H. inversion H; subst; clear H. cbn [costs].
  pose proof (simulation_loop_costs (sim_project sim)
                (fun c => 0 <= c
                          /\ forall t, In t (tasks (sim_project sim)) ->
                               (1 - get_variation_range (sim_project sim)
                                    * (1 # 2)) * base_cost t <= c)
                _ _ _ _ _ _ _
                (fun g c t g' => single_scenario_cost _ g c t g' Hb)
                E (Forall_nil _)) as Hall.
  eapply Forall_impl; [|exact Hall].
  intros c [Hc0 Hc]. split; [exact Hc0|]. intros t Ht.
  split; [now apply Hc|].
  pose proof (variation_range_bounds (sim_project sim)) as [Hlo Hhi].
  pose proof (Hb t Ht) as H0. pose proof (Hc t Ht) as H1.
  assert (Hq : (3 # 4) * base_cost t
               <= (1 - get_variation_range (sim_project sim) * (1 # 2))
                  * base_cost t).
  { apply Qmult_le_compat_r; [lra | exact H0]. }
  lra.
Qed.

End SimulatedCosts.

Lemma simulated_costs_have_floor_witness :
  let p := mkProject "Demo" [Task_init "A" 5 100 [] None;
                             Task_init "B" 2 50 ["a"] None] 1 "high" "" in
  exists r g',
    run_simulation nat (fun a _ g => (a, S g)) (fun m _ g => (m, S g))
                   (mkRiskSimulator p 2) 0%nat = Done (r, g')
    /\ Forall (fun c =>
                 0 <= c
                 /\ forall t, In t (tasks p) ->
                      (1 - get_variation_range p * (1 # 2)) * base_cost t <= c
                      /\ (3 # 4) * base_cost t <= c)
              (costs r).
Proof.
  cbv zeta. eexists _, _. split; [reflexivity|].
  eapply (simulated_costs_have_floor nat (fun a _ g => (a, S g))
           (fun m _ g => (m, S g))
           ltac:(intros a b g Hab; simpl; apply Qle_refl)
           (mkRiskSimulator
              (mkProject "Demo" [Task_init "A" 5 100 [] None;
                                 Task_init "B" 2 50 ["a"] None] 1 "high" "")
              2) 0%nat).
  - intros t Ht. simpl in Ht. destruct Ht as [<- | [<- | []]]; discriminate.
  - reflexivity.
Defined.

(** ** The schedule is at least as long as the longest task *)

Lemma py_max_ge_first r : forall x, x <= py_max x r.
Proof.
  unfold py_max. induction r as [|y r IH]; intros x; simpl; [apply Qle_refl|].
  apply Qle_trans with (Qmax x y); [apply Q.le_max_l | apply IH].
Qed.

Lemma py_max_ge r : forall x y, In y (x :: r) -> y <= py_max x r.
Proof.
  induction r as [|z r IH]; intros x y Hy.
  - destruct Hy as [<- | []]. apply Qle_refl.
  - change (py_max x (z :: r)) with (py_max (Qmax x z) r).
    destruct Hy as [<- | [<- | Hy]].
    + apply Qle_trans with (Qmax x z); [apply Q.le_max_l|].
      apply py_max_ge_first.
    + apply Qle_trans with (Qmax x z); [apply Q.le_max_r|].
      apply py_max_ge_first.
    + apply IH. now right.
Qed.

Lemma max_or_zero_ge xs v : In v xs -> v <= max_or_zero xs.
Proof.
  destruct xs as [|x r]; [intros []|]. simpl. apply py_max_ge.
Qed.

Lemma list_remove_keeps x l l' t :
  list_remove x l = Done l' ->
  In t l -> task_id t <> task_id x -> In t l'.
Proof.
  revert l'. induction l as [|y l IH]; intros l' H Ht Hne; simpl in H.
  - discriminate.
  - destruct (Task_eqb y x) eqn:E.
    + inversion H; subst. destruct Ht as [<- | Ht]; [|exact Ht].
      apply Task_eqb_id in E. contradiction.
    + destruct (list_remove x l) as [r| |]; cbn [bind] in H;
        try discriminate.
      inversion H; subst. destruct Ht as [<- | Ht]; [now left|].
      right. now apply IH.
Qed.

Lemma start_task_cover p st task st' :
  NoDup (map task_id (tasks p)) ->
  (forall t, In t (tasks p) -> 0 <= estimated_days t) ->
  In task (tasks p) ->
  start_task st task = Done st' ->
  sched_cover p st ->
  sched_cover p st' /\ current_time st' = current_time st.
Proof.
  intros Hnd Hd Htask H (Hct & Hval & Hincl & Hcov). unfold start_task in H.
  destruct (list_remove task (remaining_tasks st)) as [rem| |] eqn:E;
    cbn [bind] in H; try discriminate.
  inversion H; subst; clear H. split; [|reflexivity].
  pose proof (Hd task Htask) as Hdt.
  unfold sched_cover. cbn [current_time scheduled_finish remaining_tasks].
  split; [exact Hct|]. split; [|split].
  - intros v Hv. apply values_set_In in Hv. destruct Hv as [-> | Hv]; auto.
    lra.
  - intros t Ht. apply Hincl.
    now apply (proj2 (list_remove_days _ _ _ E)).
  - intros t Ht.
    destruct (string_dec (task_id t) (task_id task)) as [Hid | Hid].
    + right. assert (t = task) by (eapply unique_task; eauto). subst t.
      exists (current_time st + estimated_days task).
      split; [apply get_set_same | lra].
    + destruct (Hcov t Ht) as [Hr | [f [Hf Hle]]].
      * left. eapply list_remove_keeps; eauto.
      * right. exists f. split; [|exact Hle].
        rewrite get_set_other; auto.
Qed.

Lemma start_tasks_cover p cs : forall st st',
  NoDup (map task_id (tasks p)) ->
  (forall t, In t (tasks p) -> 0 <= estimated_days t) ->
  incl cs (tasks p) ->
  foldM start_task cs st = Done st' ->
  sched_cover p st ->
  sched_cover p st' /\ current_time st' = current_time st.
Proof.
  induction cs as [|c cs IH]; intros st st' Hnd Hd Hcs H Hc; simpl in H.
  - inversion H; subst. auto.
  - destruct (start_task st c) as [st1| |] eqn:E; cbn [bind] in H;
      try discriminate.
    destruct (start_task_cover p st c st1 Hnd Hd (Hcs c (or_introl eq_refl))
                E Hc) as [Hc1 Ht1].
    destruct (IH st1 st' Hnd Hd (fun t Ht => Hcs t (or_intror Ht)) H Hc1)
      as [Hc' Ht'].
    split; [exact Hc' | congruence].
Qed.

Lemma sched_iteration_cover p size st m st' :
  NoDup (map task_id (tasks p)) ->
  (forall t, In t (tasks p) -> 0 <= estimated_days t) ->
  sched_cover p st ->
  sched_iteration size st = Done (m, st') ->
  sched_cover p st' /\ (m = Break -> remaining_tasks st' = []).
Proof.
  intros Hnd Hd Hc. unfold sched_iteration.
  destruct (filterM _ (active_tasks st)) as [active| |]; cbn [bind];
    try discriminate.
  set (can_start := filter _ (remaining_tasks st)).
  set (mid := {| scheduled_start := scheduled_start st;
                 scheduled_finish := scheduled_finish st;
                 active_tasks := active;
                 current_time := current_time st;
                 remaining_tasks := remaining_tasks st |}).
  assert (Hmid : sched_cover p mid) by exact Hc.
  destruct (foldM start_task can_start mid) as [st1| |] eqn:E1; cbn [bind];
    try discriminate.
  assert (Hcs : incl can_start (tasks p)).
  { intros t Ht. apply filter_In in Ht. apply (proj1 (proj2 (proj2 Hc))).
    tauto. }
  destruct (start_tasks_cover p can_start mid st1 Hnd Hd Hcs E1 Hmid)
    as [(Hct1 & Hval1 & Hincl1 & Hcov1) Ht1].
  destruct (active_tasks st1) as [|a0 act] eqn:Eact.
  - destruct (remaining_tasks st1) as [|next rest] eqn:Erem.
    + intros H. inversion H; subst. split; [|intros _; exact Erem].
      unfold sched_cover. rewrite Erem. auto.
    + destruct (map _ (dependencies next)) as [|f fs] eqn:Emap.
      * intros H. inversion H; subst. split; [|discriminate].
        unfold sched_cover.
        cbn [remaining_tasks current_time scheduled_finish].
        split; [lra | auto].
      * intros H. inversion H; subst. split; [|discriminate].
        unfold sched_cover.
        cbn [remaining_tasks current_time scheduled_finish].
        split; [|auto].
        apply Qle_trans with f; [|apply py_max_ge_first].
        assert (Hf : In f (f :: fs)) by now left.
        rewrite <- Emap in Hf. apply in_map_iff in Hf.
        destruct Hf as [d [<- _]]. unfold PyDict.get_default.
        destruct (PyDict.get (scheduled_finish st1) d) as [w|] eqn:Ew;
          [|apply Qle_refl].
        apply Hval1. eapply get_In_values, Ew.
  - destruct (mapM _ (a0 :: act)) as [finishes| |] eqn:Em; cbn [bind];
      try discriminate.
    destruct finishes as [|f fs]; [discriminate|].
    intros H. inversion H; subst. split; [|discriminate].
    unfold sched_cover.
    cbn [remaining_tasks current_time scheduled_finish].
    split; [|auto].
    apply Hval1. eapply mapM_lookup_values; [exact Em|]. apply py_min_In.
Qed.

Lemma sched_loop_cover p size :
  NoDup (map task_id (tasks p)) ->
  (forall t, In t (tasks p) -> 0 <= estimated_days t) ->
  forall fuel st moves st' moves',
    sched_cover p st ->
    sched_loop fuel size st moves = Done (st', moves') ->
    sched_cover p st' /\ remaining_tasks st' = [].
Proof.
  intros Hnd Hd.
  assert (Hstop : forall st, loop_condition st = false ->
                             remaining_tasks st = []).
  { intros st. unfold loop_condition.
    destruct (remaining_tasks st); [reflexivity|discriminate]. }
  induction fuel as [|f IH]; intros st moves st' moves' Hc H;
    rewrite sched_loop_eq in H.
  - destruct (loop_condition st) eqn:El; [discriminate|].
    inversion H; subst. auto.
  - destruct (loop_condition st) eqn:El; [|inversion H; subst; auto].
    destruct (sched_iteration size st) as [[m st1]| |] eqn:E; cbn [bind] in H;
      try discriminate.
    destruct (sched_iteration_cover p size st m st1 Hnd Hd Hc E) as [Hc1 Hb].
    cbn [fst snd] in H.
    destruct m; try (now apply (IH _ _ _ _ Hc1 H)).
    inversion H; subst. auto.
Qed.

Lemma forward_pass_cover ts : forall starts fin,
  NoDup (map task_id ts) ->
  (forall k f, PyDict.get fin k = Some f -> ~ In k (map task_id ts) ->
               PyDict.get (snd (fold_left forward_step ts (starts, fin))) k
               = Some f)
  /\ (forall t, In t ts ->
        exists f,
          PyDict.get (snd (fold_left forward_step ts (starts, fin)))
                     (task_id t) = Some f
          /\ estimated_days t <= f).
Proof.
  induction ts as [|x ts IH]; intros starts fin Hnd.
  - simpl. split; [auto | intros t []].
  - inversion Hnd as [|y ys Hn Hnd']; subst.
    cbn [fold_left]. unfold forward_step at 2.
    set (e := dependency_start fin (dependencies x)).
    destruct (IH (PyDict.set starts (task_id x) e)
                 (PyDict.set fin (task_id x) (e + estimated_days x)) Hnd')
      as [Hkeep Hnew].
    split.
    + intros k f Hf Hk. apply Hkeep.
      * rewrite get_set_other; [exact Hf|]. intros E. apply Hk. now left.
      * intros Hin. apply Hk. now right.
    + intros t [<- | Ht]; [|now apply Hnew].
      exists (e + estimated_days x). split.
      * apply Hkeep; [apply get_set_same | exact Hn].
      * pose proof (dependency_start_nonneg fin (dependencies x)).
        subst e. lra.
Qed.

Lemma schedule_ge_task fuel p v moves :
  NoDup (map task_id (tasks p)) ->
  (forall t, In t (tasks p) -> 0 <= estimated_days t) ->
  schedule_trace fuel p = Done (v, moves) ->
  forall t, In t (tasks p) -> estimated_days t <= v.
Proof.
  intros Hnd Hd. unfold schedule_trace.
  pose proof (forward_pass_cover (tasks p) [] [] Hnd) as [_ Hfw].
  change (fold_left forward_step (tasks p) ([], []))
    with (forward_pass (tasks p)) in Hfw.
  destruct (forward_pass (tasks p)) as [starts fin]. cbn [snd] in Hfw.
  destruct (task_count p <=? team_size p)%Z.
  - intros H t Ht. inversion H; subst.
    destruct (Hfw t Ht) as [f [Hf Hle]].
    apply Qle_trans with f; [exact Hle|].
    apply max_or_zero_ge. eapply get_In_values, Hf.
  - destruct (sort_tasks starts (tasks p)) as [sorted| |] eqn:Es;
      cbn [bind]; try discriminate.
    apply sort_tasks_perm in Es.
    set (st0 := {| scheduled_start := []; scheduled_finish := [];
                   active_tasks := []; current_time := 0;
                   remaining_tasks := sorted |}).
    destruct (sched_loop fuel (team_size p) st0 []) as [[st' mv]| |] eqn:El;
      cbn [bind]; try discriminate.
    intros H t Ht. inversion H; subst; clear H. cbn [fst].
    assert (Hc0 : sched_cover p st0).
    { unfold sched_cover, st0. simpl. split; [apply Qle_refl|].
      split; [intros w []|]. split.
      - intros x Hx. now apply (Permutation_in _ Es).
      - intros x Hx. left.
        now apply (Permutation_in _ (Permutation_sym Es)). }
    destruct (sched_loop_cover p _ Hnd Hd _ _ _ _ _ Hc0 El)
      as [(_ & _ & _ & Hcov) Hrem].
    destruct (Hcov t Ht) as [Hr | [f [Hf Hle]]].
    + rewrite Hrem in Hr. contradiction.
    + apply Qle_trans with f; [exact Hle|].
      apply max_or_zero_ge. eapply get_In_values, Hf.
Qed.

(** X16. The schedule is at least as long as the longest task. For
    distinct ids and non-negative durations, a result of
    [_simulate_resource_constrained_schedule] is at least the duration of
    every task, whatever the dependencies and the team size; a result of
    [calculate_parallel_timeline] is therefore at least every duration
    times the risk multiplier. *)
Theorem schedule_at_least_longest_task (fuel : nat) (p : Project) :
  NoDup (map task_id (tasks p)) ->
  (forall t, In t (tasks p) -> 0 <= estimated_days t) ->
  (forall v, simulate_resource_constrained_schedule fuel p = Done v ->
             forall t, In t (tasks p) -> estimated_days t <= v)
  /\ (forall w, calculate_parallel_timeline fuel p = Done w ->
                forall t, In t (tasks p) ->
                          estimated_days t * risk_multiplier p <= w).
Proof.
  intros Hnd Hd.
  assert (Hsched : forall v,
             simulate_resource_constrained_schedule fuel p = Done v ->
             forall t, In t (tasks p) -> estimated_days t <= v).
  { intros v. unfold simulate_resource_constrained_schedule.
    destruct (schedule_trace fuel p) as [[v' moves]| |] eqn:E; cbn [bind];
      try discriminate.
    intros H. inversion H; subst v'; clear H.
    now apply (schedule_ge_task fuel p v moves). }
  split; [exact Hsched|].
  intros w. unfold calculate_parallel_timeline.
  destruct (tasks p) as [|t0 ts0] eqn:Ets; [intros _ t []|].
  rewrite <- Ets in *.
  destruct (get_critical_path fuel p) as [path| |]; cbn [bind];
    try discriminate.
  destruct (simulate_resource_constrained_schedule fuel p) as [v| |] eqn:Ev;
    cbn [bind]; try discriminate.
  intros H t Ht. inversion H; subst; clear H.
  pose proof (Hsched v eq_refl) as Hge.
  pose proof (risk_multiplier_pos p) as Hrm.
  apply Qle_trans with (v * risk_multiplier p); [|apply Q.le_max_l].
  apply Qmult_le_compat_r; [now apply Hge | now apply Qlt_le_weak].
Qed.

Lemma schedule_at_least_longest_task_witness :
  let p := mkProject "Site"
             [Task_init "A" 5 100 [] None; Task_init "B" 10 100 ["a"] None;
              Task_init "C" 3 100 ["b"] None; Task_init "D" 4 100 [] None]
             2 "low" "" in
  (forall v, simulate_resource_constrained_schedule 10 p = Done v ->
             forall t, In t (tasks p) -> estimated_days t <= v)
  /\ (forall w, calculate_parallel_timeline 10 p = Done w ->
                forall t, In t (tasks p) ->
                          estimated_days t * risk_multiplier p <= w).
Proof.
  cbv zeta.
  apply (schedule_at_least_longest_task 10
           (mkProject "Site"
              [Task_init "A" 5 100 [] None; Task_init "B" 10 100 ["a"] None;
               Task_init "C" 3 100 ["b"] None; Task_init "D" 4 100 [] None]
              2 "low" "")).
  - simpl. repeat constructor; simpl; intuition discriminate.
  - intros t Ht. simpl in Ht.
    destruct Ht as [<- | [<- | [<- | [<- | []]]]]; discriminate.
Defined.

(** ** Independent tasks all start at once *)

Lemma py_max_In r : forall x, In (py_max x r) (x :: r).
Proof.
  unfold py_max. induction r as [|y r IH]; intros x; simpl; [now left|].
  destruct (IH (Qmax x y)) as [H | H].
  - rewrite <- H. unfold Qmax, GenericMinMax.gmax.
    destruct (x ?= y); auto.
  - right. now right.
Qed.

Lemma sched_iteration_idle size st m st' :
  remaining_tasks st = [] ->
  sched_iteration size st = Done (m, st') ->
  scheduled_finish st' = scheduled_finish st /\ remaining_tasks st' = [].
Proof.
  intros Hrem. unfold sched_iteration. rewrite Hrem.
  destruct (filterM _ (active_tasks st)) as [active| |]; cbn [bind];
    try discriminate.
  cbn [filter foldM bind active_tasks remaining_tasks scheduled_finish].
  destruct active as [|a0 act].
  - intros H. inversion H; subst. auto.
  - destruct (mapM _ (a0 :: act)) as [finishes| |]; cbn [bind];
      try discriminate.
    destruct finishes as [|f fs]; [discriminate|].
    intros H. inversion H; subst. auto.
Qed.

Lemma sched_loop_idle size : forall fuel st moves st' moves',
  remaining_tasks st = [] ->
  sched_loop fuel size st moves = Done (st', moves') ->
  scheduled_finish st' = scheduled_finish st.
Proof.
  induction fuel as [|f IH]; intros st moves st' moves' Hrem H;
    rewrite sched_loop_eq in H.
  - destruct (loop_condition st); [discriminate|]. now inversion H.
  - destruct (loop_condition st); [|now inversion H].
    destruct (sched_iteration size st) as [[m st1]| |] eqn:E; cbn [bind] in H;
      try discriminate.
    destruct (sched_iteration_idle size st m st1 Hrem E) as [Hsf Hrem1].
    cbn [fst snd] in H.
    destruct m; try (rewrite <- Hsf; now apply (IH _ _ _ _ Hrem1 H)).
    inversion H; subst. exact Hsf.
Qed.

Lemma start_tasks_values cs : forall st st1,
  foldM start_task cs st = Done st1 ->
  forall v, In v (PyDict.values (scheduled_finish st1)) ->
            In v (PyDict.values (scheduled_finish st))
            \/ exists t, In t cs /\ v = current_time st + estimated_days t.
Proof.
  induction cs as [|c cs IH]; intros st st1 H v Hv; simpl in H.
  - inversion H; subst. now left.
  - unfold start_task in H at 1.
    destruct (list_remove c (remaining_tasks st)) as [rem| |];
      cbn [bind] in H; try discriminate.
    destruct (IH _ _ H v Hv) as [Hin | [t [Ht Hvt]]];
      cbn [scheduled_finish current_time] in *.
    + apply values_set_In in Hin. destruct Hin as [-> | Hin]; [|now left].
      right. exists c. split; [now left | reflexivity].
    + right. exists t. split; [now right | exact Hvt].
Qed.

Lemma forward_pass_independent ts : forall starts fin v,
  (forall t, In t ts -> dependencies t = []) ->
  In v (PyDict.values (snd (fold_left forward_step ts (starts, fin)))) ->
  In v (PyDict.values fin) \/ exists t, In t ts /\ v = 0 + estimated_days t.
Proof.
  induction ts as [|x ts IH]; intros starts fin v Hdeps Hv.
  - now left.
  - cbn [fold_left] in Hv. unfold forward_step at 2 in Hv.
    rewrite (Hdeps x (or_introl eq_refl)) in Hv.
    apply IH in Hv; [|intros t Ht; apply Hdeps; now right].
    destruct Hv as [Hv | [t [Ht Hvt]]].
    + apply values_set_In in Hv. destruct Hv as [-> | Hv]; [|now left].
      right. exists x. split; [now left | reflexivity].
    + right. exists t. split; [now right | exact Hvt].
Qed.

Lemma independent_first_iteration p sorted :
  NoDup (map task_id (tasks p)) ->
  (forall t, In t (tasks p) -> dependencies t = []) ->
  (1 <= team_size p)%Z ->
  Permutation sorted (tasks p) ->
  sorted <> [] ->
  exists st1,
    sched_iteration (team_size p)
      {| scheduled_start := []; scheduled_finish := []; active_tasks := [];
         current_time := 0; remaining_tasks := sorted |}
    = Done (NextCompletion, st1)
    /\ remaining_tasks st1 = []
    /\ (forall t, In t (tasks p) ->
                  PyDict.get (scheduled_finish st1) (task_id t)
                  = Some (0 + estimated_days t))
    /\ (forall v, In v (PyDict.values (scheduled_finish st1)) ->
                  exists t, In t (tasks p) /\ v = 0 + estimated_days t).
Proof.
  intros Hnd Hdeps Hsize Hp Hne.
  unfold sched_iteration.
  cbn [active_tasks filterM bind scheduled_start scheduled_finish
       current_time remaining_tasks List.length Z.of_nat].
  set (mid := {| scheduled_start := []; scheduled_finish := [];
                 active_tasks := []; current_time := 0;
                 remaining_tasks := sorted |}).
  assert (Hall : filter (fun task => deps_complete [] 0 task
                                     && (0 <? team_size p)%Z) sorted
                 = sorted).
  { apply forallb_filter_id. apply forallb_forall. intros t Ht.
    unfold deps_complete.
    rewrite (Hdeps t (Permutation_in _ Hp Ht)). simpl.
    apply Z.ltb_lt. lia. }
  rewrite Hall.
  destruct (start_tasks_run p Hnd sorted mid)
    as (st1 & E1 & Hp1 & Ha1 & Ht1 & Hg1 & Ho1).
  { apply (Permutation_NoDup (Permutation_sym Hp)).
    now apply NoDup_map_inv in Hnd. }
  { apply incl_refl. }
  { intros t Ht. now apply (Permutation_in _ Hp). }
  rewrite E1. cbn [bind].
  cbn [mid remaining_tasks active_tasks current_time scheduled_finish app]
    in Hp1, Ha1, Ht1, Hg1, Ho1.
  assert (Hrem1 : remaining_tasks st1 = []).
  { apply Permutation_length in Hp1. rewrite length_app in Hp1.
    destruct (remaining_tasks st1); [reflexivity | simpl in Hp1; lia]. }
  assert (Hfin : forall a, In a (active_tasks st1) ->
                   PyDict.get (scheduled_finish st1) (task_id a) <> None).
  { intros a Ha. rewrite Ha1 in Ha. rewrite (Hg1 a Ha). discriminate. }
  rewrite (mapM_finishes st1 (active_tasks st1) Hfin).
  rewrite Ha1. destruct sorted as [|a0 act]; [congruence|].
  cbn [map bind]. eexists. split; [reflexivity|].
  cbn [remaining_tasks scheduled_finish]. split; [exact Hrem1|]. split.
  - intros t Ht. apply Hg1.
    now apply (Permutation_in _ (Permutation_sym Hp)).
  - intros v Hv.
    destruct (start_tasks_values _ _ _ E1 v Hv) as [[] | [t [Ht ->]]].
    exists t. split; [now apply (Permutation_in _ Hp) | reflexivity].
Qed.

Lemma independent_schedule fuel p :
  NoDup (map task_id (tasks p)) ->
  (forall t, In t (tasks p) -> dependencies t = []) ->
  (1 <= team_size p)%Z ->
  tasks p <> [] ->
  (0 < fuel)%nat ->
  forall v moves,
    schedule_trace fuel p = Done (v, moves) ->
    exists t, In t (tasks p) /\ v = 0 + estimated_days t.
Proof.
  intros Hnd Hdeps Hsize Hne Hfuel v moves. unfold schedule_trace.
  pose proof (forward_pass_independent (tasks p) [] []) as Hfw.
  change (fold_left forward_step (tasks p) ([], []))
    with (forward_pass (tasks p)) in Hfw.
  pose proof (forward_pass_cover (tasks p) [] [] Hnd) as [_ Hcov].
  change (fold_left forward_step (tasks p) ([], []))
    with (forward_pass (tasks p)) in Hcov.
  destruct (forward_pass (tasks p)) as [starts fin]. cbn [snd] in Hfw, Hcov.
  assert (Hmax : forall xs : list Q,
             xs <> [] ->
             (forall x, In x xs ->
                        exists t, In t (tasks p) /\ x = 0 + estimated_days t) ->
             exists t, In t (tasks p)
                       /\ max_or_zero xs = 0 + estimated_days t).
  { intros xs Hxs Hin. destruct xs as [|x r]; [congruence|].
    apply Hin. simpl. apply py_max_In. }
  destruct (task_count p <=? team_size p)%Z.
  - intros H. inversion H; subst. apply Hmax.
    + destruct (tasks p) as [|t0 ts0] eqn:Ets; [congruence|].
      destruct (Hcov t0 (or_introl eq_refl)) as [f [Hf _]].
      apply get_In_values in Hf. intros E. rewrite E in Hf. contradiction.
    + intros x Hx. destruct (Hfw x Hdeps Hx) as [[] | Ht]. exact Ht.
  - destruct (sort_tasks starts (tasks p)) as [sorted| |] eqn:Es;
      cbn [bind]; try discriminate.
    apply sort_tasks_perm in Es.
    assert (Hsne : sorted <> []).
    { intros E. rewrite E in Es. apply Permutation_nil in Es. contradiction. }
    destruct (independent_first_iteration p sorted Hnd Hdeps Hsize Es Hsne)
      as (st1 & E1 & Hrem1 & Hget & Hvals).
    destruct fuel as [|f]; [lia|].
    rewrite (sched_loop_step f (team_size p) _ [] NextCompletion st1);
      [| destruct sorted; [congruence | reflexivity] | exact E1
       | discriminate].
    destruct (sched_loop f (team_size p) st1 _) as [[st' mv]| |] eqn:El;
      cbn [bind]; try discriminate.
    intros H. inversion H; subst; clear H. cbn [fst].
    rewrite (sched_loop_idle _ _ _ _ _ _ Hrem1 El).
    apply Hmax; [|exact Hvals].
    destruct (tasks p) as [|t0 ts0] eqn:Ets; [congruence|].
    pose proof (Hget t0 (or_introl eq_refl)) as Hf.
    apply get_In_values in Hf. intros E. rewrite E in Hf. contradiction.
Qed.

Lemma independent_path_short path :
  dependency_chain path ->
  (forall t, In t path -> dependencies t = []) ->
  (List.length path <= 1)%nat.
Proof.
  intros Hc Hd. destruct path as [|a [|b r]]; simpl; try lia.
  destruct Hc as [Hin _]. rewrite (Hd b) in Hin; [contradiction|].
  right. now left.
Qed.

(** X17. Tasks without dependencies all start at time zero, whatever the
    team size: for a non-empty project with distinct ids, positive
    durations, no dependencies and a team of at least one, the scheduler
    returns the duration of a longest task, also when the team is smaller
    than the number of tasks, and the parallel timeline is that duration
    times the risk multiplier. *)
Theorem independent_tasks_take_the_longest (fuel : nat) (p : Project) :
  NoDup (map task_id (tasks p)) ->
  (forall t, In t (tasks p) -> dependencies t = []) ->
  positive_durations p ->
  (1 <= team_size p)%Z ->
  tasks p <> [] ->
  (2 * List.length (tasks p) < fuel)%nat ->
  exists v t w,
    simulate_resource_constrained_schedule fuel p = Done v
    /\ In t (tasks p) /\ v == estimated_days t
    /\ (forall t', In t' (tasks p) -> estimated_days t' <= v)
    /\ calculate_parallel_timeline fuel p = Done w
    /\ w == v * risk_multiplier p.
Proof.
  intros Hnd Hdeps Hpos Hsize Hne Hfuel.
  assert (Hd : forall t, In t (tasks p) -> 0 <= estimated_days t)
    by (intros t Ht; apply Qlt_le_weak; now apply Hpos).
  assert (Hwf : well_formed p).
  { unfold well_formed. split; [exact Hnd|]. split; [|split; [|auto]].
    - intros t d Ht Hin. rewrite (Hdeps t Ht) in Hin. contradiction.
    - intros [u Hu]. apply reach_first in Hu. destruct Hu as [v [He _]].
      apply edge_declared in He. destruct He as [t [Ht [_ Hin]]].
      rewrite (Hdeps t Ht) in Hin. contradiction. }
  destruct (schedule_trace_returns fuel p Hwf Hfuel) as (v & moves & Est).
  destruct (independent_schedule fuel p Hnd Hdeps Hsize Hne ltac:(lia)
              v moves Est) as (t & Ht & Hv).
  pose proof (schedule_ge_task fuel p v moves Hnd Hd Est) as Hge.
  destruct (get_critical_path_returns fuel p Hwf Hne ltac:(lia))
    as [path Ecp].
  destruct (critical_path_shape fuel p path Ecp) as (Hchain & Hfound & _).
  assert (Hin : forall a, In a path -> In a (tasks p)).
  { intros a Ha. now destruct (find_task_Some _ _ _ (Hfound a Ha)). }
  pose proof (independent_path_short path Hchain
                (fun a Ha => Hdeps a (Hin a Ha))) as Hlen.
  assert (Hcpd : py_sum (map estimated_days path) <= v).
  { destruct path as [|a [|b r]]; simpl in Hlen; try lia.
    - unfold py_sum. simpl. pose proof (Hpos t Ht). rewrite Hv. lra.
    - unfold py_sum. simpl. pose proof (Hge a (Hin a (or_introl eq_refl))).
      lra. }
  exists v, t, (Qmax (v * risk_multiplier p)
                     (py_sum (map estimated_days path) * risk_multiplier p)).
  unfold simulate_resource_constrained_schedule, calculate_parallel_timeline.
  destruct (tasks p) as [|t0 ts0] eqn:Ets; [congruence|]. rewrite <- Ets in *.
  rewrite Ecp. unfold simulate_resource_constrained_schedule. rewrite Est.
  cbn [bind fst].
  split; [reflexivity|]. split; [exact Ht|]. split; [rewrite Hv; ring|].
  split; [exact Hge|]. split; [reflexivity|].
  apply Q.max_l. pose proof (risk_multiplier_pos p) as Hrm.
  apply Qmult_le_compat_r; [exact Hcpd | now apply Qlt_le_weak].
Qed.

Lemma independent_tasks_take_the_longest_witness :
  let p := mkProject "Five"
             [Task_init "T0" 3 100 [] None; Task_init "T1" 3 100 [] None;
              Task_init "T2" 5 100 [] None; Task_init "T3" 2 100 [] None;
              Task_init "T4" 2 100 [] None] 2 "low" "" in
  exists v t w,
    simulate_resource_constrained_schedule 11 p = Done v
    /\ In t (tasks p) /\ v == estimated_days t
    /\ (forall t', In t' (tasks p) -> estimated_days t' <= v)
    /\ calculate_parallel_timeline 11 p = Done w
    /\ w == v * risk_multiplier p.
Proof.
  cbv zeta.
  apply (independent_tasks_take_the_longest 11
           (mkProject "Five"
              [Task_init "T0" 3 100 [] None; Task_init "T1" 3 100 [] None;
               Task_init "T2" 5 100 [] None; Task_init "T3" 2 100 [] None;
               Task_init "T4" 2 100 [] None] 2 "low" "")).
  - simpl. repeat constructor; simpl; intuition discriminate.
  - intros t Ht. simpl in Ht.
    destruct Ht as [<- | [<- | [<- | [<- | [<- | []]]]]]; reflexivity.
  - intros t Ht. simpl in Ht.
    destruct Ht as [<- | [<- | [<- | [<- | [<- | []]]]]]; reflexivity.
  - simpl. lia.
  - discriminate.
  - simpl. lia.
Defined.

(** ** The critical path is a longest chain of dependencies *)

Lemma NoDup_snoc_app {A} (q l : list A) x :
  NoDup (q ++ l) -> ~ In x (q ++ l) -> NoDup ((q ++ [x]) ++ l).
Proof.
  intros Hnd Hn. rewrite <- app_assoc. simpl.
  apply (Permutation_NoDup (Permutation_middle q l x)).
  now constructor.
Qed.

Lemma filter_drop_one (f : string -> bool) cur l :
  NoDup l -> In cur l -> f cur = true ->
  S (List.length (filter (fun d => negb (String.eqb d cur) && f d) l))
  = List.length (filter f l).
Proof.
  induction l as [|x l IH]; intros Hnd Hin Hf; [contradiction|].
  inversion Hnd as [|y ys Hn Hnd']; subst. simpl.
  destruct Hin as [-> | Hin].
  - rewrite String.eqb_refl, Hf. simpl. f_equal. f_equal.
    apply filter_ext_in. intros d Hd.
    destruct (String.eqb d cur) eqn:E; [|reflexivity].
    apply String.eqb_eq in E. subst. contradiction.
  - destruct (String.eqb x cur) eqn:E.
    + apply String.eqb_eq in E. subst. contradiction.
    + simpl. destruct (f x); simpl; now rewrite <- IH.
Qed.

Lemma filterM_ready (d : PyDict.t Z) (f : Task -> Z) l : forall ready,
  (forall t, In t l -> PyDict.get d (task_id t) = Some (f t)) ->
  filterM (fun t => deg <- PyDict.lookup d (task_id t) ;; Done (deg =? 0)%Z) l
  = Done ready ->
  ready = filter (fun t => (f t =? 0)%Z) l.
Proof.
  induction l as [|x l IH]; intros ready Hd H; simpl in H.
  - now inversion H.
  - unfold PyDict.lookup in H at 1.
    rewrite (Hd x (or_introl eq_refl)) in H. cbn [bind] in H.
    destruct (filterM _ l) as [r| |] eqn:E; cbn [bind] in H;
      try discriminate.
    inversion H; subst. simpl.
    rewrite (IH r (fun t Ht => Hd t (or_intror Ht)) eq_refl). reflexivity.
Qed.

Section LongestChain.

Variable p : Project.
Hypothesis Hids : NoDup (map task_id (tasks p)).
Hypothesis Hres : all_resolve p.
Hypothesis Hacyc : ~ has_cycle_in p.
Hypothesis Hpos : positive_durations p.
Hypothesis Hdeps : forall t, In t (tasks p) -> NoDup (dependencies t).

Lemma pending_skip cur P t :
  ~ In cur (dependencies t) -> pending (cur :: P) t = pending P t.
Proof.
  intros Hn. unfold pending. apply filter_ext_in. intros d Hd.
  simpl. destruct (String.eqb d cur) eqn:E; [|reflexivity].
  apply String.eqb_eq in E. subst. contradiction.
Qed.

Lemma pending_take cur P t :
  In t (tasks p) -> In cur (dependencies t) -> ~ In cur P ->
  S (List.length (pending (cur :: P) t)) = List.length (pending P t).
Proof.
  intros Ht Hin Hn. unfold pending.
  rewrite <- (filter_drop_one (fun d => negb (PyStr.mem d P)) cur
                (dependencies t) (Hdeps t Ht) Hin).
  - f_equal. f_equal. apply filter_ext. intros d. simpl.
    now rewrite negb_orb.
  - apply negb_true_iff. now apply mem_not_In.
Qed.

Lemma pending_In P t d :
  In d (pending P t) <-> In d (dependencies t) /\ ~ In d P.
Proof.
  unfold pending. rewrite filter_In, negb_true_iff, mem_not_In. tauto.
Qed.

Lemma es_ok_grow cur P es t :
  ~ In cur (dependencies t) -> es_ok p P es t -> es_ok p (cur :: P) es t.
Proof.
  intros Hn (s & Hs & H0 & HA & HB). exists s. split; [exact Hs|].
  split; [exact H0|]. split.
  - intros d u Hd [<- | HP] Hu; [contradiction | now apply HA].
  - destruct HB as [HB | (d & u & sd & Hd & HP & Hu & Hsd & Heq)];
      [now left|].
    right. exists d, u, sd. repeat split; auto. now right.
Qed.

Lemma es_ok_set P es t k v :
  task_id t <> k -> ~ In k P ->
  es_ok p P es t -> es_ok p P (PyDict.set es k v) t.
Proof.
  intros Ht Hk (s & Hs & H0 & HA & HB). exists s.
  assert (Hget : forall d, In d P ->
                           PyDict.get (PyDict.set es k v) d = PyDict.get es d).
  { intros d Hd. apply get_set_other. intros E. subst. contradiction. }
  split; [rewrite get_set_other; auto|]. split; [exact H0|]. split.
  - intros d u Hd HP Hu. rewrite (Hget d HP). now apply HA.
  - destruct HB as [HB | (d & u & sd & Hd & HP & Hu & Hsd & Heq)];
      [now left|].
    right. exists d, u, sd. rewrite (Hget d HP). repeat split; auto.
Qed.

Lemma task_of_id k :
  In k (map task_id (tasks p)) ->
  exists c, In c (tasks p) /\ task_id c = k /\ find_task (tasks p) k = Some c.
Proof.
  intros Hk. apply in_map_iff in Hk. destruct Hk as [c [<- Hc]].
  exists c. split; [exact Hc|]. split; [reflexivity|].
  now apply find_task_unique.
Qed.

Lemma relax_step cur c P t0 rest st st' :
  In c (tasks p) -> task_id c = cur -> ~ In cur (dependencies c) ->
  ~ In cur P ->
  In t0 (tasks p) -> ~ In t0 rest ->
  relax_sem p cur P (t0 :: rest) st ->
  relax cur (Some c) st t0 = Done st' ->
  relax_sem p cur P rest st'.
Proof.
  intros Hc Hcid Hcself HcP Ht0 Hnr (Hnd & Hq & Hall) H. unfold relax in H.
  assert (Hfc : find_task (tasks p) cur = Some c)
    by (rewrite <- Hcid; now apply find_task_unique).
  destruct (PyStr.mem cur (dependencies t0)) eqn:Em.
  - apply mem_In in Em.
    destruct (proj1 (Hall t0 Ht0) (conj (or_introl eq_refl) Em))
      as [[Hdeg (s & Hs & H0 & HA & HB)] Hnq].
    destruct (proj2 (Hall c Hc)) as [[_ (sc & Hsc & Hsc0 & _)] _];
      [tauto|].
    rewrite Hcid in Hsc.
    unfold PyDict.lookup, attr in H. rewrite Hs, Hsc, Hdeg in H.
    cbn [bind] in H.
    pose proof (pending_take cur P t0 Ht0 Em HcP) as Hcount.
    set (n' := List.length (pending (cur :: P) t0)) in *.
    assert (Hdeg' : (Z.of_nat (List.length (pending P t0)) - 1)%Z
                    = Z.of_nat n') by lia.
    rewrite Hdeg' in H.
    assert (Hne : task_id t0 <> cur).
    { intros E. apply Hnq. apply in_or_app. right. left. now symmetry. }
    assert (HnP : ~ In (task_id t0) (cur :: P)).
    { intros E. apply Hnq. apply in_or_app. now right. }
    assert (HnP' : ~ In (task_id t0) P).
    { intros E. apply HnP. now right. }
    remember (Qmax s (sc + estimated_days c)) as s' eqn:Es'.
    assert (Hqueue : forall k,
               k <> task_id t0 ->
               (In k ((if (Z.of_nat n' =? 0)%Z
                       then (queue st ++ [task_id t0])%list else queue st)
                      ++ cur :: P)%list
                <-> In k (queue st ++ cur :: P)%list)).
    { intros k Hk. destruct (Z.of_nat n' =? 0)%Z; [|tauto].
      rewrite !in_app_iff. simpl. intuition congruence. }
    inversion H; subst st'; clear H.
    unfold relax_sem. cbn [queue in_degree earliest_start].
    split; [|split].
    + destruct (Z.of_nat n' =? 0)%Z; [|exact Hnd].
      now apply NoDup_snoc_app.
    + intros k Hk.
      destruct (string_dec k (task_id t0)) as [-> | Hk'];
        [now apply in_map|].
      apply Hq. now apply Hqueue.
    + intros t Ht.
      destruct (string_dec (task_id t) (task_id t0)) as [Hid | Hid].
      * assert (t = t0) by (eapply unique_task; eauto). subst t.
        split; [intros [Hr _]; contradiction|]. intros _.
        split; [split|].
        -- cbn [in_degree]. fold n'. apply get_set_same.
        -- exists s'. cbn [earliest_start].
           split; [apply get_set_same|].
           assert (Hss' : s <= s') by (rewrite Es'; apply Q.le_max_l).
           split; [now apply Qle_trans with s|]. split.
           ++ intros d u Hd [<- | HP] Hu.
              ** rewrite Hfc in Hu. inversion Hu; subst u.
                 exists sc. rewrite get_set_other by exact Hne.
                 split; [exact Hsc | rewrite Es'; apply Q.le_max_r].
              ** destruct (HA d u Hd HP Hu) as (sd & Hsd & Hle).
                 exists sd. rewrite get_set_other
                   by (intros E; subst; contradiction).
                 split; [exact Hsd | now apply Qle_trans with s].
           ++ assert (Hcase : s' = s \/ s' = sc + estimated_days c).
              { rewrite Es'. unfold Qmax, GenericMinMax.gmax.
                destruct (s ?= sc + estimated_days c); auto. }
              destruct Hcase as [E | E]; rewrite E.
              ** destruct HB as [HB | (d & u & sd & Hd & HP & Hu & Hsd & Heq)];
                   [now left|].
                 right. exists d, u, sd.
                 rewrite get_set_other by (intros E'; subst; contradiction).
                 repeat split; auto. now right.
              ** right. exists cur, c, sc.
                 rewrite get_set_other by exact Hne.
                 split; [exact Em|]. split; [now left|].
                 split; [exact Hfc|]. split; [exact Hsc | apply Qeq_refl].
        -- unfold queued. fold n'. split.
           ++ intros Hp. assert (n' = 0%nat) by (unfold n'; now rewrite Hp).
              replace (Z.of_nat n' =? 0)%Z with true
                by (symmetry; apply Z.eqb_eq; lia).
              rewrite !in_app_iff. left. right. now left.
           ++ intros Hin. destruct (Z.of_nat n' =? 0)%Z eqn:Ez;
                [|contradiction].
              apply Z.eqb_eq in Ez.
              apply length_zero_iff_nil. unfold n' in Ez. lia.
      * assert (Htne : t <> t0) by (intros E; subst; contradiction).
        split.
        -- intros [Hr Hcur].
           destruct (proj1 (Hall t Ht) (conj (or_intror Hr) Hcur))
             as [[Hd1 He1] Hn1].
           split; [split|].
           ++ cbn [in_degree]. rewrite get_set_other by congruence.
              exact Hd1.
           ++ cbn [earliest_start]. now apply es_ok_set.
           ++ rewrite Hqueue by exact Hid. exact Hn1.
        -- intros Hn.
           destruct (proj2 (Hall t Ht)) as [[Hd1 He1] Hq1].
           { intros [[E | Hr] Hcur]; [now apply Htne | tauto]. }
           split; [split|].
           ++ cbn [in_degree]. rewrite get_set_other by congruence.
              exact Hd1.
           ++ cbn [earliest_start]. now apply es_ok_set.
           ++ unfold queued in *. rewrite Hqueue by exact Hid. exact Hq1.
  - apply mem_not_In in Em. inversion H; subst st'; clear H.
    split; [exact Hnd|]. split; [exact Hq|].
    intros t Ht. split.
    + intros [Hr Hcur]. apply (proj1 (Hall t Ht)). split; [now right|exact Hcur].
    + intros Hn. apply (proj2 (Hall t Ht)).
      intros [[E | Hr] Hcur]; [subst; contradiction | tauto].
Qed.

Lemma relax_all_sem cur c P :
  In c (tasks p) -> task_id c = cur -> ~ In cur (dependencies c) ->
  ~ In cur P ->
  forall rest st st',
    NoDup rest -> incl rest (tasks p) ->
    relax_sem p cur P rest st ->
    foldM (relax cur (Some c)) rest st = Done st' ->
    relax_sem p cur P [] st'.
Proof.
  intros Hc Hcid Hcself HcP.
  induction rest as [|t0 rest IH]; intros st st' Hnd Hincl Hsem H;
    simpl in H.
  - now inversion H; subst.
  - destruct (relax cur (Some c) st t0) as [st1| |] eqn:E; cbn [bind] in H;
      try discriminate.
    inversion Hnd as [|x xs Hn Hnd']; subst x xs.
    apply (IH st1 st' Hnd' (fun t Ht => Hincl t (or_intror Ht))); [|exact H].
    apply (relax_step cur c P t0 rest st st1); auto.
    apply Hincl. now left.
Qed.

Lemma kahn_loop_sem : forall fuel st P st',
  kahn_sem p P st ->
  kahn_loop fuel p st = Done st' ->
  exists P', kahn_sem p P' st' /\ queue st' = [].
Proof.
  induction fuel as [|f IH]; intros st P st' Hsem H;
    rewrite kahn_loop_eq in H.
  - destruct (queue st) as [|cur rest] eqn:Eq; [|discriminate].
    inversion H; subst. exists P. split; [exact Hsem | exact Eq].
  - destruct (queue st) as [|cur rest] eqn:Eq.
    { inversion H; subst. exists P. split; [exact Hsem | exact Eq]. }
    destruct Hsem as (Hnd & Hq & Hall). rewrite Eq in Hnd, Hq.
    assert (HcP : ~ In cur P).
    { simpl in Hnd. inversion Hnd as [|x xs Hn _]; subst.
      intros E. apply Hn. apply in_or_app. now right. }
    destruct (task_of_id cur) as (c & Hc & Hcid & Hfc).
    { apply Hq. now left. }
    assert (Hcself : ~ In cur (dependencies c)).
    { intros Hself. destruct (Hall c Hc) as [_ Hqc]. unfold queued in Hqc.
      rewrite Eq, Hcid in Hqc.
      assert (Hp : pending P c = []) by (apply Hqc; now left).
      assert (Hin : In cur (pending P c)) by (apply pending_In; auto).
      rewrite Hp in Hin. contradiction. }
    unfold get_task_by_id in H. rewrite Hfc in H.
    set (mid := {| in_degree := in_degree st;
                   earliest_start := earliest_start st;
                   queue := rest |}) in *.
    destruct (foldM (relax cur (Some c)) (tasks p) mid) as [st1| |] eqn:E;
      cbn [bind] in H; try discriminate.
    assert (Hmid : relax_sem p cur P (tasks p) mid).
    { unfold relax_sem. cbn [queue mid]. split; [|split].
      - apply (Permutation_NoDup (Permutation_middle rest P cur)).
        exact Hnd.
      - intros k Hk. apply Hq.
        apply (Permutation_in _ (Permutation_sym
                                   (Permutation_middle rest P cur))).
        exact Hk.
      - intros t Ht. destruct (Hall t Ht) as [Hok Hqt].
        unfold queued in Hqt. rewrite Eq in Hqt. split.
        + intros [_ Hcur]. split; [exact Hok|]. intros Hin.
          assert (Hp : pending P t = []).
          { apply Hqt.
            apply (Permutation_in _ (Permutation_sym
                                       (Permutation_middle rest P cur))).
            exact Hin. }
          assert (Hin' : In cur (pending P t)) by (apply pending_In; auto).
          rewrite Hp in Hin'. contradiction.
        + intros Hn. assert (Hcur : ~ In cur (dependencies t)) by tauto.
          destruct Hok as [Hd1 He1]. split; [split|].
          * cbn [in_degree mid]. rewrite (pending_skip cur P t Hcur).
            exact Hd1.
          * cbn [earliest_start mid]. now apply es_ok_grow.
          * unfold queued. rewrite (pending_skip cur P t Hcur), Hqt.
            split; apply Permutation_in;
              [apply Permutation_middle
              | apply Permutation_sym, Permutation_middle]. }
    pose proof (relax_all_sem cur c P Hc Hcid Hcself HcP (tasks p) mid st1
                  (NoDup_map_inv _ _ Hids) (incl_refl _) Hmid E)
      as (Hnd1 & Hq1 & Hall1).
    apply (IH st1 (cur :: P) st'); [|exact H].
    split; [exact Hnd1|]. split; [exact Hq1|].
    intros t Ht. apply (proj2 (Hall1 t Ht)). intros [[] _].
Qed.

Lemma kahn_init_sem st0 : kahn_init p = Done st0 -> kahn_sem p [] st0.
Proof.
  unfold kahn_init.
  set (in_deg := PyDict.comprehension task_id
                   (fun t => Z.of_nat (List.length (dependencies t)))
                   (tasks p)).
  assert (Hdeg : forall t, In t (tasks p) ->
                   PyDict.get in_deg (task_id t)
                   = Some (Z.of_nat (List.length (dependencies t)))).
  { intros t Ht. unfold in_deg, PyDict.comprehension.
    now apply (build_get_unique task_id
                 (fun t => Z.of_nat (List.length (dependencies t)))). }
  destruct (filterM _ (tasks p)) as [ready| |] eqn:Er; cbn [bind];
    try discriminate.
  apply (filterM_ready in_deg
           (fun t => Z.of_nat (List.length (dependencies t)))) in Er;
    [|exact Hdeg].
  intros H. inversion H; subst st0; clear H.
  assert (Hpend : forall t, pending [] t = dependencies t).
  { intros t. unfold pending. apply forallb_filter_id.
    apply forallb_forall. reflexivity. }
  unfold kahn_sem. cbn [queue in_degree earliest_start].
  rewrite app_nil_r. split; [|split].
  - rewrite Er. now apply NoDup_map_filter.
  - intros k Hk. rewrite Er in Hk. apply in_map_iff in Hk.
    destruct Hk as [t [<- Ht]]. apply filter_In in Ht. apply in_map. tauto.
  - intros t Ht. split; [split|].
    + cbn [in_degree]. rewrite Hpend. now apply Hdeg.
    + exists 0. cbn [earliest_start]. split.
      * unfold PyDict.comprehension.
        now apply (build_get_unique task_id (fun _ : Task => 0)).
      * split; [apply Qle_refl|]. split; [intros d u _ []|].
        left. apply Qeq_refl.
    + unfold queued. rewrite Hpend, app_nil_r, Er. split.
      * intros Hd. apply in_map. apply filter_In. split; [exact Ht|].
        rewrite Hd. reflexivity.
      * intros Hin. apply in_map_iff in Hin. destruct Hin as [t' [Hid Ht']].
        apply filter_In in Ht'. destruct Ht' as [Ht' Hz].
        assert (t' = t) by (eapply unique_task; eauto). subst t'.
        apply Z.eqb_eq in Hz. apply length_zero_iff_nil. lia.
Qed.

Lemma kahn_complete P st :
  kahn_sem p P st -> queue st = [] ->
  forall k, In k (map task_id (tasks p)) -> In k P.
Proof.
  intros (Hnd & Hq & Hall) Hempty.
  set (S := filter (fun k => negb (PyStr.mem k P)) (map task_id (tasks p))).
  destruct S as [|u0 S0] eqn:ES.
  - intros k Hk. pose proof (filter_nil_false _ _ ES k Hk) as Hf.
    apply negb_false_iff in Hf. now apply mem_In.
  - exfalso. apply Hacyc. unfold has_cycle_in.
    apply (closed_set_cyclic (dependency_graph p) S).
    + subst S. rewrite ES. discriminate.
    + intros u Hu. subst S. apply filter_In in Hu. destruct Hu as [Hu HuP].
      apply negb_true_iff, mem_not_In in HuP.
      destruct (task_of_id u Hu) as (t & Ht & Hid & _).
      destruct (Hall t Ht) as [_ Hqt]. unfold queued in Hqt.
      rewrite Hempty, Hid in Hqt. simpl in Hqt.
      destruct (pending P t) as [|d ds] eqn:Ep; [tauto|].
      assert (Hd : In d (pending P t)) by (rewrite Ep; now left).
      apply pending_In in Hd. destruct Hd as [Hd HdP].
      exists d. split.
      * apply filter_In. split; [now apply (Hres t d)|].
        apply negb_true_iff. now apply mem_not_In.
      * rewrite <- Hid. now apply edge_of_unique_ids.
Qed.

Lemma kahn_closed fuel st0 st :
  kahn_init p = Done st0 ->
  kahn_loop fuel p st0 = Done st ->
  es_closed p (earliest_start st).
Proof.
  intros H0 H. apply kahn_init_sem in H0.
  destruct (kahn_loop_sem fuel st0 [] st H0 H) as (P & Hsem & Hempty).
  pose proof (kahn_complete P st Hsem Hempty) as Hall.
  destruct Hsem as (_ & _ & Hok).
  intros t Ht. destruct (Hok t Ht) as [[_ (s & Hs & H0' & HA & HB)] _].
  exists s. split; [exact Hs|]. split; [exact H0'|]. split.
  - intros d u Hd Hu. apply (HA d u Hd); [|exact Hu].
    apply Hall. now apply (Hres t d).
  - destruct HB as [HB | (d & u & sd & Hd & _ & Hu & Hsd & Heq)];
      [now left|].
    right. exists d, u, sd. auto.
Qed.

Hypothesis Hnames : forall t, In t (tasks p) -> task_id t <> "".

Lemma closed_start_attained es t s :
  es_closed p es -> In t (tasks p) -> dependencies t <> [] ->
  PyDict.get es (task_id t) = Some s ->
  exists d u sd,
    In d (dependencies t) /\ find_task (tasks p) d = Some u
    /\ PyDict.get es d = Some sd /\ s == sd + estimated_days u.
Proof.
  intros Hcl Ht Hne Hs.
  destruct (Hcl t Ht) as (s' & Hs' & H0 & HA & HB).
  rewrite Hs in Hs'. inversion Hs'; subst s'; clear Hs'.
  destruct HB as [Hz | HB]; [|exact HB]. exfalso.
  destruct (dependencies t) as [|d0 ds] eqn:Ed; [congruence|].
  assert (Hd0 : In d0 (map task_id (tasks p))).
  { apply (Hres t d0 Ht). rewrite Ed. now left. }
  destruct (task_of_id d0 Hd0) as (u0 & Hu0 & Hid0 & Hf0).
  destruct (HA d0 u0 (or_introl eq_refl) Hf0) as (sd & Hsd & Hle).
  destruct (Hcl u0 Hu0) as (s0 & Hs0 & H00 & _).
  rewrite Hid0, Hsd in Hs0. inversion Hs0; subst s0.
  pose proof (Hpos u0 Hu0). lra.
Qed.

Lemma find_predecessor_found es c s : forall deps next,
  es_closed p es -> In c (tasks p) ->
  PyDict.get es (task_id c) = Some s ->
  (forall d, In d deps -> In d (map task_id (tasks p))) ->
  find_predecessor p es c deps = Done next ->
  (exists d u sd,
      In d deps /\ find_task (tasks p) d = Some u
      /\ PyDict.get es d = Some sd /\ s == sd + estimated_days u) ->
  exists dep u sd,
    next = Some dep /\ find_task (tasks p) dep = Some u
    /\ PyDict.get es dep = Some sd /\ s == sd + estimated_days u.
Proof.
  induction deps as [|d deps IH]; intros next Hcl Hc Hs Hin H Hex.
  - destruct Hex as (d & _ & _ & [] & _).
  - simpl in H.
    destruct (task_of_id d (Hin d (or_introl eq_refl)))
      as (u & Hu & Hid & Hf).
    destruct (Hcl u Hu) as (x & Hx & _). rewrite Hid in Hx.
    unfold PyDict.lookup, attr, get_task_by_id in H.
    rewrite Hx, Hf, Hs in H. cbn [bind] in H.
    destruct (Qeq_bool (x + estimated_days u) s) eqn:Eq.
    + inversion H; subst next. apply Qeq_bool_iff in Eq.
      exists d, u, x. repeat split; auto. now symmetry.
    + apply (IH next Hcl Hc Hs (fun d' Hd' => Hin d' (or_intror Hd')) H).
      destruct Hex as (d' & u' & sd' & [E | Hd'] & Hu' & Hsd' & Heq).
      * subst d'. rewrite Hf in Hu'. inversion Hu'; subst u'.
        rewrite Hx in Hsd'. inversion Hsd'; subst sd'.
        assert (Ht : Qeq_bool (x + estimated_days u) s = true)
          by (apply Qeq_bool_iff; now symmetry).
        congruence.
      * exists d', u', sd'. auto.
Qed.

Lemma backtrack_total es :
  es_closed p es ->
  forall fuel cid c acc path s,
    In c (tasks p) -> task_id c = cid ->
    PyDict.get es cid = Some s ->
    backtrack fuel p es (Some cid) acc = Done path ->
    days_of path == days_of acc + (s + estimated_days c).
Proof.
  intros Hcl. induction fuel as [|f IH]; intros cid c acc path s Hc Hid Hs H;
    rewrite backtrack_eq in H.
  - assert (E : String.eqb cid "" = false).
    { apply String.eqb_neq. rewrite <- Hid. now apply Hnames. }
    rewrite E in H. discriminate.
  - assert (E : String.eqb cid "" = false).
    { apply String.eqb_neq. rewrite <- Hid. now apply Hnames. }
    rewrite E in H. unfold attr, get_task_by_id in H.
    assert (Hf : find_task (tasks p) cid = Some c)
      by (rewrite <- Hid; now apply find_task_unique).
    rewrite Hf in H. cbn [bind] in H.
    destruct (dependencies c) as [|d ds] eqn:Ed.
    + inversion H; subst path. unfold days_of. simpl.
      destruct (Hcl c Hc) as (s' & Hs' & _ & _ & HB).
      rewrite Hid, Hs in Hs'. inversion Hs'; subst s'.
      destruct HB as [Hz | (d & _ & _ & Hd & _)].
      * rewrite Hz. ring.
      * rewrite Ed in Hd. contradiction.
    + destruct (find_predecessor p es c (d :: ds)) as [next| |] eqn:En;
        cbn [bind] in H; try discriminate.
      rewrite <- Hid in Hs.
      destruct (find_predecessor_found es c s (d :: ds) next Hcl Hc Hs)
        as (dep & u & sd & -> & Hu & Hsd & Heq).
      * intros d' Hd'. apply (Hres c d' Hc). now rewrite Ed.
      * exact En.
      * rewrite <- Ed. apply closed_start_attained; auto.
        rewrite Ed. discriminate.
      * destruct (find_task_Some _ _ _ Hu) as [Hin Hidu].
        rewrite (IH dep u (c :: acc) path sd Hin Hidu Hsd H).
        unfold days_of. simpl. rewrite Heq. ring.
Qed.

Lemma chain_total es :
  es_closed p es ->
  forall l a B sa,
    (forall t, In t (a :: l) -> In t (tasks p)) ->
    dependency_chain (a :: l) ->
    PyDict.get es (task_id a) = Some sa ->
    B <= sa ->
    exists z sz,
      In z (tasks p) /\ PyDict.get es (task_id z) = Some sz
      /\ B + days_of (a :: l) <= sz + estimated_days z.
Proof.
  intros Hcl. induction l as [|b r IH]; intros a B sa Hin Hc Hsa HB.
  - exists a, sa. split; [apply Hin; now left|]. split; [exact Hsa|].
    unfold days_of. simpl. lra.
  - destruct Hc as [Hdep Hc].
    assert (Ha : In a (tasks p)) by (apply Hin; now left).
    assert (Hb : In b (tasks p)) by (apply Hin; right; now left).
    destruct (Hcl b Hb) as (sb & Hsb & _ & HA & _).
    destruct (HA (task_id a) a Hdep (find_task_unique _ _ Hids Ha))
      as (sd & Hsd & Hle).
    rewrite Hsa in Hsd. inversion Hsd; subst sd.
    destruct (IH b (B + estimated_days a) sb
                 (fun t Ht => Hin t (or_intror Ht)) Hc Hsb)
      as (z & sz & Hz & Hsz & Hbound); [lra|].
    exists z, sz. split; [exact Hz|]. split; [exact Hsz|].
    unfold days_of in *. simpl in *. lra.
Qed.

End LongestChain.

Lemma py_max_by_ge {A} (key : A -> Q) xs : forall x y,
  In y (x :: xs) -> key y <= key (py_max_by key x xs).
Proof.
  assert (Hfirst : forall xs x, key x <= key (py_max_by key x xs)).
  { unfold py_max_by. clear xs.
    induction xs as [|a xs IH]; intros x; simpl; [apply Qle_refl|].
    destruct (Qlt_bool (key x) (key a)) eqn:E.
    - apply Qlt_bool_iff in E.
      apply Qle_trans with (key a); [now apply Qlt_le_weak | apply IH].
    - apply IH. }
  induction xs as [|a xs IH]; intros x y Hy.
  - destruct Hy as [<- | []]. apply Qle_refl.
  - change (py_max_by key x (a :: xs))
      with (py_max_by key (if Qlt_bool (key x) (key a) then a else x) xs).
    destruct Hy as [<- | [<- | Hy]].
    + destruct (Qlt_bool (key x) (key a)) eqn:E; [|apply Hfirst].
      apply Qlt_bool_iff in E.
      apply Qle_trans with (key a); [now apply Qlt_le_weak | apply Hfirst].
    + destruct (Qlt_bool (key x) (key a)) eqn:E; [apply Hfirst|].
      apply Qlt_bool_false in E.
      apply Qle_trans with (key x); [exact E | apply Hfirst].
    + apply IH. now right.
Qed.

Lemma mapM_tagged_In {K V} (f : K -> outcome V) ks : forall keyed,
  mapM (fun k => v <- f k ;; Done (k, v)) ks = Done keyed ->
  (forall kv, In kv keyed -> f (fst kv) = Done (snd kv))
  /\ (forall k, In k ks -> exists v, In (k, v) keyed).
Proof.
  induction ks as [|k ks IH]; simpl; intros keyed H.
  - inversion H; subst. split; [intros kv [] | intros k []].
  - destruct (f k) as [v| |] eqn:E; cbn [bind] in H; try discriminate.
    destruct (mapM _ ks) as [r| |]; cbn [bind] in H; try discriminate.
    inversion H; subst. destruct (IH r eq_refl) as [H1 H2]. split.
    + intros kv [<- | Hkv]; [exact E | now apply H1].
    + intros k' [<- | Hk'].
      * exists v. now left.
      * destruct (H2 k' Hk') as [v' Hv']. exists v'. now right.
Qed.

Lemma critical_path_longest fuel p path :
  NoDup (map task_id (tasks p)) ->
  all_resolve p ->
  ~ has_cycle_in p ->
  positive_durations p ->
  (forall t, In t (tasks p) -> NoDup (dependencies t)) ->
  (forall t, In t (tasks p) -> task_id t <> "") ->
  get_critical_path fuel p = Done path ->
  forall chain,
    dependency_chain chain ->
    (forall t, In t chain -> In t (tasks p)) ->
    days_of chain <= days_of path.
Proof.
  intros Hids Hres Hacyc Hpos Hdeps Hnames H chain Hchain Hin.
  unfold get_critical_path in H.
  destruct (kahn_init p) as [st0| |] eqn:E0; cbn [bind] in H;
    try discriminate.
  destruct (kahn_loop fuel p st0) as [st| |] eqn:E1; cbn [bind] in H;
    try discriminate.
  destruct (mapM _ (PyDict.keys (earliest_start st))) as [keyed| |] eqn:E2;
    cbn [bind] in H; try discriminate.
  destruct keyed as [|k ks]; [discriminate|].
  pose proof (kahn_closed p Hids Hres Hacyc Hdeps fuel st0 st E0 E1) as Hcl.
  destruct (kahn_keys p fuel st0 st E0 E1) as (_ & _ & Hkeys & _).
  destruct (mapM_tagged_In _ _ _ E2) as [Hkeyed Hall].
  pose proof (mapM_tagged _ _ _ E2) as Hfst.
  set (best := py_max_by snd k ks) in *.
  assert (Hbest : In best (k :: ks)) by apply py_max_by_In.
  assert (Hend : In (fst best) (map task_id (tasks p))).
  { apply Hkeys. rewrite <- Hfst. now apply in_map. }
  destruct (task_of_id p Hids (fst best) Hend) as (c & Hc & Hcid & Hfc).
  pose proof (Hkeyed best Hbest) as Hfk. unfold finish_key in Hfk.
  destruct (Hcl c Hc) as (sc & Hsc & Hsc0 & _). rewrite Hcid in Hsc.
  unfold PyDict.lookup, attr, get_task_by_id in Hfk.
  rewrite Hsc, Hfc in Hfk. cbn [bind] in Hfk.
  inversion Hfk as [Hbest_val]; clear Hfk.
  pose proof (backtrack_total p Hids Hres Hpos Hnames
                (earliest_start st) Hcl fuel (fst best) c [] path sc
                Hc Hcid Hsc H) as Htotal.
  unfold days_of at 2 in Htotal. simpl in Htotal.
  pose proof (Hpos c Hc) as Hcpos.
  destruct chain as [|a l].
  - unfold days_of at 1. simpl. lra.
  - assert (Ha : In a (tasks p)) by (apply Hin; now left).
    destruct (Hcl a Ha) as (sa & Hsa & Hsa0 & _).
    destruct (chain_total p Hids (earliest_start st) Hcl l a 0 sa Hin Hchain
                Hsa Hsa0) as (z & sz & Hz & Hsz & Hbound).
    assert (Hzk : In (task_id z) (PyDict.keys (earliest_start st))).
    { apply contains_keys. unfold PyDict.contains. now rewrite Hsz. }
    destruct (Hall (task_id z) Hzk) as [v Hv].
    pose proof (Hkeyed _ Hv) as Hfz. cbn [fst snd] in Hfz.
    unfold finish_key, PyDict.lookup, attr, get_task_by_id in Hfz.
    rewrite Hsz, (find_task_unique _ _ Hids Hz) in Hfz. cbn [bind] in Hfz.
    inversion Hfz as [Hv_val]; clear Hfz.
    pose proof (py_max_by_ge snd ks k (task_id z, v) Hv) as Hge.
    fold best in Hge. cbn [snd] in Hge.
    rewrite <- Hv_val, <- Hbest_val in Hge. lra.
Qed.

(** X18. On a project with distinct non-empty ids, dependencies that
    resolve and are listed once, no cycle and positive durations, the path
    that [get_critical_path] returns is a longest chain of dependencies:
    it is itself a chain of tasks of the project, each depending on the
    one before, and no such chain has a larger total duration. *)
Theorem critical_path_is_longest_chain (fuel : nat) (p : Project)
        (path : list Task) :
  NoDup (map task_id (tasks p)) ->
  all_resolve p ->
  ~ has_cycle_in p ->
  positive_durations p ->
  (forall t, In t (tasks p) -> NoDup (dependencies t)) ->
  (forall t, In t (tasks p) -> task_id t <> "") ->
  get_critical_path fuel p = Done path ->
  dependency_chain path
  /\ (forall t, In t path -> In t (tasks p))
  /\ (forall chain,
         dependency_chain chain ->
         (forall t, In t chain -> In t (tasks p)) ->
         py_sum (map estimated_days chain)
         <= py_sum (map estimated_days path)).
Proof.
  intros Hids Hres Hacyc Hpos Hdeps Hnames H.
  destruct (critical_path_shape fuel p path H) as (Hchain & Hfound & _).
  split; [exact Hchain|]. split.
  - intros t Ht. now destruct (find_task_Some _ _ _ (Hfound t Ht)).
  - intros chain Hc Hin. rewrite !py_sum_Qsum.
    now apply (critical_path_longest fuel p path).
Qed.

Lemma critical_path_is_longest_chain_witness :
  let A := Task_init "A" 5 100 [] None in
  let B := Task_init "B" 10 100 ["a"] None in
  let C := Task_init "C" 3 100 ["a"] None in
  let D := Task_init "D" 4 100 ["c"; "b"] None in
  let p := mkProject "Diamond" [A; B; C; D] 2 "low" "" in
  dependency_chain [A; B; D]
  /\ (forall t, In t [A; B; D] -> In t (tasks p))
  /\ (forall chain,
         dependency_chain chain ->
         (forall t, In t chain -> In t (tasks p)) ->
         py_sum (map estimated_days chain)
         <= py_sum (map estimated_days [A; B; D])).
Proof.
  cbv zeta.
  apply (critical_path_is_longest_chain 8
           (mkProject "Diamond"
              [Task_init "A" 5 100 [] None; Task_init "B" 10 100 ["a"] None;
               Task_init "C" 3 100 ["a"] None;
               Task_init "D" 4 100 ["c"; "b"] None] 2 "low" "")).
  - simpl. repeat constructor; simpl; intuition discriminate.
  - intros t d Ht Hd. simpl in Ht.
    destruct Ht as [<- | [<- | [<- | [<- | []]]]]; simpl in Hd;
      intuition (subst; simpl; auto).
  - apply (no_cycle_by_traversal 8); [simpl; lia | reflexivity].
  - intros t Ht. simpl in Ht.
    destruct Ht as [<- | [<- | [<- | [<- | []]]]]; reflexivity.
  - intros t Ht. simpl in Ht.
    destruct Ht as [<- | [<- | [<- | [<- | []]]]]; simpl;
      repeat constructor; simpl; intuition discriminate.
  - intros t Ht. simpl in Ht.
    destruct Ht as [<- | [<- | [<- | [<- | []]]]]; discriminate.
  - reflexivity.
Defined.

(** The hypothesis that every dependency is listed once cannot be dropped.
    When task B lists its dependency on A twice, its in-degree starts at
    two and is decreased once, so B never enters the queue and the start
    of C, which depends on B, stays at zero: the path returned is A, B of
    15 days although the chain A, B, C takes 18 days. *)
Lemma duplicate_dependency_shortens_path :
  exists path,
    get_critical_path 8
      (mkProject "Dup"
         [Task_init "A" 5 1 [] None; Task_init "B" 10 1 ["a"; "a"] None;
          Task_init "C" 3 1 ["b"] None] 3 "low" "") = Done path
    /\ path = [Task_init "A" 5 1 [] None; Task_init "B" 10 1 ["a"; "a"] None]
    /\ dependency_chain
         [Task_init "A" 5 1 [] None; Task_init "B" 10 1 ["a"; "a"] None;
          Task_init "C" 3 1 ["b"] None]
    /\ py_sum (map estimated_days path) == 15
    /\ py_sum (map estimated_days
                 [Task_init "A" 5 1 [] None;
                  Task_init "B" 10 1 ["a"; "a"] None;
                  Task_init "C" 3 1 ["b"] None]) == 18.
Proof.
  eexists. split; [reflexivity|]. split; [reflexivity|].
  split; [simpl; auto|]. split; reflexivity.
Qed.
